(** * PortHunter: a shallow embedding of [main.go]

    PortHunter runs a user-supplied Nmap command, parses the textual report
    into a host -> port-entries map, stores the result as JSON in
    [scan_data/previous_scan.json] and compares it with the scan stored by the
    previous run.

    The development follows the source file top-down: first the pieces of the
    Go standard library the program calls ([strings], [time], [os], [fmt],
    [encoding/json]), then the functions of [main.go] under their own names,
    then the properties that were checked.

    Modelling conventions.
    - A Go [string] is a sequence of bytes: Rocq's [string].
    - A Go [map[string]T] is a [gmap string T]; reading a missing key gives
      the zero value of [T].  The order in which [range] visits a map is
      unspecified in Go; it is a parameter of the model (class [MapRange]).
    - [int] counters (lengths, totals) are [nat]: they are bounded by the
      number of slice elements held in memory and cannot wrap.
    - [time.Duration] is an [int64] count of nanoseconds, a [Z].
    - [float64] is IEEE-754 binary64, computed with the Standard Library's
      [SpecFloat] (53-bit precision, round to nearest even).
    - Printing and saving are recorded as a trace of actions that is then run
      against the state of the [scan_data] folder. *)

From Stdlib Require Import ZArith Ascii String.
From Stdlib Require Import Floats.SpecFloat.
From stdpp Require Import gmap strings list fin_maps pretty sorting.

(** ** The [strings] package *)

Module GoStrings.

(** The separator of [strings.Split(output, "\n")]. *)
Definition newline : ascii := "010"%char.
Definition nl : string := String newline "".

(** [strings.Split(s, sep)] for the one-byte separator the program uses.
    The result always has at least one element. *)
Fixpoint Split (s : string) (sep : ascii) : list string :=
  match s with
  | EmptyString => [""]
  | String c s' =>
      if decide (c = sep) then "" :: Split s' sep
      else match Split s' sep with
           | x :: xs => String c x :: xs
           | [] => [String c ""]
           end
  end.

(** [strings.HasPrefix(s, prefix)]. *)
Definition HasPrefix (s pre : string) : bool := String.prefix pre s.

(** [strings.Contains(s, substr)]. *)
Fixpoint Contains (s sub : string) : bool :=
  HasPrefix s sub ||
  match s with
  | EmptyString => false
  | String _ s' => Contains s' sub
  end.

(** The UTF-8 encodings of the code points for which [unicode.IsSpace]
    holds: U+0009..U+000D, U+0020, U+0085, U+00A0, U+1680, U+2000..U+200A,
    U+2028, U+2029, U+202F, U+205F, U+3000.  Each is a well-formed
    encoding, and none starts with a continuation byte, so scanning a byte
    string for these patterns finds exactly the white-space runes that Go's
    decoder finds (a malformed byte decodes to U+FFFD, which is no space,
    and advances by one byte). *)
Definition White_Space : list (list nat) :=
  [ [9]; [10]; [11]; [12]; [13]; [32];
    [194; 133]; [194; 160];
    [225; 154; 128];
    [226; 128; 128]; [226; 128; 129]; [226; 128; 130]; [226; 128; 131];
    [226; 128; 132]; [226; 128; 133]; [226; 128; 134]; [226; 128; 135];
    [226; 128; 136]; [226; 128; 137]; [226; 128; 138];
    [226; 128; 168]; [226; 128; 169]; [226; 128; 175];
    [226; 129; 159];
    [227; 128; 128] ].

Definition bytes (l : list nat) : string :=
  string_of_list_ascii (ascii_of_nat <$> l).

(** Width in bytes of the pattern of [pats] that [s] starts with, [0] when
    there is none. *)
Definition match_width (pats : list string) (s : string) : nat :=
  match List.find (fun p => String.prefix p s) pats with
  | Some p => String.length p
  | None => 0
  end.

Definition space_width : string -> nat :=
  match_width (bytes <$> White_Space).

(** The same looking backwards from the end of a reversed string. *)
Definition space_width_rev : string -> nat :=
  match_width ((fun l => bytes (reverse l)) <$> White_Space).

(** Drop leading matches; [skip] counts the bytes of the current match that
    are still to be dropped. *)
Fixpoint trim_go (width : string -> nat) (s : string) (skip : nat) : string :=
  match s with
  | EmptyString => EmptyString
  | String c s' =>
      match skip with
      | S k => trim_go width s' k
      | O => match width s with
             | O => s
             | S k => trim_go width s' k
             end
      end
  end.

Definition TrimLeftSpace (s : string) : string := trim_go space_width s 0.
Definition TrimRightSpace (s : string) : string :=
  String.rev (trim_go space_width_rev (String.rev s) 0).

(** [strings.TrimSpace(s)]: all leading and trailing white space removed,
    as defined by Unicode. *)
Definition TrimSpace (s : string) : string :=
  TrimRightSpace (TrimLeftSpace s).

(** [strings.Fields(s)]: the maximal runs of non-space bytes, in order.
    [cur] is the field being read, reversed. *)
Definition flush (cur : string) (rest : list string) : list string :=
  match cur with
  | EmptyString => rest
  | _ => String.rev cur :: rest
  end.

Fixpoint fields_go (s : string) (cur : string) (skip : nat) : list string :=
  match s with
  | EmptyString => flush cur []
  | String c s' =>
      match skip with
      | S k => fields_go s' cur k
      | O => match space_width s with
             | O => fields_go s' (String c cur) 0
             | S k => flush cur (fields_go s' "" k)
             end
      end
  end.

Definition Fields (s : string) : list string := fields_go s "" 0.

(** [strings.Trim(s, cutset)] for a cutset of ASCII bytes, which Go trims
    bytewise. *)
Definition in_cutset (cutset : string) (c : ascii) : bool :=
  bool_decide (c ∈ list_ascii_of_string cutset).

Fixpoint trim_left_cutset (cutset s : string) : string :=
  match s with
  | EmptyString => EmptyString
  | String c s' => if in_cutset cutset c then trim_left_cutset cutset s' else s
  end.

Definition Trim (s cutset : string) : string :=
  String.rev (trim_left_cutset cutset (String.rev (trim_left_cutset cutset s))).

End GoStrings.

Import GoStrings.

(** ** [ParseNmapOutput] *)

(** [fmt.Sprintf("%s [%s] (%s)", port, state, service)]. *)
Definition port_entry (port state service : string) : string :=
  port +:+ " [" +:+ state +:+ "] (" +:+ service +:+ ")".

(** The body of the [for _, line := range lines] loop, on the two variables
    it updates: the map [results] and [currentIP].  [parts[len(parts)-1]]
    cannot be out of range: a trimmed line that starts with
    ["Nmap scan report for "] has a non-space byte after that prefix. *)
Definition parse_line (st : gmap string (list string) * string) (line : string)
  : gmap string (list string) * string :=
  let '(results, currentIP) := st in
  let line := TrimSpace line in
  if HasPrefix line "Nmap scan report for " then
    let parts := Fields line in
    let currentIP := List.last parts "" in
    (results, Trim currentIP "()")
  else if Contains line "/tcp" && negb (bool_decide (currentIP = "")) then
    let cols := Fields line in
    match cols with
    | port :: state :: service :: _ =>
        (<[currentIP := default [] (results !! currentIP)
                        ++ [port_entry port state service]]> results,
         currentIP)
    | _ => (results, currentIP)
    end
  else (results, currentIP).

Definition ParseNmapOutput (output : string) : gmap string (list string) :=
  fst (foldl parse_line (∅, "") (Split output newline)).

(** ** [float64] and the [time] package *)

Module GoFloat.

Definition float64 := spec_float.
Definition prec : Z := 53.
Definition emax : Z := 1024.

(** [float64(n)] for an integer [n], correctly rounded. *)
Definition of_int (n : Z) : float64 := binary_normalize prec emax n 0 false.

Definition add : float64 -> float64 -> float64 := SFadd prec emax.
Definition div : float64 -> float64 -> float64 := SFdiv prec emax.

(** [int(f)]: the fraction is discarded (truncation towards zero).  The
    conversion of an infinity or a NaN is implementation-defined in Go; it
    does not arise from a quotient of two [int64] values. *)
Definition to_int (f : float64) : Z :=
  match f with
  | S754_finite s m e =>
      let v := match e with
               | Zneg p => (Zpos m / 2 ^ Zpos p)%Z
               | _ => (Zpos m * 2 ^ e)%Z
               end in
      if s then (- v)%Z else v
  | _ => 0%Z
  end.

End GoFloat.

Module GoTime.
Import GoFloat.

(** [time.Duration] constants, in nanoseconds. *)
Definition Second : Z := 1000000000.
Definition Minute : Z := 60 * Second.
Definition Hour : Z := 60 * Minute.

Definition MinInt64 : Z := - 2 ^ 63.
Definition MaxInt64 : Z := 2 ^ 63 - 1.

(** [func (d Duration) Hours() float64]:
    [hour := d / Hour; nsec := d % Hour;
     return float64(hour) + float64(nsec)/(60*60*1e9)].
    Go's [/] and [%] on integers truncate towards zero. *)
Definition Hours (d : Z) : float64 :=
  let hour := Z.quot d Hour in
  let nsec := Z.rem d Hour in
  add (of_int hour) (div (of_int nsec) (of_int (60 * 60 * 1000000000))).

(** [func (d Duration) Minutes() float64], likewise. *)
Definition Minutes (d : Z) : float64 :=
  let min := Z.quot d Minute in
  let nsec := Z.rem d Minute in
  add (of_int min) (div (of_int nsec) (of_int (60 * 1000000000))).

End GoTime.

(** What the program needs from [time.Parse(time.RFC3339, s)] and
    [t.Sub(u)].  The accepted syntax differs between Go releases in corner
    cases, so the parser is a parameter; [time_Parse] returns the instant or
    the text of the error. *)
Class TimeLib := {
  Time : Type;
  time_Parse : string -> Time + string;
  time_Sub : Time -> Time -> Z;
}.

(** ** [formatElapsedTime] *)

Definition formatElapsedTime (d : Z) : string :=
  let hours := GoFloat.to_int (GoTime.Hours d) in
  let minutes := Z.rem (GoFloat.to_int (GoTime.Minutes d)) 60 in
  let days := Z.quot hours 24 in
  if (0 <? days)%Z then
    pretty days +:+ " days, " +:+ pretty (Z.rem hours 24) +:+ " hours"
  else if (0 <? hours)%Z then
    pretty hours +:+ " hours, " +:+ pretty minutes +:+ " minutes"
  else
    pretty minutes +:+ " minutes".

(** ** [DiffPorts] *)

(** The order in which a [for ... range m] loop visits the entries of a map:
    some enumeration of the entries, each exactly once.  Go may take another
    order each time; here the order is a function of the map, and the
    properties below hold for every such function. *)
Class MapRange := {
  range : forall {V : Type}, gmap string V -> list (string * V);
  range_perm : forall (V : Type) (m : gmap string V), range m ≡ₚ map_to_list m;
}.

(** [set := make(map[string]bool); for _, p := range l { set[p] = true }]. *)
Definition make_set (l : list string) : gmap string bool :=
  foldl (fun set p => <[p := true]> set) ∅ l.

(** [for p := range set { if !other[p] { acc = append(acc, p) } }]. *)
Definition missing_from `{MapRange} (set other : gmap string bool) : list string :=
  foldl (fun acc '(p, _) =>
           if negb (default false (other !! p)) then acc ++ [p] else acc)
        [] (range set).

Definition DiffPorts `{MapRange} (old new : list string) : list string * list string :=
  let oldSet := make_set old in
  let newSet := make_set new in
  let added := missing_from newSet oldSet in
  let removed := missing_from oldSet newSet in
  (added, removed).

(** ** The snapshot store: [scan_data/] *)

(** [ScanResult]: the time of the scan and, per host, its port entries. *)
Record ScanResult := {
  DateTime : string;
  Ports : gmap string (list string);
}.

(** What the program needs from [encoding/json].  [json.MarshalIndent]
    cannot fail on a struct of a string and a [map[string][]string], so the
    [if err != nil] after it in [SaveScan] is dead and the encoder is total. *)
Class Json := {
  json_MarshalIndent : ScanResult -> string;
  json_Unmarshal : string -> option ScanResult;
}.

(** The three paths the program touches. *)
Inductive path := scanFolder | scanFile | backupScanFile.

(** The part of the file system under those paths: the folder is missing,
    or something that is not a directory has its name, or it is a directory
    in which each of the two files is absent or has some contents.  Other
    failures of the operating system (permissions, full disk) are left out. *)
Inductive Store :=
| NoFolder
| NotADir
| Folder (current backup : option string).

Inductive errno := ENOENT | ENOTDIR | EEXIST | EISDIR | EINVAL.

Inductive error :=
| errorString (msg : string)
| PathError (e : errno)
| SyntaxError.

(** Go's [(T, error)] results. *)
Inductive result (A : Type) :=
| Ok (a : A)
| Err (e : error).
Arguments Ok {A} a.
Arguments Err {A} e.

(** State passing over the store. *)
Definition IO (A : Type) : Type := Store -> A * Store.
Definition io_ret {A} (a : A) : IO A := fun s => (a, s).
Definition io_bind {A B} (m : IO A) (k : A -> IO B) : IO B :=
  fun s => let '(a, s') := m s in k a s'.
Notation "'call' x := m 'in' k" := (io_bind m (fun x => k))
  (at level 10, x name, m at level 100, k at level 200, only parsing).

Definition slot (p : path) (s : Store) : option string :=
  match s, p with
  | Folder current _, scanFile => current
  | Folder _ backup, backupScanFile => backup
  | _, _ => None
  end.

(** [os.Stat(p)], of which the program only inspects the error. *)
Definition os_Stat (p : path) : IO (option errno) := fun s =>
  (match s, p with
   | NoFolder, _ => Some ENOENT
   | NotADir, scanFolder => None
   | NotADir, _ => Some ENOTDIR
   | Folder _ _, scanFolder => None
   | Folder _ _, _ => if slot p s is Some _ then None else Some ENOENT
   end, s).

Definition os_IsNotExist (err : option errno) : bool :=
  match err with Some ENOENT => true | _ => false end.

(** [os.Mkdir(p, 0755)]. *)
Definition os_Mkdir (p : path) : IO (option errno) := fun s =>
  match s, p with
  | NoFolder, scanFolder => (None, Folder None None)
  | NoFolder, _ => (Some ENOENT, s)
  | NotADir, scanFolder => (Some EEXIST, s)
  | NotADir, _ => (Some ENOTDIR, s)
  | Folder _ _, scanFolder => (Some EEXIST, s)
  | Folder _ _, _ => if slot p s is Some _ then (Some EEXIST, s) else (Some EINVAL, s)
  end.

(** Set or clear the contents of one of the two files. *)
Definition put (p : path) (v : option string) (s : Store) : Store :=
  match s, p with
  | Folder _ backup, scanFile => Folder v backup
  | Folder current _, backupScanFile => Folder current v
  | _, _ => s
  end.

(** [os.Rename(src, dst)] between the two files: [dst] is replaced.  Moving
    the folder itself is outside the model (the program never does it). *)
Definition os_Rename (src dst : path) : IO (option errno) := fun s =>
  match src, dst with
  | scanFolder, _ | _, scanFolder => (Some EINVAL, s)
  | _, _ =>
      match s with
      | NoFolder => (Some ENOENT, s)
      | NotADir => (Some ENOTDIR, s)
      | Folder _ _ =>
          match slot src s with
          | Some data => (None, put dst (Some data) (put src None s))
          | None => (Some ENOENT, s)
          end
      end
  end.

(** [os.WriteFile(p, data, 0644)]. *)
Definition os_WriteFile (p : path) (data : string) : IO (option errno) := fun s =>
  match s, p with
  | Folder _ _, scanFolder => (Some EISDIR, s)
  | Folder _ _, _ => (None, put p (Some data) s)
  | NoFolder, _ => (Some ENOENT, s)
  | NotADir, scanFolder => (None, s)
  | NotADir, _ => (Some ENOTDIR, s)
  end.

(** [os.ReadFile(p)]. *)
Definition os_ReadFile (p : path) : IO (result string) := fun s =>
  (match s, p with
   | NoFolder, _ => Err (PathError ENOENT)
   | NotADir, scanFolder => Err (PathError EINVAL)
   | NotADir, _ => Err (PathError ENOTDIR)
   | Folder _ _, scanFolder => Err (PathError EISDIR)
   | Folder _ _, _ =>
       match slot p s with
       | Some data => Ok data
       | None => Err (PathError ENOENT)
       end
   end, s).

Definition EnsureScanFolderExists : IO (option error) :=
  call err := os_Stat scanFolder in
  if os_IsNotExist err then
    call e := os_Mkdir scanFolder in io_ret (PathError <$> e)
  else io_ret None.

Definition LoadPreviousScan `{Json} : IO (result ScanResult) :=
  call r := os_ReadFile scanFile in
  match r with
  | Err e => io_ret (Err e)
  | Ok data =>
      match json_Unmarshal data with
      | None => io_ret (Err SyntaxError)
      | Some scan => io_ret (Ok scan)
      end
  end.

Definition SaveScan `{Json} (scan : ScanResult) : IO (option error) :=
  call err := EnsureScanFolderExists in
  match err with
  | Some e => io_ret (Some e)
  | None =>
      call st := os_Stat scanFile in
      call _ := (if st is None then os_Rename scanFile backupScanFile
                 else io_ret None) in
      let data := json_MarshalIndent scan in
      call e := os_WriteFile scanFile data in
      io_ret (PathError <$> e)
  end.

(** ** [CompareScans] *)

(** What the program does to the outside: write to standard output, or call
    [SaveScan]. *)
Inductive action :=
| Print (s : string)
| Save (scan : ScanResult).

(** [fmt.Println(s)]. *)
Definition Println (s : string) : action := Print (s +:+ nl).

(** ANSI colour codes: ESC [32m, ESC [31m, ESC [0m. *)
Definition esc : string := String (ascii_of_nat 27) "".
Definition green : string := esc +:+ "[32m".
Definition red : string := esc +:+ "[31m".
Definition reset : string := esc +:+ "[0m".

(** The variables the two loops of [CompareScans] update, and what they have
    printed so far. *)
Record tally := {
  noChanges : bool;
  totalAdded : nat;
  totalRemoved : nat;
  out : list action;
}.

Definition emit (l : list action) (t : tally) : tally :=
  {| noChanges := noChanges t; totalAdded := totalAdded t;
     totalRemoved := totalRemoved t; out := out t ++ l |}.
Definition set_changed (t : tally) : tally :=
  {| noChanges := false; totalAdded := totalAdded t;
     totalRemoved := totalRemoved t; out := out t |}.
Definition add_added (n : nat) (t : tally) : tally :=
  {| noChanges := noChanges t; totalAdded := totalAdded t + n;
     totalRemoved := totalRemoved t; out := out t |}.
Definition add_removed (n : nat) (t : tally) : tally :=
  {| noChanges := noChanges t; totalAdded := totalAdded t;
     totalRemoved := totalRemoved t + n; out := out t |}.

Definition added_line (port : string) : action :=
  Print ("    - " +:+ green +:+ port +:+ reset +:+ nl).
Definition removed_line (port : string) : action :=
  Print ("    - " +:+ red +:+ port +:+ reset +:+ nl).
Definition vanished_line (port : string) : action :=
  Print ("  [-] " +:+ red +:+ port +:+ reset +:+ nl).

(** Body of [for ip, newPorts := range new.Ports]. *)
Definition compare_host `{MapRange} (old : ScanResult) (t : tally)
    (e : string * list string) : tally :=
  let '(ip, newPorts) := e in
  let oldPorts := default [] (Ports old !! ip) in
  let '(added, removed) := DiffPorts oldPorts newPorts in
  if (0 <? length added) || (0 <? length removed) then
    let t := set_changed t in
    let t := emit [Print ("Changes for " +:+ ip +:+ ":" +:+ nl)] t in
    let t :=
      if 0 <? length added then
        let t := add_added (length added) t in
        let t := emit [Println "  [+] Added Ports:"] t in
        emit (added_line <$> added) t
      else t in
    let t :=
      if 0 <? length removed then
        let t := add_removed (length removed) t in
        let t := emit [Println "  [-] Removed Ports:"] t in
        emit (removed_line <$> removed) t
      else t in
    emit [Println ""] t
  else t.

(** Body of [for ip, oldPorts := range old.Ports]. *)
Definition vanished_host (new : ScanResult) (t : tally)
    (e : string * list string) : tally :=
  let '(ip, oldPorts) := e in
  if Ports new !! ip is None then
    let t := set_changed t in
    let t := emit [Print ("All ports for " +:+ ip +:+ " removed:" +:+ nl)] t in
    let t := foldl (fun t port => emit [vanished_line port] (add_removed 1 t))
                   t oldPorts in
    emit [Println ""] t
  else t.

(** The two loops, from the state in which the header has been printed. *)
Definition compare_hosts `{MapRange} (old new : ScanResult) (t : tally) : tally :=
  let t := foldl (compare_host old) t (range (Ports new)) in
  foldl (vanished_host new) t (range (Ports old)).

Definition header (elapsed : Z) : action :=
  Print (nl +:+ "--- Checking Previous Scan Data (Last scan was "
         +:+ formatElapsedTime elapsed +:+ " ago) ---" +:+ nl +:+ nl).

Definition summary (added removed : nat) : action :=
  Print ("Summary: " +:+ pretty added +:+ " new ports added, "
         +:+ pretty removed +:+ " removed." +:+ nl).

Definition CompareScans `{TimeLib} `{MapRange} (old new : ScanResult) : list action :=
  match time_Parse (DateTime old) with
  | inr err => [Println ("Error parsing old scan time: " +:+ err)]
  | inl oldTime =>
      match time_Parse (DateTime new) with
      | inr err => [Println ("Error parsing new scan time: " +:+ err)]
      | inl newTime =>
          let elapsed := time_Sub newTime oldTime in
          let t := {| noChanges := true; totalAdded := 0; totalRemoved := 0;
                      out := [header elapsed] |} in
          let t := compare_hosts old new t in
          if noChanges t then out t ++ [Println "No changes detected."]
          else out t ++ [summary (totalAdded t) (totalRemoved t); Save new]
      end
  end.

(** Running a trace: standard output grows, [Save] calls [SaveScan] and
    drops its error, as both callers do. *)
Record World := {
  stdout : list string;
  disk : Store;
}.

Definition run_action `{Json} (w : World) (a : action) : World :=
  match a with
  | Print s => {| stdout := stdout w ++ [s]; disk := disk w |}
  | Save scan => {| stdout := stdout w; disk := snd (SaveScan scan (disk w)) |}
  end.

Definition run `{Json} (l : list action) (w : World) : World :=
  foldl run_action w l.

(** ** [RunScan] and [main] *)

(** [exec.Command(name, arg...)]: the program to look up and run, and its
    argument vector, which starts with [name]. *)
Record Cmd := {
  Path : string;
  Args : list string;
}.

Definition exec_Command (name : string) (arg : list string) : Cmd :=
  {| Path := name; Args := name :: arg |}.

(** [RunScan] up to the construction of [cmd].  [args[0]] exists: a
    non-empty trimmed command has at least one field. *)
Definition RunScan_command (command target : string) : result Cmd :=
  let command := TrimSpace command in
  let target := TrimSpace target in
  if bool_decide (command = "") then
    Err (errorString "scan command cannot be empty")
  else if bool_decide (target = "") then
    Err (errorString "target cannot be empty")
  else
    let args := Fields command in
    let executable := hd "" args in
    let executable :=
      if bool_decide (executable = "sudo") && (1 <? length args)
      then nth 1 args "" else executable in
    let args := args ++ [target] in
    Ok (exec_Command executable (tail args)).

(** The machine the program runs on: [cmd.Run()] gives the text of its
    error, if any, and what the process wrote to standard output and standard
    error; [time_Now] is [time.Now().Format(time.RFC3339)].  The spinner that
    runs beside the scan only animates the terminal and is left out. *)
Class Host := {
  cmd_Run : Cmd -> option string * string;
  time_Now : string;
}.

Definition RunScan `{Host} (command target : string) : result ScanResult :=
  match RunScan_command command target with
  | Err e => Err e
  | Ok cmd =>
      match cmd_Run cmd with
      | (Some err, output) =>
          Err (errorString ("scan failed: " +:+ err +:+ nl +:+ "Output: " +:+ output))
      | (None, output) =>
          Ok {| DateTime := time_Now; Ports := ParseNmapOutput output |}
      end
  end.

(** [err.Error()].  Only [errorString] values reach a print statement. *)
Definition Error (e : error) : string :=
  match e with
  | errorString msg => msg
  | PathError ENOENT => "no such file or directory"
  | PathError ENOTDIR => "not a directory"
  | PathError EEXIST => "file exists"
  | PathError EISDIR => "is a directory"
  | PathError EINVAL => "invalid argument"
  | SyntaxError => "invalid character"
  end.

(** [main], with the flag values [-c] and [-t] already parsed. *)
Definition main `{Host} `{Json} `{TimeLib} `{MapRange}
    (banner scanCmd target : string) (w : World) : World :=
  let w := run [Println banner] w in
  match RunScan scanCmd target with
  | Err e => run [Println ("Error: " +:+ Error e)] w
  | Ok scan =>
      let w :=
        match fst (LoadPreviousScan (disk w)) with
        | Ok prevScan => run (CompareScans prevScan scan) w
        | Err _ => run [Println "No previous scan data found."] w
        end in
      run [Save scan; Println "Scan completed and saved."] w
  end.

(** ** Instances on which the model can be run *)

(** The iteration order of stdpp's [map_to_list]: one of the orders a Go
    [range] loop may take. *)
#[export] Instance sorted_range : MapRange := {|
  range V m := map_to_list m;
  range_perm V m := reflexivity (map_to_list m);
|}.

(** A parser for the timestamps of RFC 3339, section 5.6:
    [YYYY-MM-DDTHH:MM:SS], an optional fraction of a second, then [Z] or a
    numeric offset [+HH:MM] / [-HH:MM].  An instant is its number of
    nanoseconds since 1970-01-01T00:00:00Z.  It stands for [time.Parse] in
    the examples; the theorems hold for every [TimeLib]. *)
Module RFC3339.
Local Open Scope Z_scope.

Definition digit (c : ascii) : option Z :=
  let n := Z.of_nat (nat_of_ascii c) in
  if (48 <=? n) && (n <=? 57) then Some (n - 48) else None.

(** Exactly [n] decimal digits. *)
Fixpoint number (n : nat) (acc : Z) (s : string) : option (Z * string) :=
  match n with
  | O => Some (acc, s)
  | S n' =>
      match s with
      | String c s' => d ← digit c; number n' (10 * acc + d) s'
      | EmptyString => None
      end
  end.

Definition expect (c : ascii) (s : string) : option string :=
  match s with
  | String c' s' => if decide (c = c') then Some s' else None
  | EmptyString => None
  end.

(** Digits of a fraction: the first nine count, [w] is the weight of the
    next one in nanoseconds. *)
Fixpoint fraction (s : string) (w acc : Z) : Z * string :=
  match s with
  | String c s' =>
      match digit c with
      | Some d => fraction s' (w / 10) (acc + d * w)
      | None => (acc, s)
      end
  | EmptyString => (acc, s)
  end.

Definition nanos (s : string) : option (Z * string) :=
  match s with
  | String "."%char (String c _ as s') =>
      _ ← digit c; Some (fraction s' 100000000 0)
  | _ => Some (0, s)
  end.

(** Offset from UTC in seconds. *)
Definition zone (s : string) : option Z :=
  match s with
  | String "Z"%char EmptyString => Some 0
  | String sign s' =>
      sgn ← (if decide (sign = "+"%char) then Some 1
             else if decide (sign = "-"%char) then Some (-1) else None);
      '(hh, s') ← number 2 0 s';
      s' ← expect ":"%char s';
      '(mm, s') ← number 2 0 s';
      if bool_decide (s' = EmptyString) && (hh <? 24) && (mm <? 60)
      then Some (sgn * (hh * 3600 + mm * 60)) else None
  | EmptyString => None
  end.

Definition leap (y : Z) : bool :=
  ((y mod 4 =? 0) && negb (y mod 100 =? 0)) || (y mod 400 =? 0).

Definition days_in (y m : Z) : Z :=
  if m =? 2 then (if leap y then 29 else 28)
  else if (m =? 4) || (m =? 6) || (m =? 9) || (m =? 11) then 30 else 31.

(** Days from 1970-01-01 to the given date of the Gregorian calendar. *)
Definition days_from_civil (y m d : Z) : Z :=
  let y := if m <=? 2 then y - 1 else y in
  let era := y / 400 in
  let yoe := y - era * 400 in
  let doy := (153 * (if 2 <? m then m - 3 else m + 9) + 2) / 5 + d - 1 in
  let doe := yoe * 365 + yoe / 4 - yoe / 100 + doy in
  era * 146097 + doe - 719468.

Definition parse (s : string) : option Z :=
  '(y, s) ← number 4 0 s;
  s ← expect "-"%char s;
  '(m, s) ← number 2 0 s;
  s ← expect "-"%char s;
  '(d, s) ← number 2 0 s;
  s ← expect "T"%char s;
  '(hh, s) ← number 2 0 s;
  s ← expect ":"%char s;
  '(mm, s) ← number 2 0 s;
  s ← expect ":"%char s;
  '(ss, s) ← number 2 0 s;
  '(ns, s) ← nanos s;
  off ← zone s;
  if (1 <=? m) && (m <=? 12) && (1 <=? d) && (d <=? days_in y m)
     && (hh <? 24) && (mm <? 60) && (ss <? 60)
  then Some (((days_from_civil y m d * 86400 + hh * 3600 + mm * 60 + ss - off)
              * 1000000000) + ns)
  else None.

(** [t.Sub(u)]: the difference, saturated to the range of [int64]. *)
Definition sub (t u : Z) : Z :=
  Z.max GoTime.MinInt64 (Z.min GoTime.MaxInt64 (t - u)).

End RFC3339.

#[export] Instance rfc3339 : TimeLib := {|
  Time := Z;
  time_Parse s :=
    match RFC3339.parse s with
    | Some t => inl t
    | None => inr ("parsing time " +:+ s +:+ ": not an RFC 3339 timestamp")
    end;
  time_Sub := RFC3339.sub;
|}.

(** A stand-in for [encoding/json] on which the model can be run.  The
    encoder writes the text of [json.MarshalIndent(scan, "", "  ")] for the
    snapshots the program builds: hosts in the order of their names, each
    with at least one entry, strings of printable ASCII in which only the
    quotation mark and the backslash need an escape (Go also escapes
    control bytes, the angle brackets and the ampersand, and writes [null]
    for a nil slice).  The decoder reads such documents back.  The theorems
    hold for every [Json]. *)
Module JsonText.

Definition quote : ascii := ascii_of_nat 34.
Definition backslash : ascii := ascii_of_nat 92.

Fixpoint escape (s : string) : string :=
  match s with
  | EmptyString => EmptyString
  | String c s' =>
      if bool_decide (c = quote) || bool_decide (c = backslash)
      then String backslash (String c (escape s'))
      else String c (escape s')
  end.

Definition literal (s : string) : string :=
  String quote (escape s +:+ String quote "").

Fixpoint join (sep : string) (l : list string) : string :=
  match l with
  | [] => ""
  | [x] => x
  | x :: l' => x +:+ sep +:+ join sep l'
  end.

Definition array (l : list string) : string :=
  match l with
  | [] => "[]"
  | _ => "[" +:+ nl
         +:+ join ("," +:+ nl) ((fun e => "      " +:+ literal e) <$> l)
         +:+ nl +:+ "    ]"
  end.

Definition member (e : string * list string) : string :=
  "    " +:+ literal (fst e) +:+ ": " +:+ array (snd e).

Definition by_name (e1 e2 : string * list string) : Prop :=
  String.le (fst e1) (fst e2).

Definition object (m : gmap string (list string)) : string :=
  match merge_sort by_name (map_to_list m) with
  | [] => "{}"
  | l => "{" +:+ nl +:+ join ("," +:+ nl) (member <$> l) +:+ nl +:+ "  }"
  end.

Definition MarshalIndent (scan : ScanResult) : string :=
  "{" +:+ nl
  +:+ "  " +:+ literal "datetime" +:+ ": " +:+ literal (DateTime scan) +:+ "," +:+ nl
  +:+ "  " +:+ literal "ports" +:+ ": " +:+ object (Ports scan) +:+ nl
  +:+ "}".

Inductive token :=
| LBrace | RBrace | LBracket | RBracket | Colon | Comma
| Str (s : string).

Definition punctuation (c : ascii) : option token :=
  if bool_decide (c = "{"%char) then Some LBrace
  else if bool_decide (c = "}"%char) then Some RBrace
  else if bool_decide (c = "["%char) then Some LBracket
  else if bool_decide (c = "]"%char) then Some RBracket
  else if bool_decide (c = ":"%char) then Some Colon
  else if bool_decide (c = ","%char) then Some Comma
  else None.

Definition blank (c : ascii) : bool :=
  bool_decide (c ∈ [" "%char; "009"%char; "010"%char; "013"%char]).

(** [lit] is the string literal being read, reversed, and whether the last
    byte was a backslash. *)
Fixpoint lex (s : string) (lit : option (string * bool)) : option (list token) :=
  match s with
  | EmptyString => if lit is None then Some [] else None
  | String c s' =>
      match lit with
      | None =>
          if bool_decide (c = quote) then lex s' (Some ("", false))
          else if blank c then lex s' None
          else t ← punctuation c; ts ← lex s' None; Some (t :: ts)
      | Some (acc, true) =>
          if bool_decide (c = quote) || bool_decide (c = backslash)
          then lex s' (Some (String c acc, false))
          else None
      | Some (acc, false) =>
          if bool_decide (c = quote)
          then ts ← lex s' None; Some (Str (String.rev acc) :: ts)
          else if bool_decide (c = backslash) then lex s' (Some (acc, true))
          else lex s' (Some (String c acc, false))
      end
  end.

Fixpoint elements (ts : list token) : option (list string * list token) :=
  match ts with
  | Str s :: RBracket :: ts' => Some ([s], ts')
  | Str s :: Comma :: ts' => '(l, ts'') ← elements ts'; Some (s :: l, ts'')
  | _ => None
  end.

Definition entries (ts : list token) : option (list string * list token) :=
  match ts with
  | LBracket :: RBracket :: ts' => Some ([], ts')
  | LBracket :: ts' => elements ts'
  | _ => None
  end.

Fixpoint members (fuel : nat) (ts : list token) (m : gmap string (list string))
  : option (gmap string (list string) * list token) :=
  match fuel with
  | O => None
  | S fuel =>
      match ts with
      | Str ip :: Colon :: ts' =>
          '(l, ts'') ← entries ts';
          match ts'' with
          | RBrace :: ts3 => Some (<[ip := l]> m, ts3)
          | Comma :: ts3 => members fuel ts3 (<[ip := l]> m)
          | _ => None
          end
      | _ => None
      end
  end.

Definition hosts (ts : list token) : option (gmap string (list string) * list token) :=
  match ts with
  | LBrace :: RBrace :: ts' => Some (∅, ts')
  | LBrace :: ts' => members (length ts') ts' ∅
  | _ => None
  end.

Definition Unmarshal (data : string) : option ScanResult :=
  ts ← lex data None;
  match ts with
  | LBrace :: Str k1 :: Colon :: Str dt :: Comma :: Str k2 :: Colon :: ts' =>
      if bool_decide (k1 = "datetime") && bool_decide (k2 = "ports") then
        '(m, ts'') ← hosts ts';
        if ts'' is [RBrace] then Some {| DateTime := dt; Ports := m |} else None
      else None
  | _ => None
  end.

End JsonText.

#[export] Instance json_text : Json := {|
  json_MarshalIndent := JsonText.MarshalIndent;
  json_Unmarshal := JsonText.Unmarshal;
|}.

(** * Vocabulary of the properties *)

(** A host-report line: after trimming it starts with the report prefix. *)
Definition host_report_line (line : string) : bool :=
  HasPrefix (TrimSpace line) "Nmap scan report for ".

(** A line with the protocol marker. *)
Definition has_tcp_marker (line : string) : bool :=
  Contains (TrimSpace line) "/tcp".

(** The state of the loop after the given lines. *)
Definition parse_lines (lines : list string) : gmap string (list string) * string :=
  foldl parse_line (∅, "") lines.

(** No host is bound to an empty list. *)
Definition no_empty_host (results : gmap string (list string)) : Prop :=
  map_Forall (fun _ ports => ports ≠ []) results.

(** Sample outputs of the scanner: one without a host report, one with. *)
Definition noise_output : string :=
  "Starting Nmap 7.94 ( https://nmap.org )" +:+ nl +:+
  "80/tcp open http" +:+ nl +:+
  nl +:+
  "Nmap done: 1 IP address (0 hosts up) scanned in 3.05 seconds".

Definition report_output : string :=
  "Starting Nmap 7.94 ( https://nmap.org )" +:+ nl +:+
  "Nmap scan report for router.lan (192.168.1.1)" +:+ nl +:+
  "PORT    STATE  SERVICE VERSION" +:+ nl +:+
  "22/tcp  open   ssh     OpenSSH 8.9" +:+ nl +:+
  "80/tcp  closed http" +:+ nl +:+
  "443/tcp open" +:+ nl.

(** An action that only prints. *)
Definition is_Print (a : action) : Prop :=
  match a with Print _ => True | Save _ => False end.

(** The empty tally, and the tally of two stretches of a loop run one after
    the other. *)
Definition tally0 : tally :=
  {| noChanges := true; totalAdded := 0; totalRemoved := 0; out := [] |}.

Definition tally_merge (t d : tally) : tally :=
  {| noChanges := noChanges t && noChanges d;
     totalAdded := totalAdded t + totalAdded d;
     totalRemoved := totalRemoved t + totalRemoved d;
     out := out t ++ out d |}.

(** A snapshot with one host taken out of its map. *)
Definition without (ip : string) (scan : ScanResult) : ScanResult :=
  {| DateTime := DateTime scan; Ports := delete ip (Ports scan) |}.

(** A host of the new snapshot whose diff is not empty. *)
Definition host_changed `{MapRange} (old new : ScanResult) (ip : string) : Prop :=
  ∃ newPorts, Ports new !! ip = Some newPorts
              ∧ DiffPorts (default [] (Ports old !! ip)) newPorts ≠ ([], []).

(** A host of the old snapshot that the new one does not have. *)
Definition host_vanished (old new : ScanResult) (ip : string) : Prop :=
  is_Some (Ports old !! ip) ∧ Ports new !! ip = None.

Definition changes_detected `{MapRange} (old new : ScanResult) : Prop :=
  (∃ ip, host_changed old new ip) ∨ (∃ ip, host_vanished old new ip).

(** The tally when the loops start: the header is printed. *)
Definition start (elapsed : Z) : tally :=
  {| noChanges := true; totalAdded := 0; totalRemoved := 0;
     out := [header elapsed] |}.

(** What a vanished host adds to the tally. *)
Definition vanished_report (ip : string) (oldPorts : list string) : tally :=
  {| noChanges := false; totalAdded := 0; totalRemoved := length oldPorts;
     out := [Print ("All ports for " +:+ ip +:+ " removed:" +:+ nl)]
            ++ (vanished_line <$> oldPorts) ++ [Println ""] |}.

(** Sample snapshots: one host swaps a port, another is missing from the
    second scan. *)
Definition scan_monday : ScanResult :=
  {| DateTime := "2024-04-29T10:00:00Z";
     Ports := <["192.168.1.1" := ["80/tcp [open] (http)"]]>
              (<["192.168.1.7" := ["22/tcp [open] (ssh)"; "25/tcp [closed] (smtp)"]]> ∅) |}.

Definition scan_tuesday : ScanResult :=
  {| DateTime := "2024-04-30T11:30:00Z";
     Ports := <["192.168.1.1" := ["443/tcp [open] (https)"]]> ∅ |}.

(** The first snapshot with a timestamp that is no RFC 3339 instant. *)
Definition scan_undated : ScanResult :=
  {| DateTime := "yesterday"; Ports := Ports scan_monday |}.

(** The command the claim C2 describes: the tokens of the command line as
    they are, then the target. *)
Definition original_command (tokens : list string) (target : string) : Cmd :=
  exec_Command (hd "" tokens) (tail tokens ++ [target]).

Definition Day : Z := 24 * GoTime.Hour.

(** The rendering the claim C3 describes, on exact integer arithmetic:
    whole hours and whole minutes of the duration, seconds dropped. *)
Definition elapsed_as_claimed (d : Z) : string :=
  let hours := Z.quot d GoTime.Hour in
  let minutes := Z.rem (Z.quot d GoTime.Minute) 60 in
  if (Day <=? d)%Z then
    pretty (Z.quot hours 24) +:+ " days, " +:+ pretty (Z.rem hours 24) +:+ " hours"
  else if (GoTime.Hour <=? d)%Z then
    pretty hours +:+ " hours, " +:+ pretty minutes +:+ " minutes"
  else
    pretty minutes +:+ " minutes".

(** A shift record of [SpecFloat] stands for the rational [a / b]: its
    mantissa is the integer part, and the round and sticky bits tell where
    the fraction lies with respect to one half. *)
Definition stands_for (a b : Z) (mrs : shr_record) : Prop :=
  let m := shr_m mrs in
  (m * b <= a < (m + 1) * b)%Z /\
  match shr_r mrs, shr_s mrs with
  | false, false => a = (m * b)%Z
  | false, true => (m * b < a /\ 2 * a < (2 * m + 1) * b)%Z
  | true, false => (2 * a = (2 * m + 1) * b)%Z
  | true, true => ((2 * m + 1) * b < 2 * a)%Z
  end.

(** A duration without a fraction of a second. *)
Definition whole_seconds (d : Z) : Prop := Z.rem d GoTime.Second = 0%Z.

(** The durations on which the [float64] detour of [formatElapsedTime] is
    exact: the [int64] durations that are a whole number of seconds (the
    difference of two timestamps as the program writes them), and those
    shorter than 4096 hours. *)
Definition exact_domain (d : Z) : Prop :=
  (GoTime.MinInt64 <= d <= GoTime.MaxInt64)%Z
  /\ (whole_seconds d \/ (Z.abs d < 4096 * GoTime.Hour)%Z).

(** ** Vocabulary of the further properties *)

(** The host a host-report line names: its last field without brackets. *)
Definition host_of (line : string) : string :=
  Trim (List.last (Fields (TrimSpace line)) "") "()".

(** The entry a port line gives, if it has three fields. *)
Definition entry_of (line : string) : list string :=
  match Fields (TrimSpace line) with
  | port :: state :: service :: _ => [port_entry port state service]
  | _ => []
  end.

(** The entries recorded for [ip] by the lines read from the moment [cur] is
    the current host: those of the lines with the marker that are read
    while [ip] is the current host, in the order of the lines. *)
Fixpoint entries_for (ip cur : string) (lines : list string) : list string :=
  match lines with
  | [] => []
  | line :: lines =>
      if host_report_line line then entries_for ip (host_of line) lines
      else if has_tcp_marker line && bool_decide (cur = ip)
      then entry_of line ++ entries_for ip cur lines
      else entries_for ip cur lines
  end.

(** A map entry after more elements were appended to it. *)
Definition extend (r : option (list string)) (l : list string) : option (list string) :=
  match l with
  | [] => r
  | _ => Some (default [] r ++ l)
  end.

(** Every host of the old snapshot is in the new one, and every host of the
    new one lists the same entries as before, in any order and however often
    (a host that is only in the new snapshot lists none). *)
Definition same_ports (old new : ScanResult) : Prop :=
  (∀ ip, is_Some (Ports old !! ip) → is_Some (Ports new !! ip))
  ∧ (∀ ip newPorts, Ports new !! ip = Some newPorts →
       ∀ p, p ∈ default [] (Ports old !! ip) ↔ p ∈ newPorts).

(** The number of distinct entries of [l] that are not in [other]. *)
Definition fresh (other l : list string) : nat :=
  length (filter (fun p => p ∉ other) (remove_dups l)).

(** The two totals of the summary, counted on the maps without reference to
    an order of iteration. *)
Definition ports_added (old new : ScanResult) : nat :=
  sum_list_with (fun e => fresh (default [] (Ports old !! fst e)) (snd e))
                (map_to_list (Ports new)).

Definition ports_removed (old new : ScanResult) : nat :=
  sum_list_with (fun e => fresh (snd e) (default [] (Ports old !! fst e)))
                (map_to_list (Ports new))
  + sum_list_with (fun e => if Ports new !! fst e is None then length (snd e) else 0)
                  (map_to_list (Ports old)).

(** Two tallies that agree up to the order of the printed lines. *)
Definition tally_perm (t u : tally) : Prop :=
  noChanges t = noChanges u ∧ totalAdded t = totalAdded u
  ∧ totalRemoved t = totalRemoved u ∧ out t ≡ₚ out u.

(** What a host that is new in the second snapshot prints. *)
Definition new_host_report (ip : string) (added : list string) : list action :=
  [Print ("Changes for " +:+ ip +:+ ":" +:+ nl); Println "  [+] Added Ports:"]
  ++ (added_line <$> added) ++ [Println ""].

(** The snapshot of Tuesday found again a day later, its entry listed
    twice. *)
Definition scan_wednesday : ScanResult :=
  {| DateTime := "2024-05-01T09:15:00Z";
     Ports := <["192.168.1.1" := ["443/tcp [open] (https)"; "443/tcp [open] (https)"]]> ∅ |}.

(** A later snapshot with a host that the one of Tuesday lacks. *)
Definition scan_thursday : ScanResult :=
  {| DateTime := "2024-05-02T08:00:00Z";
     Ports := <["192.168.1.1" := ["443/tcp [open] (https)"]]>
              (<["192.168.1.20" := ["8080/tcp [open] (http-proxy)";
                                    "22/tcp [open] (ssh)";
                                    "8080/tcp [open] (http-proxy)"]]> ∅) |}.

(** A machine on which every command succeeds and prints the sample report,
    on 30 April 2024 at 11:30 UTC. *)
#[export] Instance sample_host : Host := {|
  cmd_Run _ := (None, report_output);
  time_Now := "2024-04-30T11:30:00Z";
|}.


(** The snapshots [RunScan] returns on the two. *)
Definition scan_router : ScanResult :=
  {| DateTime := "2024-04-30T11:30:00Z"; Ports := ParseNmapOutput report_output |}.

Definition scan_router_before : ScanResult :=
  {| DateTime := "2024-04-29T10:00:00Z"; Ports := ParseNmapOutput report_output |}.

(** The stand-in codec on the sample snapshots: the text it writes, and
    that it reads its own text back. *)

(** * Properties *)

(** ** The parser *)

Lemma ParseNmapOutput_unfold output :
  ParseNmapOutput output = (parse_lines (Split output newline)).1.
Proof. reflexivity. Qed.

(** Without a current host a line that is no host report changes nothing. *)
Lemma parse_line_no_context results line :
  host_report_line line = false →
  parse_line (results, "") line = (results, "").
Proof.
  unfold host_report_line, parse_line. intros ->.
  rewrite bool_decide_eq_true_2 by reflexivity.
  rewrite andb_false_r. reflexivity.
Qed.

Lemma foldl_parse_line_no_context results lines :
  Forall (fun line => host_report_line line = false) lines →
  foldl parse_line (results, "") lines = (results, "").
Proof.
  induction 1 as [|line lines Hline _ IH]; cbn [foldl]; [reflexivity|].
  rewrite parse_line_no_context by assumption. exact IH.
Qed.

(** The parser only ever extends a list by one entry. *)
Lemma parse_line_no_empty_host results currentIP line :
  no_empty_host results →
  no_empty_host (parse_line (results, currentIP) line).1.
Proof.
  intros Hinv. unfold parse_line.
  destruct (HasPrefix _ _); [exact Hinv|].
  destruct (_ && _); [|exact Hinv].
  destruct (Fields _) as [|port [|state [|service rest]]]; try exact Hinv.
  simpl. apply map_Forall_insert_2; [|exact Hinv].
  intros Heq. by apply app_eq_nil in Heq as [_ ?].
Qed.

Lemma foldl_parse_line_no_empty_host lines st :
  no_empty_host st.1 →
  no_empty_host (foldl parse_line st lines).1.
Proof.
  revert st. induction lines as [|line lines IH]; intros [results ip] Hinv;
    cbn [foldl]; [exact Hinv|].
  apply IH. by apply parse_line_no_empty_host.
Qed.

(** C8. An output without host-report lines parses to the empty map:
    [ParseNmapOutput] is a total function, every port line is dropped
    because no current host is ever set, and any other line is skipped. *)
Theorem ParseNmapOutput_no_host_lines output :
  Forall (fun line => host_report_line line = false) (Split output newline) →
  ParseNmapOutput output = ∅.
Proof.
  intros Hlines. rewrite ParseNmapOutput_unfold. unfold parse_lines.
  by rewrite foldl_parse_line_no_context.
Qed.

Lemma ParseNmapOutput_no_host_lines_witness :
  has_tcp_marker "80/tcp open http" = true ∧ ParseNmapOutput noise_output = ∅.
Proof.
  split; [reflexivity|].
  apply (ParseNmapOutput_no_host_lines noise_output).
  vm_compute. repeat constructor.
Defined.

(** C10. Every host in the map returned by [ParseNmapOutput] has at least
    one entry: the parser never binds a host to an empty list. *)
Theorem ParseNmapOutput_hosts_nonempty output ip ports :
  ParseNmapOutput output !! ip = Some ports → ports ≠ [].
Proof.
  rewrite ParseNmapOutput_unfold. unfold parse_lines. intros Hlookup.
  eapply (foldl_parse_line_no_empty_host (Split output newline) (∅, ""));
    [apply map_Forall_empty|exact Hlookup].
Qed.

Lemma ParseNmapOutput_hosts_nonempty_witness :
  ParseNmapOutput report_output !! "192.168.1.1"
    = Some ["22/tcp [open] (ssh)"; "80/tcp [closed] (http)"]
  ∧ ["22/tcp [open] (ssh)"; "80/tcp [closed] (http)"] ≠ [].
Proof.
  assert (ParseNmapOutput report_output !! "192.168.1.1"
          = Some ["22/tcp [open] (ssh)"; "80/tcp [closed] (http)"]) as Hlookup
    by (vm_compute; reflexivity).
  split; [exact Hlookup|].
  exact (ParseNmapOutput_hosts_nonempty report_output "192.168.1.1" _ Hlookup).
Defined.

(** C7, as amended.  A line with the ["/tcp"] marker, read while a current
    host is set, and which is not itself a host-report line, is a port
    entry exactly when it has at least three fields: the first three are
    recorded for the current host, further fields are ignored, and a line
    with fewer fields leaves the map as it was. *)
Theorem parse_line_port_entry results currentIP line :
  currentIP ≠ "" →
  host_report_line line = false →
  has_tcp_marker line = true →
  parse_line (results, currentIP) line =
    match Fields (TrimSpace line) with
    | port :: state :: service :: _ =>
        (<[currentIP := default [] (results !! currentIP)
                        ++ [port_entry port state service]]> results,
         currentIP)
    | _ => (results, currentIP)
    end.
Proof.
  unfold host_report_line, has_tcp_marker, parse_line. intros Hip -> ->.
  by rewrite bool_decide_eq_false_2.
Qed.

Lemma parse_line_port_entry_witness :
  parse_line (∅, "192.168.1.1") "22/tcp  open   ssh     OpenSSH 8.9"
  = (<["192.168.1.1" := ["22/tcp [open] (ssh)"]]> ∅, "192.168.1.1")
  ∧ parse_line (∅, "192.168.1.1") "443/tcp open" = (∅, "192.168.1.1").
Proof.
  split.
  - exact (parse_line_port_entry ∅ "192.168.1.1"
             "22/tcp  open   ssh     OpenSSH 8.9"
             ltac:(discriminate) eq_refl eq_refl).
  - exact (parse_line_port_entry ∅ "192.168.1.1" "443/tcp open"
             ltac:(discriminate) eq_refl eq_refl).
Defined.

(** C7 as stated fails on a host-report line that contains the marker: the
    test for the report prefix comes first, so the line sets the current
    host and records nothing, although a host is set and the line has the
    marker and seven fields. *)
Lemma parse_line_marker_in_host_line :
  let line := "Nmap scan report for 80/tcp open http" in
  has_tcp_marker line = true
  ∧ Fields (TrimSpace line) = ["Nmap"; "scan"; "report"; "for"; "80/tcp"; "open"; "http"]
  ∧ parse_line (∅, "192.168.1.1") line = (∅, "http")
  ∧ parse_line (∅, "192.168.1.1") line
    ≠ (<["192.168.1.1" := [port_entry "Nmap" "scan" "report"]]> ∅, "192.168.1.1").
Proof.
  repeat split; try reflexivity.
  intros Heq. apply (f_equal snd) in Heq. vm_compute in Heq. discriminate.
Qed.

(** ** [DiffPorts] *)

Section DiffPorts.
Context `{MapRange}.

Lemma foldl_insert_true_lookup (l : list string) (set : gmap string bool) p :
  foldl (fun set p => <[p := true]> set) set l !! p
  = if decide (p ∈ l) then Some true else set !! p.
Proof.
  revert set. induction l as [|q l IH]; intros set; cbn [foldl].
  - by rewrite decide_False by apply not_elem_of_nil.
  - rewrite IH. destruct (decide (p ∈ l)) as [Hin|Hnin].
    + by rewrite decide_True by (by right).
    + destruct (decide (p = q)) as [->|Hne].
      * rewrite decide_True by left. apply lookup_insert_eq.
      * rewrite decide_False by (by intros [?|?]%elem_of_cons).
        by apply lookup_insert_ne.
Qed.

(** [make_set l] holds [true] at the elements of [l] and nothing else. *)
Lemma make_set_lookup l p :
  make_set l !! p = if decide (p ∈ l) then Some true else None.
Proof. unfold make_set. by rewrite foldl_insert_true_lookup. Qed.

Lemma make_set_member l p : default false (make_set l !! p) = bool_decide (p ∈ l).
Proof.
  rewrite make_set_lookup. destruct (decide (p ∈ l)).
  - by rewrite bool_decide_eq_true_2.
  - by rewrite bool_decide_eq_false_2.
Qed.

Lemma make_set_ext l l' : (∀ p, p ∈ l ↔ p ∈ l') → make_set l = make_set l'.
Proof.
  intros Hsame. apply map_eq. intros p. rewrite !make_set_lookup.
  destruct (decide (p ∈ l)) as [Hin|Hnin].
  - by rewrite decide_True by (by apply Hsame).
  - by rewrite decide_False by (by rewrite <- Hsame).
Qed.

(** The loop over a set is a filter of the keys in the order of [range]. *)
Lemma foldl_missing_filter (other : gmap string bool) (l : list (string * bool)) acc :
  foldl (fun acc '(p, _) =>
           if negb (default false (other !! p)) then acc ++ [p] else acc) acc l
  = acc ++ filter (fun p => default false (other !! p) = false) l.*1.
Proof.
  revert acc. induction l as [|[p b] l IH]; intros acc; cbn [foldl].
  - by rewrite app_nil_r.
  - rewrite IH. cbn [fmap list_fmap fst]. rewrite filter_cons.
    destruct (default false (other !! p)); simpl.
    + reflexivity.
    + by rewrite <- app_assoc.
Qed.

Lemma missing_from_filter set other :
  missing_from set other
  = filter (fun p => default false (other !! p) = false) (range set).*1.
Proof. unfold missing_from. by rewrite foldl_missing_filter. Qed.

Lemma range_keys_perm {V} (m : gmap string V) : (range m).*1 ≡ₚ (map_to_list m).*1.
Proof. by rewrite range_perm. Qed.

Lemma missing_from_NoDup set other : NoDup (missing_from set other).
Proof.
  rewrite missing_from_filter. apply NoDup_filter.
  rewrite range_keys_perm. apply NoDup_fst_map_to_list.
Qed.

Lemma elem_of_missing_from l l' p :
  p ∈ missing_from (make_set l) (make_set l') ↔ p ∈ l ∧ p ∉ l'.
Proof.
  rewrite missing_from_filter, list_elem_of_filter, range_keys_perm.
  rewrite make_set_member, bool_decide_eq_false.
  rewrite list_elem_of_fmap. split.
  - intros [Hnot [[q b] [-> Hin%elem_of_map_to_list]]]. split; [|done].
    simpl in *. rewrite make_set_lookup in Hin. by destruct (decide (q ∈ l)).
  - intros [Hin Hnot]. split; [done|]. exists (p, true). split; [done|].
    apply elem_of_map_to_list. rewrite make_set_lookup. by rewrite decide_True.
Qed.

End DiffPorts.

(** C4. [DiffPorts] is the set difference in both directions: [added] holds
    exactly the entries of [new] that are not in [old], [removed] exactly the
    entries of [old] that are not in [new], neither list repeats an entry
    however often the inputs do, an entry of both inputs is in neither
    result, and inputs with the same elements (in any order, with any
    repetitions), ranged over in any order, give the same results up to
    order. *)
Theorem DiffPorts_set_difference `{MapRange} (old new : list string) :
  (∀ p, p ∈ fst (DiffPorts old new) ↔ p ∈ new ∧ p ∉ old)
  ∧ (∀ p, p ∈ snd (DiffPorts old new) ↔ p ∈ old ∧ p ∉ new)
  ∧ NoDup (fst (DiffPorts old new))
  ∧ NoDup (snd (DiffPorts old new))
  ∧ (∀ p, p ∈ old → p ∈ new →
          (p ∉ fst (DiffPorts old new)) ∧ (p ∉ snd (DiffPorts old new)))
  ∧ (∀ (order : MapRange) old' new',
        (∀ p, p ∈ old ↔ p ∈ old') → (∀ p, p ∈ new ↔ p ∈ new') →
        (fst (@DiffPorts order old' new') ≡ₚ fst (DiffPorts old new))
        ∧ (snd (@DiffPorts order old' new') ≡ₚ snd (DiffPorts old new))).
Proof.
  unfold DiffPorts; cbn [fst snd].
  split; [intros p; apply elem_of_missing_from|].
  split; [intros p; apply elem_of_missing_from|].
  split; [apply missing_from_NoDup|].
  split; [apply missing_from_NoDup|].
  split.
  - intros p Hold Hnew.
    split; intros [_ Hnot]%elem_of_missing_from; contradiction.
  - intros order old' new' Hold Hnew.
    split; (apply NoDup_Permutation; [apply missing_from_NoDup..|]);
      intros p; rewrite !elem_of_missing_from, Hold, Hnew; reflexivity.
Qed.


Example DiffPorts_example :
  DiffPorts ["80/tcp [open] (http)"; "22/tcp [open] (ssh)"; "80/tcp [open] (http)"]
            ["22/tcp [open] (ssh)"; "443/tcp [open] (https)"]
  = (["443/tcp [open] (https)"], ["80/tcp [open] (http)"]).
Proof. vm_compute. reflexivity. Qed.

(** ** [SaveScan] *)

Section SaveScan.
Context `{Json}.

(** [SaveScan] on each shape of the store. *)
Lemma SaveScan_NoFolder scan :
  SaveScan scan NoFolder = (None, Folder (Some (json_MarshalIndent scan)) None).
Proof. reflexivity. Qed.

Lemma SaveScan_NotADir scan :
  SaveScan scan NotADir = (Some (PathError ENOTDIR), NotADir).
Proof. reflexivity. Qed.

Lemma SaveScan_first scan backup :
  SaveScan scan (Folder None backup)
  = (None, Folder (Some (json_MarshalIndent scan)) backup).
Proof. reflexivity. Qed.

Lemma SaveScan_rotate scan current backup :
  SaveScan scan (Folder (Some current) backup)
  = (None, Folder (Some (json_MarshalIndent scan)) (Some current)).
Proof. reflexivity. Qed.

(** C5. Saving B into a store whose current file holds A leaves A in the
    backup file and B in the current file; saving C next leaves B in the
    backup and C in the current file.  The store is then the same whatever
    A and the older backup were: two generations are kept and A is gone.
    The rename of the current file into the backup comes first: the save
    is the write of the new contents into the store as the rename left
    it, with A in the backup and no current file. *)
Theorem SaveScan_rotation (A B C : ScanResult) (older : option string) :
  let s0 := Folder (Some (json_MarshalIndent A)) older in
  let s1 := snd (SaveScan B s0) in
  let s2 := snd (SaveScan C s1) in
  (fst (SaveScan B s0) = None
   ∧ slot backupScanFile s1 = Some (json_MarshalIndent A)
   ∧ slot scanFile s1 = Some (json_MarshalIndent B))
  ∧ (fst (SaveScan C s1) = None
     ∧ slot backupScanFile s2 = Some (json_MarshalIndent B)
     ∧ slot scanFile s2 = Some (json_MarshalIndent C))
  ∧ s2 = Folder (Some (json_MarshalIndent C)) (Some (json_MarshalIndent B))
  ∧ snd (os_Rename scanFile backupScanFile s0)
    = Folder None (Some (json_MarshalIndent A))
  ∧ snd (SaveScan B s0)
    = snd (os_WriteFile scanFile (json_MarshalIndent B)
             (snd (os_Rename scanFile backupScanFile s0))).
Proof.
  intros s0 s1 s2. subst s0 s1 s2.
  rewrite !SaveScan_rotate. cbn [fst snd slot]. rewrite SaveScan_rotate.
  repeat split; reflexivity.
Qed.

(** Running a trace that only prints leaves the store alone. *)
Lemma run_app l1 l2 w : run (l1 ++ l2) w = run l2 (run l1 w).
Proof. unfold run. apply foldl_app. Qed.

Lemma run_prints_disk l w : Forall is_Print l → disk (run l w) = disk w.
Proof.
  intros Hl. revert w. induction Hl as [|a l Ha _ IH]; intros w; [reflexivity|].
  unfold run in *. cbn [foldl]. rewrite IH. by destruct a.
Qed.

Lemma prints_no_Save l scan : Forall is_Print l → Save scan ∉ l.
Proof.
  intros Hl Hin. rewrite Forall_forall in Hl. exact (Hl _ Hin).
Qed.

End SaveScan.

(** ** [CompareScans] *)

(** The loops only accumulate: each iteration merges its own contribution
    into the running tally. *)
Lemma tally_eq (t u : tally) :
  noChanges t = noChanges u → totalAdded t = totalAdded u →
  totalRemoved t = totalRemoved u → out t = out u → t = u.
Proof. destruct t, u; simpl; congruence. Qed.

Lemma merge_tally0_r t : tally_merge t tally0 = t.
Proof.
  apply tally_eq; simpl; [apply andb_true_r|lia|lia|apply app_nil_r].
Qed.

Lemma merge_assoc t u v : tally_merge (tally_merge t u) v = tally_merge t (tally_merge u v).
Proof.
  apply tally_eq; simpl;
    [symmetry; apply andb_assoc|lia|lia|symmetry; apply app_assoc].
Qed.

(** A loop whose body merges a contribution merges the contributions. *)
Lemma foldl_merge {A} (body : tally → A → tally) (l : list A) t :
  (∀ t x, body t x = tally_merge t (body tally0 x)) →
  foldl body t l = tally_merge t (foldl body tally0 l).
Proof.
  intros Hbody. revert t. induction l as [|x l IH] using rev_ind; intros t.
  - simpl. by rewrite merge_tally0_r.
  - rewrite !foldl_app. cbn [foldl].
    rewrite Hbody, IH, (Hbody (foldl body tally0 l)). apply merge_assoc.
Qed.

Lemma foldl_merge_cons {A} (body : tally → A → tally) (l : list A) x :
  (∀ t x, body t x = tally_merge t (body tally0 x)) →
  foldl body tally0 (x :: l) = tally_merge (body tally0 x) (foldl body tally0 l).
Proof. intros Hbody. cbn [foldl]. by apply foldl_merge. Qed.

Lemma vanished_lines_fold ports t :
  foldl (fun t port => emit [vanished_line port] (add_removed 1 t)) t ports
  = tally_merge t {| noChanges := true; totalAdded := 0;
               totalRemoved := length ports;
               out := vanished_line <$> ports |}.
Proof.
  revert t. induction ports as [|port ports IH]; intros t; cbn [foldl].
  - apply tally_eq; simpl; [by rewrite andb_true_r|lia|lia|by rewrite app_nil_r].
  - rewrite IH. apply tally_eq; simpl; [done|lia|lia|by rewrite <- app_assoc].
Qed.

Lemma vanished_host_absent new ip oldPorts :
  Ports new !! ip = None →
  vanished_host new tally0 (ip, oldPorts) = vanished_report ip oldPorts.
Proof.
  intros Hnone. unfold vanished_host. rewrite Hnone, vanished_lines_fold.
  by apply tally_eq.
Qed.

Lemma vanished_host_present new ip oldPorts :
  is_Some (Ports new !! ip) →
  vanished_host new tally0 (ip, oldPorts) = tally0.
Proof. intros [ports Hsome]. unfold vanished_host. by rewrite Hsome. Qed.

Lemma vanished_host_merge new t e :
  vanished_host new t e = tally_merge t (vanished_host new tally0 e).
Proof.
  destruct e as [ip oldPorts]. unfold vanished_host.
  destruct (Ports new !! ip).
  - by rewrite merge_tally0_r.
  - rewrite !vanished_lines_fold.
    apply tally_eq; simpl; [by rewrite andb_false_r|lia|lia|].
    by rewrite <- !app_assoc.
Qed.

Section Loops.
Context {A : Type} (body : tally → A → tally).
Hypothesis body_merge : ∀ t x, body t x = tally_merge t (body tally0 x).

Lemma foldl_noChanges_false l :
  noChanges (foldl body tally0 l) = false
  ↔ ∃ x, x ∈ l ∧ noChanges (body tally0 x) = false.
Proof using body_merge.
  induction l as [|x l IH].
  - simpl. split; [discriminate|]. by intros [x [?%not_elem_of_nil _]].
  - rewrite foldl_merge_cons by assumption. cbn [tally_merge noChanges].
    rewrite andb_false_iff, IH. split.
    + intros [Hx|[y [Hy Hfalse]]].
      * exists x. split; [left|done].
      * exists y. split; [by right|done].
    + intros [y [[->|Hy]%elem_of_cons Hfalse]]; [by left|].
      right. by exists y.
Qed.

Lemma foldl_totalAdded l :
  totalAdded (foldl body tally0 l)
  = sum_list_with (fun x => totalAdded (body tally0 x)) l.
Proof using body_merge.
  induction l as [|x l IH]; [reflexivity|].
  rewrite foldl_merge_cons by assumption. cbn [tally_merge totalAdded]. by rewrite IH.
Qed.

Lemma foldl_totalRemoved l :
  totalRemoved (foldl body tally0 l)
  = sum_list_with (fun x => totalRemoved (body tally0 x)) l.
Proof using body_merge.
  induction l as [|x l IH]; [reflexivity|].
  rewrite foldl_merge_cons by assumption. cbn [tally_merge totalRemoved]. by rewrite IH.
Qed.

Lemma foldl_out l :
  out (foldl body tally0 l) = concat ((fun x => out (body tally0 x)) <$> l).
Proof using body_merge.
  induction l as [|x l IH]; [reflexivity|].
  rewrite foldl_merge_cons by assumption. cbn [tally_merge out]. by rewrite IH.
Qed.

Lemma foldl_out_prints l :
  (∀ x, Forall is_Print (out (body tally0 x))) →
  Forall is_Print (out (foldl body tally0 l)).
Proof using body_merge.
  intros Hbody. rewrite foldl_out. apply Forall_concat, Forall_fmap.
  apply Forall_forall. intros x _. apply Hbody.
Qed.

End Loops.

Lemma foldl_ext_in {A B} (f g : A → B → A) (l : list B) a :
  (∀ a x, x ∈ l → f a x = g a x) → foldl f a l = foldl g a l.
Proof.
  revert a. induction l as [|x l IH]; intros a Hfg; cbn [foldl]; [reflexivity|].
  rewrite Hfg by left. apply IH. intros a' y Hy. apply Hfg. by right.
Qed.

Section CompareScans.
Context `{MapRange}.

Lemma elem_of_range {V} (m : gmap string V) ip v :
  (ip, v) ∈ range m ↔ m !! ip = Some v.
Proof. rewrite range_perm. apply elem_of_map_to_list. Qed.

(** What a host of the new snapshot adds to the tally. *)
Lemma compare_host_merge old t e :
  compare_host old t e = tally_merge t (compare_host old tally0 e).
Proof.
  destruct e as [ip newPorts]. unfold compare_host.
  destruct (DiffPorts _ _) as [added removed].
  destruct (0 <? length added), (0 <? length removed); cbn [orb];
    apply tally_eq; simpl;
    rewrite ?andb_false_r, ?andb_true_r, ?app_nil_r, <- ?app_assoc; simpl;
    done || lia.
Qed.

Lemma compare_host_noChanges old ip newPorts :
  noChanges (compare_host old tally0 (ip, newPorts)) = false
  ↔ DiffPorts (default [] (Ports old !! ip)) newPorts ≠ ([], []).
Proof.
  unfold compare_host. destruct (DiffPorts _ _) as [added removed].
  destruct added, removed; simpl; split; congruence.
Qed.

Lemma compare_host_totalAdded old ip newPorts :
  totalAdded (compare_host old tally0 (ip, newPorts))
  = length (fst (DiffPorts (default [] (Ports old !! ip)) newPorts)).
Proof.
  unfold compare_host. destruct (DiffPorts _ _) as [added removed].
  by destruct added, removed.
Qed.

Lemma compare_host_totalRemoved old ip newPorts :
  totalRemoved (compare_host old tally0 (ip, newPorts))
  = length (snd (DiffPorts (default [] (Ports old !! ip)) newPorts)).
Proof.
  unfold compare_host. destruct (DiffPorts _ _) as [added removed].
  by destruct added, removed.
Qed.

Lemma Forall_is_Print_fmap {B} (f : B → string) (l : list B) :
  Forall is_Print ((fun x => Print (f x)) <$> l).
Proof. apply Forall_fmap, Forall_forall. by intros x _. Qed.

Lemma compare_host_prints old e : Forall is_Print (out (compare_host old tally0 e)).
Proof.
  destruct e as [ip newPorts]. unfold compare_host.
  destruct (DiffPorts _ _) as [added removed].
  destruct (0 <? length added), (0 <? length removed); cbn [orb]; simpl;
    repeat first [ apply Forall_nil_2 | apply Forall_cons_2; [exact I|]
                 | apply Forall_app_2
                 | apply (Forall_is_Print_fmap
                            (fun port => "    - " +:+ green +:+ port +:+ reset +:+ nl))
                 | apply (Forall_is_Print_fmap
                            (fun port => "    - " +:+ red +:+ port +:+ reset +:+ nl)) ].
Qed.

Lemma vanished_host_prints new e : Forall is_Print (out (vanished_host new tally0 e)).
Proof.
  destruct e as [ip oldPorts]. unfold vanished_host.
  destruct (Ports new !! ip); [constructor|].
  rewrite vanished_lines_fold. simpl. constructor; [exact I|].
  apply Forall_app_2; [|by repeat constructor].
  apply (Forall_is_Print_fmap (fun port => "  [-] " +:+ red +:+ port +:+ reset +:+ nl)).
Qed.

(** The tally after both loops. *)
Lemma compare_hosts_merge old new t :
  compare_hosts old new t
  = tally_merge t (tally_merge (foldl (compare_host old) tally0 (range (Ports new)))
                   (foldl (vanished_host new) tally0 (range (Ports old)))).
Proof.
  unfold compare_hosts.
  rewrite (foldl_merge (vanished_host new)) by apply vanished_host_merge.
  rewrite (foldl_merge (compare_host old)) by apply compare_host_merge.
  apply merge_assoc.
Qed.

Lemma compare_hosts_prints old new t :
  Forall is_Print (out t) → Forall is_Print (out (compare_hosts old new t)).
Proof.
  intros Ht. rewrite compare_hosts_merge. cbn [tally_merge out].
  repeat apply Forall_app_2; [exact Ht| |].
  - apply foldl_out_prints; [apply compare_host_merge|apply compare_host_prints].
  - apply foldl_out_prints; [apply vanished_host_merge|apply vanished_host_prints].
Qed.

(** [noChanges] is cleared exactly when a host changed or vanished. *)
Lemma compare_hosts_noChanges old new elapsed :
  noChanges (compare_hosts old new (start elapsed)) = false
  ↔ changes_detected old new.
Proof.
  rewrite compare_hosts_merge. cbn [tally_merge noChanges start andb].
  rewrite andb_false_iff.
  rewrite foldl_noChanges_false by apply compare_host_merge.
  rewrite foldl_noChanges_false by apply vanished_host_merge.
  unfold changes_detected, host_changed, host_vanished. split.
  - intros [[[ip newPorts] [Hin Hfalse]]|[[ip oldPorts] [Hin Hfalse]]].
    + left. exists ip, newPorts. split; [by apply elem_of_range|].
      by apply compare_host_noChanges.
    + right. exists ip. apply elem_of_range in Hin. split; [by eexists|].
      destruct (Ports new !! ip) as [ports|] eqn:Hnew; [|done].
      by rewrite vanished_host_present in Hfalse by (by rewrite Hnew).
  - intros [[ip [newPorts [Hin Hdiff]]]|[ip [[oldPorts Hin] Hnone]]].
    + left. exists (ip, newPorts). split; [by apply elem_of_range|].
      by apply compare_host_noChanges.
    + right. exists (ip, oldPorts). split; [by apply elem_of_range|].
      by rewrite vanished_host_absent.
Qed.

End CompareScans.

(** C9. When the timestamp of either snapshot does not parse, the
    comparison prints the error of the first that fails and returns: the
    trace is that one line, so no diff is computed or printed, [SaveScan] is
    not called and the store is left as it was.  [CompareScans] is a total
    function, so there is no crash. *)
Theorem CompareScans_unparsable_time `{TimeLib} `{MapRange} (old new : ScanResult) :
  (∃ err, time_Parse (DateTime old) = inr err)
  ∨ (∃ err, time_Parse (DateTime new) = inr err) →
  ((∃ err, time_Parse (DateTime old) = inr err
           ∧ CompareScans old new
             = [Println ("Error parsing old scan time: " +:+ err)])
   ∨ (∃ err, time_Parse (DateTime new) = inr err
             ∧ CompareScans old new
               = [Println ("Error parsing new scan time: " +:+ err)]))
  ∧ (∀ scan, Save scan ∉ CompareScans old new)
  ∧ (∀ (J : Json) w, disk (run (CompareScans old new) w) = disk w).
Proof.
  intros Hfail.
  assert (∃ line, CompareScans old new = [Println line]
          ∧ ((∃ err, time_Parse (DateTime old) = inr err
                     ∧ line = "Error parsing old scan time: " +:+ err)
             ∨ (∃ err, time_Parse (DateTime new) = inr err
                       ∧ line = "Error parsing new scan time: " +:+ err)))
    as [line [Htrace Hline]].
  { unfold CompareScans.
    destruct (time_Parse (DateTime old)) as [oldTime|err] eqn:Hold.
    - destruct (time_Parse (DateTime new)) as [newTime|err] eqn:Hnew.
      + destruct Hfail as [[err ?]|[err ?]]; discriminate.
      + eexists. split; [reflexivity|]. right. by exists err.
    - eexists. split; [reflexivity|]. left. by exists err. }
  assert (Forall is_Print (CompareScans old new)) as Hprints
    by (rewrite Htrace; by repeat constructor).
  split; [|split].
  - destruct Hline as [[err [Herr ->]]|[err [Herr ->]]]; [left|right];
      by exists err.
  - intros scan. by apply prints_no_Save.
  - intros J w. by apply run_prints_disk.
Qed.

Lemma CompareScans_unparsable_time_witness :
  CompareScans scan_undated scan_tuesday
  = [Println ("Error parsing old scan time: parsing time yesterday: not an RFC 3339 timestamp")]
  ∧ Save scan_tuesday ∉ CompareScans scan_undated scan_tuesday.
Proof.
  destruct (CompareScans_unparsable_time scan_undated scan_tuesday) as [_ [Hsave _]].
  - left. eexists. vm_compute. reflexivity.
  - split; [vm_compute; reflexivity|apply Hsave].
Defined.

(** With both timestamps parsed, the trace is what the loops printed, then
    either the no-change line or the summary and the save. *)
Lemma CompareScans_parsed `{TimeLib} `{MapRange}
    (old new : ScanResult) (oldTime newTime : Time) :
  time_Parse (DateTime old) = inl oldTime →
  time_Parse (DateTime new) = inl newTime →
  CompareScans old new
  = let t := compare_hosts old new (start (time_Sub newTime oldTime)) in
    if noChanges t then out t ++ [Println "No changes detected."]
    else out t ++ [summary (totalAdded t) (totalRemoved t); Save new].
Proof. intros Hold Hnew. unfold CompareScans. by rewrite Hold, Hnew. Qed.

Lemma start_prints elapsed : Forall is_Print (out (start elapsed)).
Proof. by repeat constructor. Qed.

Lemma CompareScans_unchanged `{TimeLib} `{MapRange}
    (old new : ScanResult) (oldTime newTime : Time) :
  time_Parse (DateTime old) = inl oldTime →
  time_Parse (DateTime new) = inl newTime →
  ¬ changes_detected old new →
  Forall is_Print (CompareScans old new)
  ∧ last (CompareScans old new) = Some (Println "No changes detected.").
Proof.
  intros Hold Hnew Hsame.
  rewrite (CompareScans_parsed old new oldTime newTime) by done. cbn zeta.
  pose proof (compare_hosts_noChanges old new (time_Sub newTime oldTime)) as Hflag.
  destruct (noChanges _) eqn:Hno; [|by destruct Hsame; apply Hflag].
  split; [|apply last_snoc].
  apply Forall_app_2; [|by repeat constructor].
  apply compare_hosts_prints, start_prints.
Qed.

Lemma CompareScans_changed `{TimeLib} `{MapRange}
    (old new : ScanResult) (oldTime newTime : Time) :
  time_Parse (DateTime old) = inl oldTime →
  time_Parse (DateTime new) = inl newTime →
  changes_detected old new →
  ∃ prints, Forall is_Print prints ∧ CompareScans old new = prints ++ [Save new].
Proof.
  intros Hold Hnew Hchanged.
  rewrite (CompareScans_parsed old new oldTime newTime) by done. cbn zeta.
  apply (compare_hosts_noChanges old new (time_Sub newTime oldTime)) in Hchanged.
  rewrite Hchanged.
  set (t := compare_hosts old new (start (time_Sub newTime oldTime))).
  exists (out t ++ [summary (totalAdded t) (totalRemoved t)]).
  split; [|by rewrite <- app_assoc].
  apply Forall_app_2; [|by repeat constructor].
  apply compare_hosts_prints, start_prints.
Qed.

(** The effect of the comparison on the store. *)
Lemma CompareScans_disk_unchanged `{TimeLib} `{MapRange} `{Json}
    (old new : ScanResult) (oldTime newTime : Time) w :
  time_Parse (DateTime old) = inl oldTime →
  time_Parse (DateTime new) = inl newTime →
  ¬ changes_detected old new →
  disk (run (CompareScans old new) w) = disk w.
Proof.
  intros Hold Hnew Hsame. apply run_prints_disk.
  by apply (CompareScans_unchanged old new oldTime newTime).
Qed.

Lemma CompareScans_disk_changed `{TimeLib} `{MapRange} `{Json}
    (old new : ScanResult) (oldTime newTime : Time) w :
  time_Parse (DateTime old) = inl oldTime →
  time_Parse (DateTime new) = inl newTime →
  changes_detected old new →
  disk (run (CompareScans old new) w) = snd (SaveScan new (disk w)).
Proof.
  intros Hold Hnew Hchanged.
  destruct (CompareScans_changed old new oldTime newTime Hold Hnew Hchanged)
    as (prints & Hprints & ->).
  rewrite run_app. unfold run at 1. cbn [foldl run_action disk].
  by rewrite run_prints_disk.
Qed.

(** C1, as amended.  When both timestamps parse, [CompareScans] calls
    [SaveScan] on the new snapshot if and only if some host of the new
    snapshot has a non-empty diff or some host of the old snapshot is absent
    from the new one.  In that case the save is its last action and all it
    does to the store; otherwise it only prints, ending with the line
    [No changes detected.], and the store is left as it was. *)
Theorem CompareScans_saves_iff_changed `{TimeLib} `{MapRange}
    (old new : ScanResult) (oldTime newTime : Time) :
  time_Parse (DateTime old) = inl oldTime →
  time_Parse (DateTime new) = inl newTime →
  (Save new ∈ CompareScans old new ↔ changes_detected old new)
  ∧ (changes_detected old new →
     ∃ prints, Forall is_Print prints
       ∧ CompareScans old new = prints ++ [Save new]
       ∧ ∀ (J : Json) w,
           disk (run (CompareScans old new) w) = snd (SaveScan new (disk w)))
  ∧ (¬ changes_detected old new →
     Forall is_Print (CompareScans old new)
     ∧ last (CompareScans old new) = Some (Println "No changes detected.")
     ∧ ∀ (J : Json) w, disk (run (CompareScans old new) w) = disk w).
Proof.
  intros Hold Hnew. split; [|split].
  - split.
    + intros Hin.
      destruct (noChanges (compare_hosts old new (start (time_Sub newTime oldTime))))
        eqn:Hno; [|by apply (compare_hosts_noChanges old new (time_Sub newTime oldTime))].
      rewrite (CompareScans_parsed old new oldTime newTime) in Hin by done.
      cbn zeta in Hin. rewrite Hno in Hin.
      apply prints_no_Save in Hin; [done|].
      apply Forall_app_2; [|by repeat constructor].
      apply compare_hosts_prints, start_prints.
    + intros Hchanged.
      destruct (CompareScans_changed old new oldTime newTime Hold Hnew Hchanged)
        as (prints & _ & ->).
      rewrite elem_of_app. right. left.
  - intros Hchanged.
    destruct (CompareScans_changed old new oldTime newTime Hold Hnew Hchanged)
      as (prints & Hprints & Htrace).
    exists prints. split; [done|]. split; [done|].
    intros J w. by apply (CompareScans_disk_changed old new oldTime newTime).
  - intros Hsame.
    destruct (CompareScans_unchanged old new oldTime newTime Hold Hnew Hsame)
      as [Hprints Hlast].
    split; [done|]. split; [done|].
    intros J w. by apply (CompareScans_disk_unchanged old new oldTime newTime).
Qed.

Lemma CompareScans_saves_iff_changed_witness :
  Save scan_tuesday ∈ CompareScans scan_monday scan_tuesday.
Proof.
  eapply (CompareScans_saves_iff_changed scan_monday scan_tuesday).
  - vm_compute. reflexivity.
  - vm_compute. reflexivity.
  - right. exists "192.168.1.7". split; [eexists|]; vm_compute; reflexivity.
Defined.

(** C1 as stated fails when a timestamp does not parse: a host has changed
    and another has vanished, yet the new snapshot is not saved. *)
Lemma CompareScans_unparsable_time_changed_not_saved :
  host_changed scan_undated scan_tuesday "192.168.1.1"
  ∧ host_vanished scan_undated scan_tuesday "192.168.1.7"
  ∧ changes_detected scan_undated scan_tuesday
  ∧ (Save scan_tuesday ∉ CompareScans scan_undated scan_tuesday)
  ∧ ¬ (Save scan_tuesday ∈ CompareScans scan_undated scan_tuesday
       ↔ changes_detected scan_undated scan_tuesday).
Proof.
  assert (host_vanished scan_undated scan_tuesday "192.168.1.7") as Hvanished
    by (split; [eexists|]; vm_compute; reflexivity).
  assert (host_changed scan_undated scan_tuesday "192.168.1.1") as Hchanged.
  { eexists. split; [vm_compute; reflexivity|]. vm_compute. discriminate. }
  assert (Save scan_tuesday ∉ CompareScans scan_undated scan_tuesday) as Hsave.
  { apply prints_no_Save. vm_compute. by repeat constructor. }
  assert (changes_detected scan_undated scan_tuesday) as Hch
    by (right; by exists "192.168.1.7").
  repeat split; try done.
  intros [_ Hiff]. by apply Hsave, Hiff.
Qed.

Section Vanished.
Context `{MapRange}.

Lemma compare_host_without old ip t e :
  e.1 ≠ ip → compare_host (without ip old) t e = compare_host old t e.
Proof.
  destruct e as [ip' newPorts]. simpl. intros Hne.
  unfold compare_host, without. cbn [Ports]. by rewrite lookup_delete_ne.
Qed.

(** A host that the new snapshot lacks plays no part in the first loop. *)
Lemma first_loop_without old new ip t :
  Ports new !! ip = None →
  foldl (compare_host (without ip old)) t (range (Ports new))
  = foldl (compare_host old) t (range (Ports new)).
Proof.
  intros Hnone. apply foldl_ext_in. intros t' [ip' newPorts] Hin.
  apply compare_host_without. simpl. intros ->.
  apply elem_of_range in Hin. congruence.
Qed.

Lemma sum_range_delete {V} (f : string * V → nat) (m : gmap string V) ip v :
  m !! ip = Some v →
  sum_list_with f (range m) = f (ip, v) + sum_list_with f (range (delete ip m)).
Proof.
  intros Hin. rewrite !range_perm.
  by rewrite <- (map_to_list_delete m ip v Hin).
Qed.

Lemma vanished_host_totalAdded new e :
  totalAdded (vanished_host new tally0 e) = 0.
Proof.
  destruct e as [ip oldPorts]. unfold vanished_host.
  destruct (Ports new !! ip); [reflexivity|].
  by rewrite vanished_lines_fold.
Qed.

Lemma sum_list_with_zero {A} (f : A → nat) l :
  (∀ x, f x = 0) → sum_list_with f l = 0.
Proof. intros Hf. induction l as [|x l IH]; simpl; [done|]. by rewrite Hf, IH. Qed.

Lemma second_loop_totalAdded new (l : list (string * list string)) :
  totalAdded (foldl (vanished_host new) tally0 l) = 0.
Proof.
  rewrite foldl_totalAdded by apply vanished_host_merge.
  apply sum_list_with_zero, vanished_host_totalAdded.
Qed.

(** The tallies with and without a vanished host. *)
Lemma compare_hosts_without old new ip oldPorts t :
  Ports old !! ip = Some oldPorts →
  Ports new !! ip = None →
  totalRemoved (compare_hosts old new t)
  = totalRemoved (compare_hosts (without ip old) new t) + length oldPorts
  ∧ totalAdded (compare_hosts old new t)
    = totalAdded (compare_hosts (without ip old) new t).
Proof.
  intros Hold Hnew. rewrite !compare_hosts_merge. cbn [tally_merge totalRemoved totalAdded].
  rewrite first_loop_without by done. cbn [without Ports].
  rewrite !second_loop_totalAdded.
  rewrite !(foldl_totalRemoved (vanished_host new)) by apply vanished_host_merge.
  rewrite (sum_range_delete _ (Ports old) ip oldPorts Hold).
  rewrite vanished_host_absent by done. cbn [vanished_report totalRemoved].
  split; lia.
Qed.

Lemma compare_hosts_vanished_report old new ip oldPorts t :
  Ports old !! ip = Some oldPorts →
  Ports new !! ip = None →
  ∃ before after,
    out (compare_hosts old new t)
    = before ++ out (vanished_report ip oldPorts) ++ after.
Proof.
  intros Hold Hnew. rewrite compare_hosts_merge. cbn [tally_merge out].
  rewrite (foldl_out (vanished_host new)) by apply vanished_host_merge.
  assert ((ip, oldPorts) ∈ range (Ports old)) as Hin by (by apply elem_of_range).
  apply list_elem_of_split in Hin as [l1 [l2 Hsplit]]. rewrite Hsplit.
  rewrite fmap_app, fmap_cons, concat_app, concat_cons.
  rewrite vanished_host_absent by done.
  exists (out t ++ out (foldl (compare_host old) tally0 (range (Ports new)))
          ++ concat ((fun e => out (vanished_host new tally0 e)) <$> l1)).
  exists (concat ((fun e => out (vanished_host new tally0 e)) <$> l2)).
  by rewrite <- !app_assoc.
Qed.

End Vanished.

(** C6, as amended.  When both timestamps parse, a host of the old
    snapshot that the new one lacks adds each of its old entries to the count
    of removed ports and nothing to the count of added ports (the totals are
    those of the comparison without that host, plus its number of entries on
    the removed side), it is reported with one removed line per entry, and
    the pair is marked as changed: the summary is printed and the new
    snapshot saved. *)
Theorem CompareScans_vanished_host `{TimeLib} `{MapRange}
    (old new : ScanResult) (oldTime newTime : Time) ip oldPorts :
  time_Parse (DateTime old) = inl oldTime →
  time_Parse (DateTime new) = inl newTime →
  Ports old !! ip = Some oldPorts →
  Ports new !! ip = None →
  let t := compare_hosts old new (start (time_Sub newTime oldTime)) in
  let t' := compare_hosts (without ip old) new (start (time_Sub newTime oldTime)) in
  totalRemoved t = totalRemoved t' + length oldPorts
  ∧ totalAdded t = totalAdded t'
  ∧ noChanges t = false
  ∧ (∃ before after, out t = before ++ out (vanished_report ip oldPorts) ++ after)
  ∧ CompareScans old new
    = out t ++ [summary (totalAdded t) (totalRemoved t); Save new].
Proof.
  intros Hold Hnew Hin Hnone t t'.
  assert (noChanges t = false) as Hno.
  { apply compare_hosts_noChanges. right. exists ip. split; [by eexists|done]. }
  destruct (compare_hosts_without old new ip oldPorts
              (start (time_Sub newTime oldTime)) Hin Hnone) as [Hrem Hadd].
  split; [exact Hrem|]. split; [exact Hadd|]. split; [exact Hno|].
  split; [by apply compare_hosts_vanished_report|].
  rewrite (CompareScans_parsed old new oldTime newTime) by done.
  cbn zeta. fold t. by rewrite Hno.
Qed.

Lemma CompareScans_vanished_host_witness :
  CompareScans scan_monday scan_tuesday
  = [ header (25 * GoTime.Hour + 30 * GoTime.Minute);
      Print ("Changes for 192.168.1.1:" +:+ nl);
      Println "  [+] Added Ports:";
      added_line "443/tcp [open] (https)";
      Println "  [-] Removed Ports:";
      removed_line "80/tcp [open] (http)";
      Println "";
      Print ("All ports for 192.168.1.7 removed:" +:+ nl);
      vanished_line "22/tcp [open] (ssh)";
      vanished_line "25/tcp [closed] (smtp)";
      Println "";
      summary 1 3;
      Save scan_tuesday ].
Proof.
  destruct (@CompareScans_vanished_host rfc3339 sorted_range
              scan_monday scan_tuesday
              1714384800000000000%Z 1714476600000000000%Z "192.168.1.7"
              ["22/tcp [open] (ssh)"; "25/tcp [closed] (smtp)"])
    as (_ & _ & _ & _ & ->); vm_compute; reflexivity.
Defined.

(** C6 as stated fails when a timestamp does not parse: the host
    192.168.1.7 is in the old snapshot and not in the new one, but the
    comparison stops at the timestamp, so none of its entries is counted or
    reported as removed and the pair is not marked as changed. *)
Lemma CompareScans_unparsable_time_vanished_not_counted :
  Ports scan_undated !! "192.168.1.7"
    = Some ["22/tcp [open] (ssh)"; "25/tcp [closed] (smtp)"]
  ∧ Ports scan_tuesday !! "192.168.1.7" = None
  ∧ CompareScans scan_undated scan_tuesday
    = [Println "Error parsing old scan time: parsing time yesterday: not an RFC 3339 timestamp"]
  ∧ (vanished_line "22/tcp [open] (ssh)" ∉ CompareScans scan_undated scan_tuesday)
  ∧ (∀ added removed,
       summary added removed ∉ CompareScans scan_undated scan_tuesday).
Proof.
  assert (CompareScans scan_undated scan_tuesday
    = [Println "Error parsing old scan time: parsing time yesterday: not an RFC 3339 timestamp"])
    as Htrace by (vm_compute; reflexivity).
  split; [vm_compute; reflexivity|]. split; [vm_compute; reflexivity|].
  split; [exact Htrace|]. rewrite Htrace. split.
  - intros Hin%list_elem_of_singleton. vm_compute in Hin. discriminate.
  - intros added removed Hin%list_elem_of_singleton.
    unfold summary, Println in Hin. injection Hin as Hin.
    cbn [String.append] in Hin. discriminate.
Qed.

(** ** [RunScan] *)

Lemma Fields_empty : Fields "" = [].
Proof. reflexivity. Qed.

(** C2 (the code departs from the claim).  For a command line whose fields
    are [sudo], a second token and any further ones, and a non-empty target,
    [RunScan] builds a command whose program is the second token and whose
    argument vector is that token twice, then the remaining fields and the
    target.  It never runs [sudo], and unless the second token is itself
    [sudo] this is not the original token sequence with the target added. *)
Theorem RunScan_command_sudo (command target real : string) (rest : list string) :
  Fields (TrimSpace command) = "sudo" :: real :: rest →
  TrimSpace target ≠ "" →
  RunScan_command command target
  = Ok {| Path := real; Args := real :: real :: rest ++ [TrimSpace target] |}
  ∧ (real ≠ "sudo" →
     RunScan_command command target
     ≠ Ok (original_command ("sudo" :: real :: rest) (TrimSpace target))).
Proof.
  intros Hfields Htarget.
  assert (RunScan_command command target
          = Ok {| Path := real; Args := real :: real :: rest ++ [TrimSpace target] |})
    as Hcmd.
  { unfold RunScan_command.
    rewrite bool_decide_eq_false_2
      by (intros Hempty; rewrite Hempty, Fields_empty in Hfields; discriminate).
    rewrite bool_decide_eq_false_2 by assumption.
    rewrite Hfields. reflexivity. }
  split; [exact Hcmd|].
  intros Hreal. rewrite Hcmd. intros Heq. injection Heq as Hpath _. done.
Qed.

Lemma RunScan_command_sudo_witness :
  RunScan_command "sudo nmap -p- -T4" "192.168.1.1"
  = Ok {| Path := "nmap";
          Args := ["nmap"; "nmap"; "-p-"; "-T4"; "192.168.1.1"] |}
  ∧ RunScan_command "sudo nmap -p- -T4" "192.168.1.1"
    ≠ Ok {| Path := "sudo";
            Args := ["sudo"; "nmap"; "-p-"; "-T4"; "192.168.1.1"] |}.
Proof.
  destruct (RunScan_command_sudo "sudo nmap -p- -T4" "192.168.1.1" "nmap"
              ["-p-"; "-T4"]) as [Hcmd Hne].
  - vm_compute. reflexivity.
  - vm_compute. discriminate.
  - split; [exact Hcmd|]. apply Hne. discriminate.
Defined.

(** Without the prefix the command is the original one. *)
Example RunScan_command_plain :
  RunScan_command "nmap -p- -T4" "192.168.1.1"
  = Ok (original_command ["nmap"; "-p-"; "-T4"] "192.168.1.1").
Proof. vm_compute. reflexivity. Qed.

(** ** [formatElapsedTime] *)

(** C3 (the code departs from the claim).  The three renderings named in
    the claim are what the code prints.  But [d.Hours()] is a [float64]: at
    4097 hours less one nanosecond, a valid [int64] duration of 4096 whole
    hours, the sum [4096 + 0.99999999999972...] rounds to [4097.0], and the
    code prints 17 hours where the whole-hours remainder is 16.  Where the
    code does render as the claim says is settled in
    [Float64.formatElapsedTime_exact] below. *)
Theorem formatElapsedTime_float_rounding :
  formatElapsedTime (90 * GoTime.Minute) = "1 hours, 30 minutes"
  ∧ formatElapsedTime (25 * GoTime.Hour) = "1 days, 1 hours"
  ∧ formatElapsedTime (45 * GoTime.Minute) = "45 minutes"
  ∧ (let d := (4097 * GoTime.Hour - 1)%Z in
     (GoTime.MinInt64 ≤ d ≤ GoTime.MaxInt64)%Z
     ∧ Z.quot d GoTime.Hour = 4096%Z
     ∧ GoTime.Hours d = GoFloat.of_int 4097
     ∧ elapsed_as_claimed d = "170 days, 16 hours"
     ∧ formatElapsedTime d = "170 days, 17 hours").
Proof.
  repeat split; try (vm_compute; reflexivity); vm_compute; discriminate.
Qed.

(** The same duration reached from two timestamps: the old one carries a
    fraction of a second. *)
Example CompareScans_header_rounding :
  let old := {| DateTime := "2024-01-01T00:00:00.000000001Z"; Ports := ∅ |} in
  let new := {| DateTime := "2024-06-19T17:00:00Z"; Ports := ∅ |} in
  head (CompareScans old new)
  = Some (Print (nl +:+ "--- Checking Previous Scan Data (Last scan was "
                 +:+ "170 days, 17 hours ago) ---" +:+ nl +:+ nl)).
Proof. vm_compute. reflexivity. Qed.

(** ** [float64] arithmetic: where the detour through [Duration.Hours] is exact

    The Standard Library gives the operations of [SpecFloat] but no theory
    of them; what follows proves from their definitions that rounding to
    nearest moves a value by at most half a unit in the last place, and
    from that that [int(d.Hours())] and [int(d.Minutes())] are the whole
    hours and minutes of [d] on [exact_domain]. *)

Module Float64.
Import GoFloat.
Local Open Scope Z_scope.

Lemma shr_1_halves m r s :
  0 <= m ->
  exists q, 0 <= q /\ shr_1 (Build_shr_record m r s)
            = Build_shr_record q (Z.odd m) (r || s)
            /\ m = 2 * q + (if Z.odd m then 1 else 0).
Proof.
  intros Hm. destruct m as [|p|p]; [| |lia].
  - exists 0. repeat split; lia.
  - destruct p as [p|p|].
    + exists (Zpos p). repeat split; try lia.
    + exists (Zpos p). repeat split; try lia.
    + exists 0. repeat split; lia.
Qed.

Lemma shr_1_stands_for a b mrs :
  0 < b -> 0 <= shr_m mrs -> stands_for a b mrs ->
  stands_for a (2 * b) (shr_1 mrs) /\ 0 <= shr_m (shr_1 mrs).
Proof.
  destruct mrs as [m r s]. cbn [shr_m]. intros Hb Hm Hrep.
  destruct (shr_1_halves m r s Hm) as (q & Hq & -> & Hmq).
  split; [|exact Hq].
  unfold stands_for in *. cbn [shr_m shr_r shr_s] in *.
  destruct Hrep as [Hrange Hloc].
  remember (q * b) as qb eqn:Hqb.
  assert (m * b = 2 * qb + (if Z.odd m then b else 0)) as Hmb
    by (rewrite Hmq at 1; destruct (Z.odd m); lia).
  replace ((m + 1) * b) with (m * b + b) in Hrange by ring.
  replace ((2 * m + 1) * b) with (2 * (m * b) + b) in Hloc by ring.
  rewrite Hmb in *.
  replace (q * (2 * b)) with (2 * qb) by lia.
  replace ((q + 1) * (2 * b)) with (2 * qb + 2 * b) by lia.
  replace ((2 * q + 1) * (2 * b)) with (4 * qb + 2 * b) by lia.
  destruct (Z.odd m), r, s; cbn [orb]; lia.
Qed.

Lemma pow2_pos k : 0 <= k -> 0 < 2 ^ k.
Proof. intros Hk. apply Z.pow_pos_nonneg; lia. Qed.

Lemma pow2_xO p : 2 ^ Zpos p~0 = 2 ^ Zpos p * 2 ^ Zpos p.
Proof.
  rewrite (Pos2Z.inj_xO p). replace (2 * Zpos p) with (Zpos p + Zpos p) by lia.
  apply Z.pow_add_r; lia.
Qed.

Lemma pow2_xI p : 2 ^ Zpos p~1 = 2 ^ Zpos p * (2 ^ Zpos p * 2).
Proof.
  rewrite (Pos2Z.inj_xI p).
  replace (2 * Zpos p + 1) with (Zpos p + (Zpos p + 1)) by lia.
  rewrite !Z.pow_add_r by lia. reflexivity.
Qed.

Lemma iter_pos_shr_1_stands_for p : forall a b mrs,
  0 < b -> 0 <= shr_m mrs -> stands_for a b mrs ->
  stands_for a (2 ^ Zpos p * b) (SpecFloat.iter_pos shr_1 p mrs)
  /\ 0 <= shr_m (SpecFloat.iter_pos shr_1 p mrs).
Proof.
  induction p as [p IH|p IH|]; intros a b mrs Hb Hm Hrep; cbn [SpecFloat.iter_pos].
  - pose proof (pow2_pos (Zpos p) ltac:(lia)) as Hpow.
    destruct (shr_1_stands_for a b mrs Hb Hm Hrep) as [H1 Hm1].
    destruct (IH a (2 * b) _ ltac:(lia) Hm1 H1) as [H2 Hm2].
    assert (0 < 2 ^ Zpos p * (2 * b)) as Hb2 by (apply Z.mul_pos_pos; lia).
    destruct (IH a (2 ^ Zpos p * (2 * b)) _ Hb2 Hm2 H2) as [H3 Hm3].
    split; [|exact Hm3].
    replace (2 ^ Zpos p~1 * b) with (2 ^ Zpos p * (2 ^ Zpos p * (2 * b)));
      [exact H3|].
    rewrite pow2_xI. ring.
  - pose proof (pow2_pos (Zpos p) ltac:(lia)) as Hpow.
    destruct (IH a b _ Hb Hm Hrep) as [H2 Hm2].
    assert (0 < 2 ^ Zpos p * b) as Hb2 by (apply Z.mul_pos_pos; lia).
    destruct (IH a (2 ^ Zpos p * b) _ Hb2 Hm2 H2) as [H3 Hm3].
    split; [|exact Hm3].
    replace (2 ^ Zpos p~0 * b) with (2 ^ Zpos p * (2 ^ Zpos p * b)); [exact H3|].
    rewrite pow2_xO. ring.
  - change (2 ^ 1) with 2. apply shr_1_stands_for; assumption.
Qed.

(** Rounding to nearest, ties to even, moves by at most one half. *)
Lemma round_nearest_even_stands_for a b mrs :
  0 < b -> stands_for a b mrs ->
  let m := round_nearest_even (shr_m mrs) (loc_of_shr_record mrs) in
  2 * (m * b) <= 2 * a + b /\ 2 * a <= 2 * (m * b) + b
  /\ shr_m mrs <= m <= shr_m mrs + 1.
Proof.
  destruct mrs as [q r s]. unfold stands_for. cbn [shr_m shr_r shr_s].
  intros Hb [Hrange Hloc].
  replace ((q + 1) * b) with (q * b + b) in Hrange by ring.
  replace ((2 * q + 1) * b) with (2 * (q * b) + b) in Hloc by ring.
  remember (q * b) as qb.
  destruct r, s; cbn [loc_of_shr_record round_nearest_even].
  - replace ((q + 1) * b) with (qb + b) by (subst qb; ring). lia.
  - destruct (Z.even q).
    + rewrite <- Heqqb. lia.
    + replace ((q + 1) * b) with (qb + b) by (subst qb; ring). lia.
  - rewrite <- Heqqb. lia.
  - rewrite <- Heqqb. lia.
Qed.

(** Number of binary digits. *)
Lemma digits2_pos_size p : digits2_pos p = Pos.size p.
Proof. induction p as [p IH|p IH|]; cbn; congruence. Qed.

Lemma digits2_pos_bounds p :
  2 ^ (Zpos (digits2_pos p) - 1) <= Zpos p < 2 ^ Zpos (digits2_pos p).
Proof.
  rewrite digits2_pos_size. split.
  - pose proof (Pos.size_le p) as Hle.
    apply Pos2Z.pos_le_pos in Hle. rewrite Pos2Z.inj_pow, (Pos2Z.inj_xO p) in Hle.
    replace (Zpos (Pos.size p)) with (1 + (Zpos (Pos.size p) - 1)) in Hle by lia.
    rewrite Z.pow_add_r in Hle by lia. change (2 ^ 1) with 2 in Hle. lia.
  - pose proof (Pos.size_gt p) as Hgt.
    apply Pos2Z.pos_lt_pos in Hgt. by rewrite Pos2Z.inj_pow in Hgt.
Qed.

Lemma digits2_pos_le p k : Zpos p < 2 ^ k -> 0 <= k -> Zpos (digits2_pos p) <= k.
Proof.
  intros Hp Hk. destruct (digits2_pos_bounds p) as [Hlow _].
  destruct (Z.le_gt_cases (Zpos (digits2_pos p)) k) as [|Hgt]; [assumption|].
  assert (2 ^ k <= 2 ^ (Zpos (digits2_pos p) - 1))
    by (apply Z.pow_le_mono_r; lia).
  lia.
Qed.

Lemma digits2_pos_ge p k : 2 ^ (k - 1) <= Zpos p -> k <= Zpos (digits2_pos p).
Proof.
  intros Hp. destruct (digits2_pos_bounds p) as [_ Hup].
  destruct (Z.le_gt_cases k (Zpos (digits2_pos p))) as [|Hgt]; [assumption|].
  assert (2 ^ Zpos (digits2_pos p) <= 2 ^ (k - 1))
    by (apply Z.pow_le_mono_r; lia).
  lia.
Qed.

(** [shr]: shifting right by [n] places divides by [2 ^ n]. *)
Lemma shr_stands_for a b mrs e n :
  0 < b -> 0 <= shr_m mrs -> stands_for a b mrs ->
  snd (shr mrs e n) = e + Z.max 0 n
  /\ stands_for a (2 ^ Z.max 0 n * b) (fst (shr mrs e n))
  /\ 0 <= shr_m (fst (shr mrs e n)).
Proof.
  intros Hb Hm Hrep. destruct n as [|p|p]; cbn [shr fst snd].
  - rewrite Z.max_id. change (2 ^ 0) with 1. rewrite Z.mul_1_l.
    split; [lia|]. split; assumption.
  - rewrite Z.max_r by lia. split; [reflexivity|].
    by apply iter_pos_shr_1_stands_for.
  - rewrite Z.max_l by lia. change (2 ^ 0) with 1. rewrite Z.mul_1_l.
    split; [lia|]. split; assumption.
Qed.

Lemma fexp_binary64 e : fexp 53 1024 e = Z.max (e - 53) (-1074).
Proof. reflexivity. Qed.

Lemma shr_record_of_loc_m m l : shr_m (shr_record_of_loc m l) = m.
Proof. by destruct l as [|[]]. Qed.

Lemma shr_neg mrs e n : n <= 0 -> shr mrs e n = (mrs, e).
Proof. intros Hn. destruct n; [reflexivity|lia|reflexivity]. Qed.

Lemma mul_lt_cancel_r x y b : 0 < b -> x * b < y * b -> x < y.
Proof. intros Hb Hlt. by apply Z.mul_lt_mono_pos_r in Hlt. Qed.

(** [binary_round_aux] on a positive mantissa in the normal range: the
    result is finite, its exponent does not go down, and it lies within
    half a unit of the last kept place of the exact value [a / b]. *)
Lemma binary_round_aux_nearest p ex lx a b :
  0 < b ->
  stands_for a b (shr_record_of_loc (Zpos p) lx) ->
  -1074 <= ex <= 900 ->
  Zpos (digits2_pos p) + ex <= 1000 ->
  let n := Z.max 0 (Zpos (digits2_pos p) - 53) in
  exists m e,
    binary_round_aux 53 1024 false (Zpos p) ex lx = S754_finite false m e
    /\ ex + n <= e
    /\ 2 * (Zpos m * 2 ^ (e - ex) * b) <= 2 * a + 2 ^ n * b
    /\ 2 * a <= 2 * (Zpos m * 2 ^ (e - ex) * b) + 2 ^ n * b.
Proof.
  intros Hb Hrep Hex Hd n.
  set (d := Zpos (digits2_pos p)) in *.
  destruct (digits2_pos_bounds p) as [Hplow Hpup]. fold d in Hplow, Hpup.
  assert (0 < d) as Hdpos by (subst d; lia).
  assert (0 <= shr_m (shr_record_of_loc (Zpos p) lx)) as Hm0
    by (rewrite shr_record_of_loc_m; lia).
  assert (0 < 2 ^ n) as Hpown by (apply pow2_pos; lia).
  assert (0 < 2 ^ n * b) as HB by (by apply Z.mul_pos_pos).
  (* first shift *)
  unfold binary_round_aux, shr_fexp. cbn [Zdigits2]. fold d.
  rewrite fexp_binary64.
  destruct (shr_stands_for a b _ ex (Z.max (d + ex - 53) (-1074) - ex) Hb Hm0 Hrep)
    as (He1 & Hrep1 & Hm1).
  replace (Z.max 0 (Z.max (d + ex - 53) (-1074) - ex)) with n in * by lia.
  destruct (shr _ ex _) as [mrs1 e1]. cbn [fst snd] in *.
  (* rounding *)
  destruct (round_nearest_even_stands_for a (2 ^ n * b) mrs1 HB Hrep1)
    as (Hup & Hlow & Hq).
  set (m1 := round_nearest_even (shr_m mrs1) (loc_of_shr_record mrs1)) in *.
  destruct Hrep1 as [[Hq1 Hq2] _]. destruct Hrep as [[Hp1 Hp2] _].
  rewrite shr_record_of_loc_m in Hp1, Hp2.
  assert (1 <= shr_m mrs1 < 2 ^ 53) as Hqrange.
  { destruct (Z.le_gt_cases d 53) as [Hsmall|Hbig].
    - replace n with 0 in * by lia. change (2 ^ 0) with 1 in *.
      rewrite Z.mul_1_l in *.
      assert (shr_m mrs1 < Zpos p + 1) by (apply (mul_lt_cancel_r _ _ b); lia).
      assert (Zpos p < shr_m mrs1 + 1) by (apply (mul_lt_cancel_r _ _ b); lia).
      assert (2 ^ d <= 2 ^ 53) by (apply Z.pow_le_mono_r; lia). lia.
    - replace n with (d - 53) in * by lia.
      assert (2 ^ d = 2 ^ 53 * 2 ^ (d - 53)) as Hsplit
        by (rewrite <- Z.pow_add_r by lia; f_equal; lia).
      assert (2 ^ (d - 1) = 2 ^ 52 * 2 ^ (d - 53)) as Hsplit'
        by (rewrite <- Z.pow_add_r by lia; f_equal; lia).
      assert (shr_m mrs1 * (2 ^ (d - 53) * b) < 2 ^ 53 * (2 ^ (d - 53) * b)).
      { apply Z.le_lt_trans with a; [assumption|].
        apply Z.lt_le_trans with ((Zpos p + 1) * b); [assumption|].
        rewrite Z.mul_assoc, <- Hsplit. apply Z.mul_le_mono_nonneg_r; lia. }
      assert (2 ^ 52 * (2 ^ (d - 53) * b) < (shr_m mrs1 + 1) * (2 ^ (d - 53) * b)).
      { apply Z.le_lt_trans with a; [|assumption].
        apply Z.le_trans with (Zpos p * b); [|assumption].
        rewrite Z.mul_assoc, <- Hsplit'. apply Z.mul_le_mono_nonneg_r; lia. }
      assert (shr_m mrs1 < 2 ^ 53) by (by eapply mul_lt_cancel_r).
      assert (2 ^ 52 < shr_m mrs1 + 1) by (by eapply mul_lt_cancel_r).
      change (2 ^ 52) with 4503599627370496 in *. lia. }
  assert (1 <= m1 <= 2 ^ 53) as Hm1range by lia.
  destruct m1 as [|p1|p1] eqn:Hm1eq; [lia| |lia].
  (* second shift: only after a carry *)
  cbn [Zdigits2]. rewrite fexp_binary64.
  destruct (Z.eq_dec (Zpos p1) (2 ^ 53)) as [Hcarry|Hnocarry].
  - change (2 ^ 53) with (Zpos 9007199254740992) in Hcarry.
    injection Hcarry as ->.
    replace (Z.max (Zpos (digits2_pos 9007199254740992) + e1 - 53) (-1074) - e1)
      with 1 by (change (Zpos (digits2_pos 9007199254740992)) with 54; lia).
    cbn [shr shr_record_of_loc SpecFloat.iter_pos shr_1 fst snd shr_m].
    replace (e1 + 1 <=? 1024 - 53) with true by (symmetry; apply Z.leb_le; lia).
    exists 4503599627370496%positive, (e1 + 1).
    split; [reflexivity|]. split; [lia|].
    replace (e1 + 1 - ex) with (1 + n) by lia.
    rewrite Z.pow_add_r by lia. change (2 ^ 1) with 2.
    replace (Zpos 4503599627370496 * (2 * 2 ^ n) * b)
      with (Zpos 9007199254740992 * (2 ^ n * b)) by ring.
    lia.
  - assert (Zpos (digits2_pos p1) <= 53)
      by (apply digits2_pos_le; lia).
    rewrite shr_neg by lia. cbn [shr_record_of_loc shr_m].
    replace (e1 <=? 1024 - 53) with true by (symmetry; apply Z.leb_le; lia).
    exists p1, e1. split; [reflexivity|]. split; [lia|].
    replace (e1 - ex) with n by lia.
    rewrite <- Z.mul_assoc. lia.
Qed.

(** Shifting a mantissa to the left. *)
Lemma iter_xO_value p k : Zpos (Pos.iter xO p k) = Zpos p * 2 ^ Zpos k.
Proof.
  induction k as [|k IH] using Pos.peano_ind.
  - cbn [Pos.iter]. change (2 ^ 1) with 2. lia.
  - rewrite Pos.iter_succ, Pos2Z.inj_xO, IH, Pos2Z.inj_succ, Z.pow_succ_r by lia.
    ring.
Qed.

Lemma shl_align_value mx ex ez :
  ez <= ex ->
  Zpos (fst (shl_align mx ex ez)) = Zpos mx * 2 ^ (ex - ez)
  /\ snd (shl_align mx ex ez) = ez.
Proof.
  intros Hle. unfold shl_align.
  destruct (ez - ex) as [|k|k] eqn:Hdiff; cbn [fst snd].
  - replace (ex - ez) with 0 by lia. change (2 ^ 0) with 1. lia.
  - lia.
  - rewrite iter_xO_value. replace (ex - ez) with (Zpos k) by lia. done.
Qed.

Lemma shl_align_keep mx ex ez : ex <= ez -> shl_align mx ex ez = (mx, ex).
Proof.
  intros Hle. unfold shl_align. destruct (ez - ex) eqn:Hdiff; [done|done|lia].
Qed.

Lemma digits2_pos_scaled p q k :
  0 <= k -> Zpos q = Zpos p * 2 ^ k ->
  Zpos (digits2_pos q) = Zpos (digits2_pos p) + k.
Proof.
  intros Hk Hq. destruct (digits2_pos_bounds p) as [Hlow Hup].
  assert (0 < 2 ^ k) by (by apply pow2_pos).
  apply Z.le_antisymm.
  - apply digits2_pos_le; [|lia]. rewrite Hq, Z.pow_add_r by lia.
    apply Z.mul_lt_mono_pos_r; lia.
  - apply digits2_pos_ge. rewrite Hq.
    replace (Zpos (digits2_pos p) + k - 1) with (Zpos (digits2_pos p) - 1 + k) by lia.
    rewrite Z.pow_add_r by lia. apply Z.mul_le_mono_nonneg_r; lia.
Qed.

(** A mantissa that already fits is left alone. *)
Lemma binary_round_aux_exact p ex :
  Zpos (digits2_pos p) <= 53 -> -1074 <= ex <= 900 ->
  binary_round_aux 53 1024 false (Zpos p) ex loc_Exact = S754_finite false p ex.
Proof.
  intros Hd Hex. unfold binary_round_aux, shr_fexp. cbn [Zdigits2].
  rewrite fexp_binary64, shr_neg by lia.
  cbn [shr_record_of_loc shr_m loc_of_shr_record round_nearest_even Zdigits2].
  rewrite fexp_binary64, shr_neg by lia. cbn [shr_record_of_loc shr_m].
  by replace (ex <=? 1024 - 53) with true by (symmetry; apply Z.leb_le; lia).
Qed.

(** [float64] of a positive integer below [2 ^ 53] is that integer, with a
    mantissa of 53 digits. *)
Lemma of_int_pos h :
  0 < h < 2 ^ 53 ->
  exists m e, of_int h = S754_finite false m e
    /\ Zpos (digits2_pos m) = 53
    /\ -52 <= e <= 0
    /\ Zpos m = h * 2 ^ (- e)
    /\ 2 ^ (52 + e) <= h < 2 ^ (53 + e).
Proof.
  intros Hh. destruct h as [|p|p]; [lia| |lia].
  unfold of_int, binary_normalize, binary_round.
  set (d := Zpos (digits2_pos p)).
  destruct (digits2_pos_bounds p) as [Hlow Hup]. fold d in Hlow, Hup.
  assert (0 < d) by (subst d; lia).
  assert (d <= 53) by (apply digits2_pos_le; lia).
  rewrite fexp_binary64. replace (Z.max (d + 0 - 53) (-1074)) with (d - 53) by lia.
  destruct (shl_align_value p 0 (d - 53) ltac:(lia)) as [Hval Hexp].
  destruct (shl_align p 0 (d - 53)) as [mz ez]. cbn [fst snd] in *. subst ez.
  replace (0 - (d - 53)) with (53 - d) in Hval by lia.
  assert (Zpos (digits2_pos mz) = 53) as Hdz
    by (rewrite (digits2_pos_scaled p mz (53 - d)) by (lia || done); fold d; lia).
  rewrite binary_round_aux_exact by lia.
  exists mz, (d - 53). split; [done|]. split; [done|]. split; [lia|].
  replace (- (d - 53)) with (53 - d) by lia. split; [done|].
  replace (52 + (d - 53)) with (d - 1) by lia.
  replace (53 + (d - 53)) with d by lia. done.
Qed.

(** The location of a remainder [r] of a division by [m2]. *)
Lemma new_location_stands_for m2 q r :
  0 < m2 -> 0 <= r < m2 ->
  stands_for (q * m2 + r) m2 (shr_record_of_loc q (new_location m2 r)).
Proof.
  intros Hm2 Hr. unfold stands_for. rewrite shr_record_of_loc_m.
  replace ((q + 1) * m2) with (q * m2 + m2) by ring.
  replace ((2 * q + 1) * m2) with (2 * (q * m2) + m2) by ring.
  remember (q * m2) as qm.
  split; [lia|].
  unfold new_location, new_location_even, new_location_odd.
  destruct (Z.even m2) eqn:Heven.
  - destruct (Z.eqb_spec r 0) as [->|Hr0]; [cbn; lia|].
    destruct (Z.compare_spec (2 * r) m2); cbn; lia.
  - destruct (Z.eqb_spec r 0) as [->|Hr0]; [cbn; lia|].
    assert (2 * r <> m2) as Hodd.
    { intros <-. rewrite Z.even_mul in Heven. discriminate. }
    destruct (Z.compare_spec (2 * r + 1) m2); cbn; lia.
Qed.

(** The quotient of two positive numbers with full mantissas is within one
    unit of the exponent [e1 - e2 - 53]. *)
Lemma SFdiv_nearest m1 e1 m2 e2 :
  Zpos (digits2_pos m1) = 53 -> Zpos (digits2_pos m2) = 53 ->
  -1000 <= e1 - e2 <= 900 ->
  let E := e1 - e2 - 53 in
  exists m e,
    SFdiv 53 1024 (S754_finite false m1 e1) (S754_finite false m2 e2)
    = S754_finite false m e
    /\ E <= e
    /\ 2 * (Zpos m * 2 ^ (e - E) * Zpos m2) <= 2 * (Zpos m1 * 2 ^ 53) + 2 * Zpos m2
    /\ 2 * (Zpos m1 * 2 ^ 53) <= 2 * (Zpos m * 2 ^ (e - E) * Zpos m2) + 2 * Zpos m2.
Proof.
  intros Hd1 Hd2 He E.
  destruct (digits2_pos_bounds m1) as [Hm1low Hm1up].
  destruct (digits2_pos_bounds m2) as [Hm2low Hm2up].
  rewrite Hd1 in Hm1low, Hm1up. rewrite Hd2 in Hm2low, Hm2up.
  change (2 ^ (53 - 1)) with 4503599627370496 in *.
  change (2 ^ 53) with 9007199254740992 in *.
  unfold SFdiv, SFdiv_core_binary. cbn [xorb Zdigits2].
  rewrite Hd1, Hd2, fexp_binary64.
  replace (Z.min (Z.max (53 + e1 - (53 + e2) - 53) (-1074)) (e1 - e2))
    with E by (subst E; lia).
  replace (e1 - e2 - E) with 53 by (subst E; lia).
  rewrite Z.shiftl_mul_pow2 by lia.
  change (2 ^ 53) with 9007199254740992.
  pose proof (Z_div_mod (Zpos m1 * 9007199254740992) (Zpos m2) ltac:(lia)) as Hdiv.
  destruct (Z.div_eucl _ _) as [q r]. destruct Hdiv as [Hqr Hr].
  assert (1 <= q < 2 ^ 54) as Hq.
  { change (2 ^ 54) with 18014398509481984. split.
    - assert (0 < q); [|lia]. apply Z.nle_gt. intros Hq0.
      assert (Zpos m2 * q <= 0) by (apply Z.mul_nonneg_nonpos; lia). lia.
    - apply Z.nle_gt. intros Hq0.
      assert (4503599627370496 * 18014398509481984 <= Zpos m2 * q)
        by (apply Z.mul_le_mono_nonneg; lia).
      lia. }
  destruct q as [|pq|pq]; [lia| |lia].
  assert (Zpos (digits2_pos pq) <= 54) as Hdq by (apply digits2_pos_le; lia).
  destruct (binary_round_aux_nearest pq E (new_location (Zpos m2) r)
              (Zpos m1 * 9007199254740992) (Zpos m2)) as (m & e & Hres & Hexp & Hup & Hlow).
  - lia.
  - rewrite Hqr, (Z.mul_comm (Zpos m2)). apply new_location_stands_for; lia.
  - subst E. lia.
  - subst E. lia.
  - exists m, e. split; [exact Hres|]. split; [lia|].
    assert (0 < 2 ^ Z.max 0 (Zpos (digits2_pos pq) - 53) <= 2) as Hpow.
    { split; [apply pow2_pos; lia|].
      change 2 with (2 ^ 1) at 2. apply Z.pow_le_mono_r; lia. }
    assert (2 ^ Z.max 0 (Zpos (digits2_pos pq) - 53) * Zpos m2 <= 2 * Zpos m2)
      by (apply Z.mul_le_mono_nonneg_r; lia).
    lia.
Qed.

(** [binary_round] of a positive integer [p] at exponent [ex]: with [E] the
    exponent after alignment, the result is within half of [2 ^ n] units of
    [2 ^ E], where [n] counts the digits beyond the 53 that are kept. *)
Lemma binary_round_nearest p ex :
  -1074 <= ex <= 900 ->
  Zpos (digits2_pos p) + ex <= 1000 ->
  let d := Zpos (digits2_pos p) in
  let E := Z.min ex (Z.max (d + ex - 53) (-1074)) in
  let n := Z.max 0 (d + ex - E - 53) in
  exists m e,
    binary_round 53 1024 false p ex = S754_finite false m e
    /\ E + n <= e
    /\ 2 * (Zpos m * 2 ^ (e - E)) <= 2 * (Zpos p * 2 ^ (ex - E)) + 2 ^ n
    /\ 2 * (Zpos p * 2 ^ (ex - E)) <= 2 * (Zpos m * 2 ^ (e - E)) + 2 ^ n.
Proof.
  intros Hex Hd d E n. unfold binary_round. fold d. rewrite fexp_binary64.
  assert (0 < d) by (subst d; lia).
  destruct (Z.le_gt_cases ex (Z.max (d + ex - 53) (-1074))) as [Hkeep|Hshift].
  - rewrite shl_align_keep by assumption.
    replace E with ex in * by (subst E; lia).
    replace (ex - ex) with 0 by lia. change (2 ^ 0) with 1. rewrite Z.mul_1_r.
    destruct (binary_round_aux_nearest p ex loc_Exact (Zpos p) 1)
      as (m & e & Hres & Hexp & Hup & Hlow); [lia| |lia|lia|].
    { unfold stands_for. cbn [shr_record_of_loc shr_m shr_r shr_s]. lia. }
    fold d in Hexp, Hup, Hlow.
    replace (Z.max 0 (d - 53)) with n in * by (subst n; lia).
    exists m, e. split; [exact Hres|]. split; [lia|]. lia.
  - replace (Z.max (d + ex - 53) (-1074)) with E in * by (subst E; lia).
    destruct (shl_align_value p ex E ltac:(lia)) as [Hval Hexp].
    destruct (shl_align p ex E) as [mz ez]. cbn [fst snd] in *. subst ez.
    assert (Zpos (digits2_pos mz) = d + (ex - E)) as Hdz
      by (apply digits2_pos_scaled; [lia|done]).
    destruct (binary_round_aux_nearest mz E loc_Exact (Zpos mz) 1)
      as (m & e & Hres & Hexp & Hup & Hlow); [lia| |lia|lia|].
    { unfold stands_for. cbn [shr_record_of_loc shr_m shr_r shr_s]. lia. }
    rewrite Hdz in Hexp, Hup, Hlow.
    replace (Z.max 0 (d + (ex - E) - 53)) with n in * by (subst n; lia).
    rewrite <- Hval.
    exists m, e. split; [exact Hres|]. split; [lia|]. lia.
Qed.

(** Truncation, in units of [2 ^ E]. *)
Lemma to_int_units m e E :
  E <= e -> E <= 0 ->
  to_int (S754_finite false m e) = (Zpos m * 2 ^ (e - E)) / 2 ^ (- E).
Proof.
  intros HE HE0. cbn [to_int].
  assert (0 < 2 ^ (- E)) by (apply pow2_pos; lia).
  destruct e as [|p|p].
  - replace (0 - E) with (- E) by lia. change (2 ^ 0) with 1.
    rewrite Z.mul_1_r, Z.div_mul by lia. done.
  - replace (Zpos p - E) with (Zpos p + - E) by lia.
    rewrite Z.pow_add_r, Z.mul_assoc, Z.div_mul by lia. done.
  - assert (0 < 2 ^ (Zneg p - E)) by (apply pow2_pos; lia).
    replace (2 ^ (- E)) with (2 ^ Zpos p * 2 ^ (Zneg p - E))
      by (rewrite <- Z.pow_add_r by lia; f_equal; lia).
    rewrite Z.div_mul_cancel_r by lia. done.
Qed.

(** The sum of two positive numbers is the rounding of the exact sum of
    the aligned mantissas. *)
Lemma SFadd_pos mx ex my ey :
  let ez := Z.min ex ey in
  exists p, Zpos p = Zpos mx * 2 ^ (ex - ez) + Zpos my * 2 ^ (ey - ez)
    /\ add (S754_finite false mx ex) (S754_finite false my ey)
       = binary_round 53 1024 false p ez.
Proof.
  intros ez. unfold add, SFadd, cond_Zopp. fold ez.
  destruct (shl_align_value mx ex ez ltac:(lia)) as [Hx _].
  destruct (shl_align_value my ey ez ltac:(lia)) as [Hy _].
  exists (fst (shl_align mx ex ez) + fst (shl_align my ey ez))%positive.
  split; [|reflexivity]. rewrite Pos2Z.inj_add. lia.
Qed.

Lemma pow2_le_mono a b : 0 <= a <= b -> 2 ^ a <= 2 ^ b.
Proof. intros Hab. apply Z.pow_le_mono_r; lia. Qed.

Lemma pow2_split a b : 0 <= a -> 0 <= b -> 2 ^ (a + b) = 2 ^ a * 2 ^ b.
Proof. intros Ha Hb. apply Z.pow_add_r; lia. Qed.

(** A proper fraction [n / N]: the quotient computed in [float64] is at
    most one unit of [2 ^ Ey] above it. *)
Lemma div_of_int_fraction n N :
  0 < n < N -> N < 2 ^ 53 ->
  exists my ey Ey,
    div (of_int n) (of_int N) = S754_finite false my ey
    /\ -105 <= Ey <= -53 /\ Ey <= ey
    /\ Zpos my * 2 ^ (ey - Ey) * N <= n * 2 ^ (- Ey) + N.
Proof.
  intros Hn HN.
  destruct (of_int_pos n ltac:(lia)) as (m1 & e1 & -> & Hd1 & He1 & Hm1 & Hn1).
  destruct (of_int_pos N ltac:(lia)) as (m2 & e2 & -> & Hd2 & He2 & Hm2 & HN2).
  assert (e1 <= e2) as He12.
  { assert (2 ^ (52 + e1) < 2 ^ (53 + e2)) as Hlt by lia.
    apply Z.pow_lt_mono_r_iff in Hlt; lia. }
  destruct (SFdiv_nearest m1 e1 m2 e2 Hd1 Hd2 ltac:(lia))
    as (my & ey & Hres & Hey & Hup & _).
  exists my, ey, (e1 - e2 - 53).
  split; [exact Hres|]. split; [lia|]. split; [lia|].
  set (V := Zpos my * 2 ^ (ey - (e1 - e2 - 53))) in *.
  assert (0 < 2 ^ (- e2)) as HT2 by (apply pow2_pos; lia).
  assert (2 ^ (- (e1 - e2 - 53)) * 2 ^ (- e2) = 2 ^ (- e1) * 2 ^ 53) as HW
    by (rewrite <- !Z.pow_add_r by lia; f_equal; lia).
  apply (Z.mul_le_mono_pos_r _ _ (2 ^ (- e2)) HT2).
  rewrite Hm1, Hm2 in Hup.
  replace (V * N * 2 ^ (- e2)) with (V * (N * 2 ^ (- e2))) by ring.
  replace ((n * 2 ^ (- (e1 - e2 - 53)) + N) * 2 ^ (- e2))
    with (n * (2 ^ (- (e1 - e2 - 53)) * 2 ^ (- e2)) + N * 2 ^ (- e2)) by ring.
  rewrite HW. lia.
Qed.

Lemma of_int_zero : of_int 0 = S754_zero false.
Proof. reflexivity. Qed.

Lemma to_int_of_int h : 0 <= h < 2 ^ 53 -> to_int (of_int h) = h.
Proof.
  intros Hh. destruct (Z.eq_dec h 0) as [->|Hne]; [reflexivity|].
  destruct (of_int_pos h ltac:(lia)) as (m & e & -> & _ & He & Hm & _).
  rewrite (to_int_units m e e) by lia.
  replace (e - e) with 0 by lia. change (2 ^ 0) with 1.
  rewrite Z.mul_1_r, Hm, Z.div_mul; [done|].
  assert (0 < 2 ^ (- e)) by (apply pow2_pos; lia). lia.
Qed.

Section Fraction.
Variables N g K : Z.
Hypothesis HN : 0 < N < 2 ^ 53.
Hypothesis Hg : 1 <= g.
Hypothesis HK : 1 <= K <= 53.
Hypothesis Hgap : N * (2 + 2 ^ K) < 2 * g * 2 ^ 53.

(** The fraction is below one. *)
Lemma fraction_below_one n my ey Ey :
  0 < n <= N - g -> Ey <= -53 ->
  Zpos my * 2 ^ (ey - Ey) * N <= n * 2 ^ (- Ey) + N ->
  Zpos my * 2 ^ (ey - Ey) < 2 ^ (- Ey).
Proof using All.
  intros Hn HEy Hdiv.
  assert (2 ^ 53 <= 2 ^ (- Ey)) as HW by (apply pow2_le_mono; lia).
  apply Z.nle_gt. intros Hge.
  assert (2 ^ (- Ey) * N <= Zpos my * 2 ^ (ey - Ey) * N)
    by (apply Z.mul_le_mono_nonneg_r; lia).
  assert (n * 2 ^ (- Ey) <= (N - g) * 2 ^ (- Ey))
    by (apply Z.mul_le_mono_nonneg_r; lia).
  assert (1 * 2 ^ (- Ey) <= g * 2 ^ (- Ey))
    by (apply Z.mul_le_mono_nonneg_r; lia).
  lia.
Qed.

(** [h + n / N] computed in [float64] truncates to [h]. *)
Lemma to_int_add_fraction h n :
  0 <= h -> h + 1 <= 2 ^ K -> 0 <= n <= N - g ->
  to_int (add (of_int h) (div (of_int n) (of_int N))) = h.
Proof using All.
  intros Hh HhK Hn.
  assert (2 ^ K <= 2 ^ 53) as HK53 by (apply pow2_le_mono; lia).
  destruct (Z.eq_dec n 0) as [->|Hn0].
  { (* no fraction *)
    rewrite of_int_zero.
    destruct (of_int_pos N ltac:(lia)) as (m2 & e2 & HNeq & _).
    rewrite HNeq. cbn [div SFdiv xorb].
    destruct (Z.eq_dec h 0) as [->|Hh0]; [reflexivity|].
    destruct (of_int_pos h ltac:(lia)) as (mh & eh & Hheq & _).
    pose proof (to_int_of_int h ltac:(lia)) as Hto.
    rewrite Hheq in *. exact Hto. }
  destruct (div_of_int_fraction n N ltac:(lia) ltac:(lia))
    as (my & ey & Ey & -> & HEy & Hey & Hdiv).
  pose proof (fraction_below_one n my ey Ey ltac:(lia) ltac:(lia) Hdiv) as Hone.
  destruct (Z.eq_dec h 0) as [->|Hh0].
  { (* no integer part *)
    rewrite of_int_zero. cbn [add SFadd].
    rewrite (to_int_units my ey Ey) by lia.
    apply Z.div_small. lia. }
  destruct (of_int_pos h ltac:(lia)) as (mh & eh & -> & Hdh & Heh & Hmh & Hhb).
  destruct (SFadd_pos mh eh my ey) as (P & HP & ->).
  set (ez := Z.min eh ey) in *.
  assert (Ey <= ez <= 0) as Hez by lia.
  (* the fraction, in units of [2 ^ ez] *)
  set (Y := Zpos my * 2 ^ (ey - ez)) in *.
  assert (0 < Y) as HYpos by (apply Z.mul_pos_pos; [lia|apply pow2_pos; lia]).
  assert (Zpos my * 2 ^ (ey - Ey) = Y * 2 ^ (ez - Ey)) as HVY.
  { subst Y. rewrite <- Z.mul_assoc, <- pow2_split by lia. do 2 f_equal. lia. }
  assert (0 < 2 ^ (ez - Ey)) as HCpos by (apply pow2_pos; lia).
  assert (2 ^ (- Ey) = 2 ^ (- ez) * 2 ^ (ez - Ey)) as HWsplit
    by (rewrite <- pow2_split by lia; f_equal; lia).
  assert (Y < 2 ^ (- ez)) as HY1.
  { apply (mul_lt_cancel_r _ _ (2 ^ (ez - Ey)) HCpos). lia. }
  assert (Zpos mh * 2 ^ (eh - ez) = h * 2 ^ (- ez)) as HH.
  { rewrite Hmh, <- Z.mul_assoc, <- pow2_split by lia. do 2 f_equal. lia. }
  rewrite HH in HP.
  assert (0 < 2 ^ (- ez)) as HUpos by (apply pow2_pos; lia).
  (* the digits of the exact sum *)
  set (d := Zpos (digits2_pos P)).
  assert (53 + eh - ez <= d) as Hdlow.
  { apply digits2_pos_ge. rewrite HP.
    replace (53 + eh - ez - 1) with (52 + eh + - ez) by lia.
    rewrite pow2_split by lia.
    assert (2 ^ (52 + eh) * 2 ^ (- ez) <= h * 2 ^ (- ez))
      by (apply Z.mul_le_mono_nonneg_r; lia).
    lia. }
  assert (d <= K - ez) as Hdup.
  { apply digits2_pos_le; [|lia]. rewrite HP.
    replace (K - ez) with (K + - ez) by lia. rewrite pow2_split by lia.
    assert ((h + 1) * 2 ^ (- ez) <= 2 ^ K * 2 ^ (- ez))
      by (apply Z.mul_le_mono_nonneg_r; lia).
    lia. }
  destruct (binary_round_nearest P ez ltac:(lia) ltac:(fold d; lia))
    as (m & e & -> & He & Hup & Hlow).
  fold d in He, Hup, Hlow.
  replace (Z.min ez (Z.max (d + ez - 53) (-1074))) with ez in * by lia.
  replace (ez - ez) with 0 in * by lia. change (2 ^ 0) with 1 in *.
  rewrite Z.mul_1_r in *.
  set (n' := Z.max 0 (d + ez - ez - 53)) in *.
  assert (0 <= n' /\ ez + n' <= K - 53) as Hn' by (subst n'; lia).
  rewrite (to_int_units m e ez) by lia.
  (* the result is a multiple of [2 ^ n'], and so is [h] *)
  assert (0 < 2 ^ n') as HQpos by (apply pow2_pos; lia).
  assert (Zpos m * 2 ^ (e - ez) = Zpos m * 2 ^ (e - ez - n') * 2 ^ n') as HVmul.
  { rewrite <- Z.mul_assoc, <- pow2_split by lia. do 2 f_equal. lia. }
  assert (2 ^ (- ez) = 2 ^ (- ez - n') * 2 ^ n') as HUmul
    by (rewrite <- pow2_split by lia; f_equal; lia).
  set (v := Zpos m * 2 ^ (e - ez - n')) in *.
  set (u := 2 ^ (- ez - n')) in *.
  assert (0 < u) as Hupos by (subst u; apply pow2_pos; lia).
  rewrite HVmul, HP in *.
  (* the half unit added by rounding does not reach the next integer *)
  assert (2 * Y + 2 ^ n' < 2 * 2 ^ (- ez)) as Hroom.
  { apply (mul_lt_cancel_r _ _ (2 ^ (ez - Ey) * N)); [apply Z.mul_pos_pos; lia|].
    assert (2 ^ n' * 2 ^ (ez - Ey) * 2 ^ 53 <= 2 ^ (- Ey) * 2 ^ K) as HQ.
    { rewrite <- !pow2_split by lia. apply pow2_le_mono. lia. }
    assert (2 ^ 53 <= 2 ^ (- Ey)) as HW by (apply pow2_le_mono; lia).
    assert (n * 2 ^ (- Ey) <= (N - g) * 2 ^ (- Ey))
      by (apply Z.mul_le_mono_nonneg_r; lia).
    assert (0 < 2 ^ (- Ey)) by (apply pow2_pos; lia).
    set (W := 2 ^ (- Ey)) in *. set (C := 2 ^ (ez - Ey)) in *.
    set (Q := 2 ^ n') in *.
    assert (Q * C * N * 2 ^ 53 <= W * 2 ^ K * N)
      by (replace (Q * C * N * 2 ^ 53) with (Q * C * 2 ^ 53 * N) by ring;
          apply Z.mul_le_mono_nonneg_r; lia).
    assert (N * (2 + 2 ^ K) * W < 2 * g * 2 ^ 53 * W)
      by (apply Z.mul_lt_mono_pos_r; lia).
    assert (2 * N * 2 ^ 53 <= 2 * N * W)
      by (apply Z.mul_le_mono_nonneg_l; lia).
    apply (mul_lt_cancel_r _ _ (2 ^ 53)); [apply pow2_pos; lia|].
    replace ((2 * Y + Q) * (C * N) * 2 ^ 53)
      with (2 * (Y * C * N) * 2 ^ 53 + Q * C * N * 2 ^ 53) by ring.
    replace (2 * 2 ^ (- ez) * (C * N) * 2 ^ 53)
      with (2 * (2 ^ (- ez) * C) * N * 2 ^ 53) by ring.
    rewrite <- HWsplit. fold W. rewrite <- HVY.
    assert (Zpos my * 2 ^ (ey - Ey) * N * 2 ^ 53 <= ((N - g) * W + N) * 2 ^ 53)
      by (apply Z.mul_le_mono_nonneg_r; lia).
    change (2 ^ 53) with 9007199254740992 in *. lia. }
  rewrite HUmul in *.
  assert (h * u <= v).
  { apply Z.nlt_ge. intros Hlt.
    assert ((v + 1) * 2 ^ n' <= h * u * 2 ^ n')
      by (apply Z.mul_le_mono_nonneg_r; lia).
    lia. }
  assert (v < (h + 1) * u).
  { apply Z.nle_gt. intros Hge.
    assert ((h + 1) * u * 2 ^ n' <= v * 2 ^ n')
      by (apply Z.mul_le_mono_nonneg_r; lia).
    lia. }
  rewrite Z.div_mul_cancel_r by lia.
  symmetry. apply (Z.div_unique_pos v u h (v - h * u)); lia.
Qed.

End Fraction.

(** Changing the sign of the operands changes the sign of the result. *)
Lemma binary_round_aux_opp m e l :
  binary_round_aux 53 1024 true m e l = SFopp (binary_round_aux 53 1024 false m e l).
Proof.
  unfold binary_round_aux. destruct (shr_fexp _ _ _ _ _) as [mrs1 e1].
  destruct (shr_fexp _ _ _ _ _) as [mrs2 e2].
  destruct (shr_m mrs2); [reflexivity| |reflexivity].
  by destruct (e2 <=? 1024 - 53).
Qed.

Lemma binary_round_opp p e :
  binary_round 53 1024 true p e = SFopp (binary_round 53 1024 false p e).
Proof.
  unfold binary_round. destruct (shl_align _ _ _) as [mz ez].
  apply binary_round_aux_opp.
Qed.

Lemma of_int_opp h : 0 < h -> of_int (- h) = SFopp (of_int h).
Proof.
  intros Hh. destruct h as [|p|p]; [lia| |lia].
  apply binary_round_opp.
Qed.

Lemma div_opp_l mx ex my ey :
  div (SFopp (S754_finite false mx ex)) (S754_finite false my ey)
  = SFopp (div (S754_finite false mx ex) (S754_finite false my ey)).
Proof.
  unfold div, SFdiv. cbn [SFopp negb xorb].
  destruct (SFdiv_core_binary _ _ _ _ _ _) as [[mz ez] lz].
  apply binary_round_aux_opp.
Qed.

Lemma add_opp mx ex my ey :
  add (SFopp (S754_finite false mx ex)) (SFopp (S754_finite false my ey))
  = SFopp (add (S754_finite false mx ex) (S754_finite false my ey)).
Proof.
  unfold add, SFadd. cbn [SFopp negb cond_Zopp Z.opp Z.add binary_normalize].
  apply binary_round_opp.
Qed.

Lemma to_int_opp f : to_int (SFopp f) = - to_int f.
Proof.
  destruct f as [s|s| |s m e]; cbn [SFopp to_int]; try reflexivity.
  destruct s; cbn [negb]; lia.
Qed.

Lemma of_int_finite h :
  0 < h < 2 ^ 53 -> exists m e, of_int h = S754_finite false m e.
Proof.
  intros Hh. destruct (of_int_pos h Hh) as (m & e & Heq & _). by exists m, e.
Qed.

(** The same for a negative integer part and a negative fraction. *)
Lemma to_int_add_fraction_opp N g K h n :
  0 < N < 2 ^ 53 -> 1 <= g -> 1 <= K <= 53 ->
  N * (2 + 2 ^ K) < 2 * g * 2 ^ 53 ->
  0 <= h -> h + 1 <= 2 ^ K -> 0 <= n <= N - g ->
  to_int (add (of_int (- h)) (div (of_int (- n)) (of_int N))) = - h.
Proof.
  intros HN Hg HK Hgap Hh HhK Hn.
  pose proof (to_int_add_fraction N g K HN Hg HK Hgap h n Hh HhK Hn) as Hpos.
  assert (2 ^ K <= 2 ^ 53) as HK53 by (apply pow2_le_mono; lia).
  destruct (of_int_finite N ltac:(lia)) as (m2 & e2 & HNeq).
  destruct (Z.eq_dec n 0) as [->|Hn0]; destruct (Z.eq_dec h 0) as [->|Hh0].
  - exact Hpos.
  - change (- 0) with 0 in *. rewrite of_int_zero, HNeq in *.
    cbn [div SFdiv xorb] in *.
    destruct (of_int_finite h ltac:(lia)) as (mh & eh & Hheq).
    rewrite of_int_opp, Hheq in * by lia.
    cbn [add SFadd SFopp] in *. cbn [to_int negb] in *. lia.
  - change (- 0) with 0 in *. rewrite of_int_zero in *.
    destruct (of_int_finite n ltac:(lia)) as (m1 & e1 & Hneq).
    rewrite of_int_opp, Hneq, HNeq, div_opp_l in * by lia.
    destruct (div_of_int_fraction n N ltac:(lia) ltac:(lia))
      as (my & ey & Ey & Hdiv & _).
    rewrite Hneq, HNeq in Hdiv. rewrite Hdiv in *.
    cbn [add SFadd SFopp] in *. cbn [to_int negb] in *. lia.
  - destruct (of_int_finite n ltac:(lia)) as (m1 & e1 & Hneq).
    destruct (of_int_finite h ltac:(lia)) as (mh & eh & Hheq).
    rewrite !of_int_opp by lia. rewrite Hneq, HNeq, Hheq, div_opp_l in *.
    destruct (div_of_int_fraction n N ltac:(lia) ltac:(lia))
      as (my & ey & Ey & Hdiv & _).
    rewrite Hneq, HNeq in Hdiv. rewrite Hdiv in *.
    rewrite add_opp, to_int_opp. lia.
Qed.

(** Both signs at once, with Go's truncating [/] and [%]. *)
Lemma to_int_quot_rem N g K d :
  0 < N < 2 ^ 53 -> 1 <= g -> 1 <= K <= 53 ->
  N * (2 + 2 ^ K) < 2 * g * 2 ^ 53 ->
  Z.abs d < 2 ^ K * N ->
  Z.abs (Z.rem d N) <= N - g ->
  to_int (add (of_int (Z.quot d N)) (div (of_int (Z.rem d N)) (of_int N)))
  = Z.quot d N.
Proof.
  intros HN Hg HK Hgap Hd Hrem.
  assert (0 < 2 ^ K) by (apply pow2_pos; lia).
  destruct (Z.le_gt_cases 0 d) as [Hpos|Hneg].
  - rewrite Z.quot_div_nonneg, Z.rem_mod_nonneg in * by lia.
    pose proof (Z.mod_pos_bound d N ltac:(lia)).
    apply (to_int_add_fraction N g K); try lia.
    + apply Z.div_pos; lia.
    + assert (d / N < 2 ^ K); [|lia].
      apply Z.div_lt_upper_bound; lia.
  - replace d with (- - d) in * by lia.
    rewrite Z.quot_opp_l, Z.rem_opp_l in * by lia.
    rewrite Z.quot_div_nonneg, Z.rem_mod_nonneg in * by lia.
    pose proof (Z.mod_pos_bound (- d) N ltac:(lia)).
    apply (to_int_add_fraction_opp N g K); try lia.
    + apply Z.div_pos; lia.
    + assert (- d / N < 2 ^ K); [|lia].
      apply Z.div_lt_upper_bound; lia.
Qed.

Lemma Hours_exact d :
  exact_domain d -> to_int (GoTime.Hours d) = Z.quot d GoTime.Hour.
Proof.
  unfold exact_domain, whole_seconds, GoTime.Hours, GoTime.MinInt64,
    GoTime.MaxInt64, GoTime.Hour, GoTime.Minute, GoTime.Second.
  change (60 * (60 * 1000000000)) with 3600000000000.
  change (60 * 60 * 1000000000) with 3600000000000.
  change (2 ^ 63) with 9223372036854775808.
  intros [Hrange [Hsec|Hshort]].
  - apply (to_int_quot_rem 3600000000000 1000000000 22); try done.
    + change (2 ^ 22) with 4194304. lia.
    + pose proof (Z.rem_bound_abs d 3600000000000 ltac:(lia)) as Hb.
      pose proof (Z.quot_rem' d 3600000000000) as Hqr.
      pose proof (Z.quot_rem' d 1000000000) as Hqs.
      rewrite Hsec in Hqs. lia.
  - apply (to_int_quot_rem 3600000000000 1 12); try done.
    pose proof (Z.rem_bound_abs d 3600000000000 ltac:(lia)). lia.
Qed.

Lemma Minutes_exact d :
  exact_domain d -> to_int (GoTime.Minutes d) = Z.quot d GoTime.Minute.
Proof.
  unfold exact_domain, whole_seconds, GoTime.Minutes, GoTime.MinInt64,
    GoTime.MaxInt64, GoTime.Hour, GoTime.Minute, GoTime.Second.
  change (60 * (60 * 1000000000)) with 3600000000000.
  change (60 * 1000000000) with 60000000000.
  change (2 ^ 63) with 9223372036854775808.
  intros [Hrange [Hsec|Hshort]].
  - apply (to_int_quot_rem 60000000000 1000000000 28); try done.
    + change (2 ^ 28) with 268435456. lia.
    + pose proof (Z.rem_bound_abs d 60000000000 ltac:(lia)) as Hb.
      pose proof (Z.quot_rem' d 60000000000) as Hqr.
      pose proof (Z.quot_rem' d 1000000000) as Hqs.
      rewrite Hsec in Hqs. lia.
  - apply (to_int_quot_rem 60000000000 1 18); try done.
    + change (2 ^ 18) with 262144. lia.
    + pose proof (Z.rem_bound_abs d 60000000000 ltac:(lia)). lia.
Qed.

(** On that domain [formatElapsedTime] renders a duration as the claim C3
    says. *)
Lemma formatElapsedTime_exact d :
  exact_domain d -> formatElapsedTime d = elapsed_as_claimed d.
Proof.
  intros Hd. unfold formatElapsedTime, elapsed_as_claimed.
  rewrite (Hours_exact d Hd), (Minutes_exact d Hd). cbn zeta.
  unfold Day, GoTime.Hour, GoTime.Minute, GoTime.Second.
  change (24 * (60 * (60 * 1000000000))) with 86400000000000.
  change (60 * (60 * 1000000000)) with 3600000000000.
  change (60 * 1000000000) with 60000000000.
  pose proof (Z.quot_rem' d 3600000000000) as Hqr.
  pose proof (Z.rem_bound_abs d 3600000000000 ltac:(lia)) as Hb.
  pose proof (Z.rem_sign_nz d 3600000000000) as _.
  set (hours := Z.quot d 3600000000000) in *.
  pose proof (Z.quot_rem' hours 24) as Hqr'.
  pose proof (Z.rem_bound_abs hours 24 ltac:(lia)) as Hb'.
  assert ((0 <? Z.quot hours 24) = (86400000000000 <=? d)) as ->.
  { destruct (Z.leb_spec 86400000000000 d) as [Hge|Hlt].
    - apply Z.ltb_lt.
      assert (24 <= hours).
      { subst hours. apply Z.quot_le_lower_bound; lia. }
      apply Z.quot_str_pos. lia.
    - apply Z.ltb_ge.
      destruct (Z.le_gt_cases 0 d).
      + assert (hours < 24).
        { subst hours. apply Z.quot_lt_upper_bound; lia. }
        assert (0 <= hours) by (subst hours; apply Z.quot_pos; lia).
        rewrite Z.quot_small; lia.
      + assert (hours <= 0)
          by (subst hours; apply Z.quot_le_upper_bound; lia || (rewrite Z.mul_0_r; lia)).
        rewrite <- (Z.opp_involutive hours), Z.quot_opp_l by lia.
        assert (0 <= Z.quot (- hours) 24) by (apply Z.quot_pos; lia). lia. }
  assert ((0 <? hours) = (3600000000000 <=? d)) as ->.
  { destruct (Z.leb_spec 3600000000000 d) as [Hge|Hlt].
    - apply Z.ltb_lt. subst hours. apply Z.quot_str_pos. lia.
    - apply Z.ltb_ge. destruct (Z.le_gt_cases 0 d).
      + subst hours. rewrite Z.quot_small; lia.
      + subst hours. rewrite <- (Z.opp_involutive d), Z.quot_opp_l by lia.
        assert (0 <= Z.quot (- d) 3600000000000) by (apply Z.quot_pos; lia). lia. }
  reflexivity.
Qed.

End Float64.

(** ** [main] *)

Section Main.
Context `{Host} `{Json} `{TimeLib} `{MapRange}.

Lemma run_save_then_print scan line w :
  disk (run [Save scan; Println line] w) = snd (SaveScan scan (disk w)).
Proof. reflexivity. Qed.

(** After a successful scan [main] finishes with a call of [SaveScan] on the
    new snapshot, whatever the comparison found or did. *)
Lemma main_saves_last banner scanCmd target scan w :
  RunScan scanCmd target = Ok scan →
  ∃ w', disk (main banner scanCmd target w) = snd (SaveScan scan (disk w')).
Proof.
  intros Hscan. unfold main. rewrite Hscan.
  eexists. apply run_save_then_print.
Qed.

Lemma LoadPreviousScan_current current backup :
  fst (LoadPreviousScan (Folder (Some current) backup))
  = match json_Unmarshal current with
    | Some scan => Ok scan
    | None => Err SyntaxError
    end.
Proof.
  unfold LoadPreviousScan, io_bind, os_ReadFile. cbn [slot].
  by destruct (json_Unmarshal current).
Qed.

(** [main] from a store with a readable previous snapshot. *)
Lemma main_with_previous banner scanCmd target scan prev current backup stdout0 :
  RunScan scanCmd target = Ok scan →
  json_Unmarshal current = Some prev →
  ∃ w, disk w = Folder (Some current) backup
       ∧ disk (main banner scanCmd target
                 {| stdout := stdout0; disk := Folder (Some current) backup |})
         = snd (SaveScan scan (disk (run (CompareScans prev scan) w))).
Proof.
  intros Hscan Hprev. unfold main. rewrite Hscan.
  set (w := run [Println banner] _).
  assert (disk w = Folder (Some current) backup) as Hw by reflexivity.
  exists w. split; [exact Hw|].
  rewrite run_save_then_print, Hw, LoadPreviousScan_current, Hprev. reflexivity.
Qed.

(** X24.  With a previous snapshot on disk and no change, the comparison
    saves nothing, and [main] then saves the new snapshot all the same: the
    previous one moves to the backup file. *)
Lemma main_unchanged_still_saves banner scanCmd target scan prev current backup
    (oldTime newTime : Time) stdout0 :
  RunScan scanCmd target = Ok scan →
  json_Unmarshal current = Some prev →
  time_Parse (DateTime prev) = inl oldTime →
  time_Parse (DateTime scan) = inl newTime →
  ¬ changes_detected prev scan →
  disk (main banner scanCmd target
          {| stdout := stdout0; disk := Folder (Some current) backup |})
  = Folder (Some (json_MarshalIndent scan)) (Some current).
Proof.
  intros Hscan Hprev Hold Hnew Hsame.
  destruct (main_with_previous banner scanCmd target scan prev current backup
              stdout0 Hscan Hprev) as (w & Hw & ->).
  rewrite (CompareScans_disk_unchanged prev scan oldTime newTime) by done.
  by rewrite Hw, SaveScan_rotate.
Qed.

(** X25.  With a previous snapshot on disk and a change, the new snapshot
    is saved twice, by the comparison and by [main]: both files end up
    holding the new snapshot and the previous one is lost. *)
Lemma main_changed_saves_twice banner scanCmd target scan prev current backup
    (oldTime newTime : Time) stdout0 :
  RunScan scanCmd target = Ok scan →
  json_Unmarshal current = Some prev →
  time_Parse (DateTime prev) = inl oldTime →
  time_Parse (DateTime scan) = inl newTime →
  changes_detected prev scan →
  disk (main banner scanCmd target
          {| stdout := stdout0; disk := Folder (Some current) backup |})
  = Folder (Some (json_MarshalIndent scan)) (Some (json_MarshalIndent scan)).
Proof.
  intros Hscan Hprev Hold Hnew Hchanged.
  destruct (main_with_previous banner scanCmd target scan prev current backup
              stdout0 Hscan Hprev) as (w & Hw & ->).
  rewrite (CompareScans_disk_changed prev scan oldTime newTime) by done.
  by rewrite Hw, !SaveScan_rotate.
Qed.

End Main.

(** * Further properties

    What follows covers the parts of [main.go] around the properties above:
    the index expressions of the parser and of [RunScan], the parser as a
    function of the whole output, the counts and the order of the report of
    [CompareScans], the checks of [RunScan], the store on each of its
    shapes, and the runs of [main]. *)

(** ** The [strings] package: trimming and fields *)

Lemma string_append_String c (s x : string) : String c s +:+ x = String c (s +:+ x).
Proof. reflexivity. Qed.

Lemma string_append_empty_r (s : string) : s +:+ "" = s.
Proof. induction s as [|c s IH]; [reflexivity|]. by rewrite string_append_String, IH. Qed.

Lemma string_append_assoc (s1 s2 s3 : string) : (s1 +:+ s2) +:+ s3 = s1 +:+ (s2 +:+ s3).
Proof.
  induction s1 as [|c s1 IH]; [reflexivity|]. by rewrite !string_append_String, IH.
Qed.

Lemma string_rev_app s1 s2 : String.rev_app s1 s2 = String.rev s1 +:+ s2.
Proof.
  unfold String.rev. revert s2. induction s1 as [|c s1 IH]; intros s2.
  - reflexivity.
  - cbn [String.rev_app]. rewrite IH, (IH (String c "")). by rewrite string_append_assoc.
Qed.

Lemma string_rev_String c s : String.rev (String c s) = String.rev s +:+ String c "".
Proof. unfold String.rev at 1. cbn [String.rev_app]. apply string_rev_app. Qed.

Lemma string_rev_append s1 s2 : String.rev (s1 +:+ s2) = String.rev s2 +:+ String.rev s1.
Proof.
  induction s1 as [|c s1 IH].
  - by rewrite string_append_empty_r.
  - by rewrite string_append_String, !string_rev_String, IH, string_append_assoc.
Qed.

Lemma string_rev_involutive s : String.rev (String.rev s) = s.
Proof.
  induction s as [|c s IH]; [reflexivity|].
  by rewrite string_rev_String, string_rev_append, IH.
Qed.

Lemma string_rev_empty s : String.rev s = "" → s = "".
Proof. intros Hrev. by rewrite <- (string_rev_involutive s), Hrev. Qed.

Lemma prefix_append p s : String.prefix p s = true ↔ ∃ x, s = p +:+ x.
Proof.
  revert s. induction p as [|c p IH]; intros s.
  - split; [by exists s|by destruct s].
  - destruct s as [|c' s]; [split; [done|by intros [x ?]]|].
    cbn [String.prefix]. destruct (ascii_dec c c') as [->|Hne].
    + rewrite IH. split; intros [x Hx]; exists x; rewrite ?string_append_String in *; congruence.
    + split; [done|]. intros [x Hx]. rewrite string_append_String in Hx. congruence.
Qed.

(** The result of a trim is a suffix of its argument. *)
Lemma trim_go_suffix width s k : ∃ pre, s = pre +:+ trim_go width s k.
Proof.
  revert k. induction s as [|c s IH]; intros k; simpl.
  - by exists "".
  - destruct k as [|k].
    + destruct (width (String c s)) as [|k'].
      * by exists "".
      * destruct (IH k') as [pre Hpre]. exists (String c pre).
        rewrite string_append_String. congruence.
    + destruct (IH k) as [pre Hpre]. exists (String c pre).
      rewrite string_append_String. congruence.
Qed.

Lemma trim_go_left s k : space_width (trim_go space_width s k) = 0.
Proof.
  revert k. induction s as [|c s IH]; intros k; simpl; [reflexivity|].
  destruct k as [|k]; [|apply IH].
  destruct (space_width (String c s)) as [|k'] eqn:Hw; [exact Hw|apply IH].
Qed.

Lemma match_width_zero pats s :
  Forall (fun p => p ≠ "") pats →
  match_width pats s = 0 ↔ Forall (fun p => String.prefix p s = false) pats.
Proof.
  unfold match_width. induction 1 as [|p pats Hp _ IH]; simpl.
  - split; [constructor|done].
  - destruct (String.prefix p s) eqn:Hpre.
    + split; [by destruct p|]. intros Hall. inversion Hall; congruence.
    + rewrite IH. split; [by constructor|]. by inversion 1.
Qed.

Lemma White_Space_nonempty : Forall (fun p => p ≠ "") (bytes <$> White_Space).
Proof. vm_compute. repeat constructor; discriminate. Qed.

(** A string without a leading space has no prefix with one. *)
Lemma space_width_prefix s x : space_width (s +:+ x) = 0 → space_width s = 0.
Proof.
  unfold space_width. rewrite !match_width_zero by apply White_Space_nonempty.
  intros Hall. eapply Forall_impl; [exact Hall|]. intros p Hp. simpl in Hp.
  destruct (String.prefix p s) eqn:Hps; [|done].
  apply prefix_append in Hps as [y ->].
  rewrite <- Hp. symmetry. apply prefix_append. exists (y +:+ x).
  by rewrite string_append_assoc.
Qed.

(** [TrimSpace] returns a string that does not start with a space. *)
Lemma TrimSpace_left s : space_width (TrimSpace s) = 0.
Proof.
  unfold TrimSpace, TrimRightSpace, TrimLeftSpace.
  set (r := trim_go space_width s 0).
  destruct (trim_go_suffix space_width_rev (String.rev r) 0) as [pre Hpre].
  apply (space_width_prefix _ (String.rev pre)).
  rewrite <- string_rev_append, <- Hpre, string_rev_involutive. apply trim_go_left.
Qed.

(** The fields of a string are not empty. *)
Lemma flush_nonempty cur rest :
  Forall (fun f => f ≠ "") rest → Forall (fun f => f ≠ "") (flush cur rest).
Proof.
  intros Hrest. destruct cur as [|c cur]; simpl; [done|].
  constructor; [|done]. intros Hrev%string_rev_empty. discriminate.
Qed.

Lemma fields_go_nonempty s cur k : Forall (fun f => f ≠ "") (fields_go s cur k).
Proof.
  revert cur k. induction s as [|c s IH]; intros cur k; simpl.
  - by apply flush_nonempty.
  - destruct k; [|apply IH].
    destruct (space_width (String c s)); [apply IH|].
    apply flush_nonempty, IH.
Qed.

Lemma Fields_nonempty s : Forall (fun f => f ≠ "") (Fields s).
Proof. apply fields_go_nonempty. Qed.

(** A field that is being read is given out. *)
Lemma fields_go_cur s cur k : cur ≠ "" → fields_go s cur k ≠ [].
Proof.
  revert cur k. induction s as [|c s IH]; intros cur k Hcur; simpl.
  - by destruct cur.
  - destruct k; [|by apply IH].
    destruct (space_width (String c s)); [by apply IH|].
    by destruct cur.
Qed.

Lemma Fields_not_nil s : s ≠ "" → space_width s = 0 → Fields s ≠ [].
Proof.
  destruct s as [|c s]; [done|]. intros _ Hw. unfold Fields. simpl fields_go.
  rewrite Hw. by apply fields_go_cur.
Qed.

(** A trimmed string that is not empty has a field. *)
Lemma Fields_TrimSpace_not_nil s : TrimSpace s ≠ "" → Fields (TrimSpace s) ≠ [].
Proof. intros Hne. apply Fields_not_nil; [done|apply TrimSpace_left]. Qed.

(** ** The parser, line by line and as a whole *)

Lemma extend_app r l1 l2 : extend (extend r l1) l2 = extend r (l1 ++ l2).
Proof.
  destruct l1 as [|x l1]; [reflexivity|].
  destruct l2 as [|y l2]; simpl; [by rewrite app_nil_r|].
  by rewrite <- app_assoc.
Qed.

Lemma parse_line_report results currentIP line :
  host_report_line line = true →
  parse_line (results, currentIP) line = (results, host_of line).
Proof. unfold host_report_line, parse_line, host_of. by intros ->. Qed.

Lemma parse_line_other results currentIP line :
  host_report_line line = false →
  parse_line (results, currentIP) line
  = if has_tcp_marker line && negb (bool_decide (currentIP = ""))
    then match entry_of line with
         | e :: _ => (<[currentIP := default [] (results !! currentIP) ++ [e]]> results,
                      currentIP)
         | [] => (results, currentIP)
         end
    else (results, currentIP).
Proof.
  unfold host_report_line, parse_line, has_tcp_marker, entry_of. intros ->.
  destruct (_ && _); [|reflexivity].
  by destruct (Fields _) as [|port [|state [|service rest]]].
Qed.

Lemma entry_of_length line : length (entry_of line) ≤ 1.
Proof.
  unfold entry_of. destruct (Fields _) as [|port [|state [|service rest]]]; simpl; lia.
Qed.

Lemma foldl_parse_line_entries ip lines results cur :
  ip ≠ "" →
  (foldl parse_line (results, cur) lines).1 !! ip
  = extend (results !! ip) (entries_for ip cur lines).
Proof.
  intros Hip. revert results cur.
  induction lines as [|line lines IH]; intros results cur; cbn [foldl entries_for].
  - reflexivity.
  - destruct (host_report_line line) eqn:Hreport.
    + rewrite parse_line_report by done. apply IH.
    + rewrite parse_line_other by done.
      destruct (has_tcp_marker line); cbn [andb]; [|apply IH].
      destruct (decide (cur = ip)) as [->|Hne].
      * rewrite (bool_decide_eq_true_2 (ip = ip)) by done.
        rewrite (bool_decide_eq_false_2 (ip = "")) by done. cbn [negb].
        pose proof (entry_of_length line) as Hlen.
        destruct (entry_of line) as [|e [|e' rest]]; [apply IH| |simpl in Hlen; lia].
        rewrite IH, lookup_insert_eq. cbn [app].
        change (Some (default [] (results !! ip) ++ [e]))
          with (extend (results !! ip) [e]).
        apply extend_app.
      * rewrite (bool_decide_eq_false_2 (cur = ip)) by done.
        destruct (negb _); [|apply IH].
        destruct (entry_of line) as [|e rest]; [apply IH|].
        rewrite IH. by rewrite lookup_insert_ne.
Qed.

Lemma foldl_parse_line_no_empty_key lines results cur :
  results !! "" = None → (foldl parse_line (results, cur) lines).1 !! "" = None.
Proof.
  revert results cur. induction lines as [|line lines IH]; intros results cur Hnone;
    cbn [foldl]; [done|].
  destruct (host_report_line line) eqn:Hreport.
  - rewrite parse_line_report by done. by apply IH.
  - rewrite parse_line_other by done.
    destruct (has_tcp_marker line); cbn [andb]; [|by apply IH].
    destruct (decide (cur = "")) as [->|Hne].
    + rewrite bool_decide_eq_true_2 by done. by apply IH.
    + rewrite bool_decide_eq_false_2 by done. cbn [negb].
      destruct (entry_of line) as [|e rest]; [by apply IH|].
      apply IH. by rewrite lookup_insert_ne.
Qed.

(** X1.  A host-report line always has a last field: [Fields] of the
    trimmed line is not empty, so [parts[len(parts)-1]] is in range, and
    that field is not the empty string.  The line leaves the map as it is
    and makes the field, without brackets at its ends, the current host,
    whatever host was current before. *)
Theorem parse_line_host_report results currentIP line :
  host_report_line line = true →
  ∃ parts ip,
    Fields (TrimSpace line) = parts ++ [ip]
    ∧ ip ≠ ""
    ∧ parse_line (results, currentIP) line = (results, Trim ip "()").
Proof.
  intros Hreport.
  assert (Fields (TrimSpace line) ≠ []) as Hfields.
  { apply Fields_TrimSpace_not_nil. intros Hempty.
    unfold host_report_line in Hreport. rewrite Hempty in Hreport. discriminate. }
  destruct (Fields (TrimSpace line)) as [|f fs] eqn:Heq using rev_ind; [done|].
  clear IHfs. exists fs, f. split; [done|]. split.
  - pose proof (Fields_nonempty (TrimSpace line)) as Hall.
    rewrite Heq in Hall. by apply Forall_app in Hall as [_ [? _]%Forall_cons].
  - rewrite parse_line_report by done. unfold host_of.
    by rewrite Heq, List.last_last.
Qed.

Lemma parse_line_host_report_witness :
  let line := "  Nmap scan report for router.lan (192.168.1.1)" in
  host_report_line line = true
  ∧ ∃ parts ip,
      Fields (TrimSpace line) = parts ++ [ip]
      ∧ ip ≠ ""
      ∧ parse_line (∅, "10.0.0.9") line = (∅, Trim ip "()").
Proof.
  split; [reflexivity|].
  exact (parse_line_host_report ∅ "10.0.0.9"
           "  Nmap scan report for router.lan (192.168.1.1)" eq_refl).
Defined.

(** X2.  [ParseNmapOutput] as a function of the whole output: the list
    bound to a host holds, in the order of the lines, one entry for each
    line with the marker and at least three fields that is read while that
    host is the current one, repeated reports of a host adding to the same
    list; a host without such a line is not in the map, and the empty string
    is never a key. *)
Theorem ParseNmapOutput_entries_in_order output ip :
  ParseNmapOutput output !! ip
  = if bool_decide (ip = "") then None
    else match entries_for ip "" (Split output newline) with
         | [] => None
         | entries => Some entries
         end.
Proof.
  rewrite ParseNmapOutput_unfold. unfold parse_lines.
  destruct (decide (ip = "")) as [->|Hip].
  - rewrite bool_decide_eq_true_2 by done.
    by apply foldl_parse_line_no_empty_key.
  - rewrite bool_decide_eq_false_2 by done.
    rewrite foldl_parse_line_entries by done. rewrite lookup_empty.
    by destruct (entries_for _ _ _).
Qed.

(** [strings.Split] of a string with a separator in it. *)
Lemma Split_not_nil s sep : Split s sep ≠ [].
Proof.
  induction s as [|c s IH]; simpl; [done|].
  destruct (decide (c = sep)); [done|]. by destruct (Split s sep).
Qed.

Lemma Split_append s1 s2 sep :
  Split (s1 +:+ String sep s2) sep = Split s1 sep ++ Split s2 sep.
Proof.
  induction s1 as [|c s1 IH].
  - change ("" +:+ String sep s2) with (String sep s2). simpl.
    by rewrite decide_True.
  - rewrite string_append_String. simpl. rewrite IH.
    destruct (decide (c = sep)); [done|].
    pose proof (Split_not_nil s1 sep). by destruct (Split s1 sep).
Qed.

Lemma extend_prefix r l ports : r = Some ports → ∃ more, extend r l = Some (ports ++ more).
Proof.
  intros ->. destruct l as [|x l].
  - exists []. by rewrite app_nil_r.
  - by exists (x :: l).
Qed.

Lemma foldl_parse_line_extends lines results cur ip ports :
  results !! ip = Some ports →
  ∃ more, (foldl parse_line (results, cur) lines).1 !! ip = Some (ports ++ more).
Proof.
  intros Hin. destruct (decide (ip = "")) as [->|Hip].
  - revert results cur ports Hin.
    induction lines as [|line lines IH]; intros results cur ports Hin; cbn [foldl].
    + exists []. by rewrite app_nil_r.
    + destruct (host_report_line line) eqn:Hreport.
      * rewrite parse_line_report by done. by apply IH.
      * rewrite parse_line_other by done.
        destruct (has_tcp_marker line); cbn [andb]; [|by apply IH].
        destruct (decide (cur = "")) as [->|Hne].
        -- rewrite bool_decide_eq_true_2 by done. by apply IH.
        -- rewrite bool_decide_eq_false_2 by done. cbn [negb].
           destruct (entry_of line) as [|e rest]; [by apply IH|].
           apply IH. by rewrite lookup_insert_ne.
  - rewrite foldl_parse_line_entries by done. by apply extend_prefix.
Qed.

(** X3.  Parsing more output only extends: the entries that a first
    output gives a host are a prefix of the entries the host has when
    further lines follow. *)
Theorem ParseNmapOutput_more_output out1 out2 ip ports :
  ParseNmapOutput out1 !! ip = Some ports →
  ∃ more, ParseNmapOutput (out1 +:+ nl +:+ out2) !! ip = Some (ports ++ more).
Proof.
  rewrite !ParseNmapOutput_unfold. unfold parse_lines, nl. intros Hin.
  change (String newline "" +:+ out2) with (String newline out2).
  rewrite Split_append, foldl_app.
  destruct (foldl parse_line (∅, "") (Split out1 newline)) as [results cur].
  by apply foldl_parse_line_extends.
Qed.

Lemma ParseNmapOutput_more_output_witness :
  ∃ more,
    ParseNmapOutput (report_output +:+ nl +:+ "21/tcp open ftp") !! "192.168.1.1"
    = Some (["22/tcp [open] (ssh)"; "80/tcp [closed] (http)"] ++ more).
Proof.
  apply (ParseNmapOutput_more_output report_output "21/tcp open ftp" "192.168.1.1").
  vm_compute. reflexivity.
Defined.

(** ** [DiffPorts] as a difference of sets *)

Section DiffPortsMore.
Context `{MapRange}.

(** The results of [DiffPorts] as filters of the distinct entries. *)
Lemma DiffPorts_added_filter old new :
  fst (DiffPorts old new) ≡ₚ filter (fun p => p ∉ old) (remove_dups new).
Proof.
  apply NoDup_Permutation.
  - apply missing_from_NoDup.
  - apply NoDup_filter, NoDup_remove_dups.
  - intros p. unfold DiffPorts; cbn [fst].
    rewrite elem_of_missing_from, list_elem_of_filter, elem_of_remove_dups. tauto.
Qed.

Lemma DiffPorts_removed_filter old new :
  snd (DiffPorts old new) ≡ₚ filter (fun p => p ∉ new) (remove_dups old).
Proof.
  apply NoDup_Permutation.
  - apply missing_from_NoDup.
  - apply NoDup_filter, NoDup_remove_dups.
  - intros p. unfold DiffPorts; cbn [snd].
    rewrite elem_of_missing_from, list_elem_of_filter, elem_of_remove_dups. tauto.
Qed.

Lemma common_perm (old new : list string) :
  filter (fun p => p ∈ old) (remove_dups new)
  ≡ₚ filter (fun p => p ∈ new) (remove_dups old).
Proof.
  apply NoDup_Permutation; [apply NoDup_filter, NoDup_remove_dups..|].
  intros p. rewrite !list_elem_of_filter, !elem_of_remove_dups. tauto.
Qed.

Lemma length_filter_split (P : string → Prop) `{∀ x, Decision (P x)} (l : list string) :
  length l = length (filter P l) + length (filter (fun x => ¬ P x) l).
Proof. by rewrite <- length_app, filter_app_complement. Qed.

(** One loop of [DiffPorts] finds nothing exactly when every entry of the
    one list is in the other. *)
Lemma missing_from_nil l l' :
  missing_from (make_set l) (make_set l') = [] ↔ ∀ p, p ∈ l → p ∈ l'.
Proof.
  split.
  - intros Hnil p Hin. destruct (decide (p ∈ l')) as [|Hnot]; [done|].
    assert (p ∈ missing_from (make_set l) (make_set l')) as Hp
      by (by apply elem_of_missing_from).
    rewrite Hnil in Hp. by apply elem_of_nil in Hp.
  - intros Hsub. apply elem_of_nil_inv.
    intros p [Hin Hnot]%elem_of_missing_from. by apply Hnot, Hsub.
Qed.

(** A host seen for the first time: every distinct entry is added. *)
Lemma DiffPorts_nil_l new :
  fst (DiffPorts [] new) ≡ₚ remove_dups new ∧ snd (DiffPorts [] new) = [].
Proof.
  split.
  - apply NoDup_Permutation;
      [apply missing_from_NoDup|apply NoDup_remove_dups|].
    intros p. unfold DiffPorts; cbn [fst].
    rewrite elem_of_missing_from, elem_of_remove_dups, elem_of_nil. tauto.
  - apply elem_of_nil_inv. intros p. unfold DiffPorts; cbn [snd].
    rewrite elem_of_missing_from. intros [?%not_elem_of_nil _]. done.
Qed.

End DiffPortsMore.

(** X4.  [DiffPorts] finds no difference exactly when the two lists have
    the same elements: the order of a list and repeated entries are not a
    change. *)
Theorem DiffPorts_same_elements `{MapRange} (old new : list string) :
  (DiffPorts old new = ([], []) ↔ (∀ p, p ∈ old ↔ p ∈ new))
  ∧ DiffPorts old old = ([], [])
  ∧ DiffPorts old (old ++ old) = ([], [])
  ∧ DiffPorts old (reverse old) = ([], []).
Proof.
  assert (∀ l l', DiffPorts l l' = ([], []) ↔ (∀ p, p ∈ l ↔ p ∈ l')) as Hiff.
  { intros l l'. unfold DiffPorts. split.
    - intros Heq p. injection Heq as Hadded Hremoved.
      rewrite missing_from_nil in Hadded, Hremoved. split; auto.
    - intros Hsame. f_equal; apply missing_from_nil; intros p; apply Hsame. }
  split; [apply Hiff|]. repeat split; apply Hiff; intros p.
  - done.
  - rewrite elem_of_app. tauto.
  - by rewrite elem_of_reverse.
Qed.

(** X5.  The counts of [DiffPorts]: added entries plus distinct old
    entries are as many as removed entries plus distinct new entries, and
    neither result is longer than the list it is drawn from. *)
Theorem DiffPorts_counts `{MapRange} (old new : list string) :
  length (fst (DiffPorts old new)) + length (remove_dups old)
  = length (snd (DiffPorts old new)) + length (remove_dups new)
  ∧ length (fst (DiffPorts old new)) ≤ length new
  ∧ length (snd (DiffPorts old new)) ≤ length old.
Proof.
  rewrite DiffPorts_added_filter, DiffPorts_removed_filter.
  pose proof (length_filter_split (fun p => p ∈ old) (remove_dups new)) as Hnew.
  pose proof (length_filter_split (fun p => p ∈ new) (remove_dups old)) as Hold.
  rewrite common_perm in Hnew.
  pose proof (length_filter (fun p => p ∉ old) (remove_dups new)).
  pose proof (length_filter (fun p => p ∉ new) (remove_dups old)).
  pose proof (submseteq_length _ _
    (NoDup_submseteq (remove_dups new) new (NoDup_remove_dups new)
       (fun p => proj1 (elem_of_remove_dups new p)))).
  pose proof (submseteq_length _ _
    (NoDup_submseteq (remove_dups old) old (NoDup_remove_dups old)
       (fun p => proj1 (elem_of_remove_dups old p)))).
  lia.
Qed.

(** ** [CompareScans]: unchanged snapshots, totals, new hosts, orders *)

Lemma foldl_tally0 {A} (body : tally → A → tally) (l : list A) :
  (∀ t x, body t x = tally_merge t (body tally0 x)) →
  (∀ x, x ∈ l → body tally0 x = tally0) →
  foldl body tally0 l = tally0.
Proof.
  intros Hbody. induction l as [|x l IH]; intros Hl; [reflexivity|].
  rewrite foldl_merge_cons by done.
  rewrite Hl by left. rewrite IH by (intros y Hy; apply Hl; by right).
  apply merge_tally0_r.
Qed.

Lemma concat_fmap_perm {A B} (f : A → list B) (l1 l2 : list A) :
  l1 ≡ₚ l2 → concat (f <$> l1) ≡ₚ concat (f <$> l2).
Proof.
  induction 1 as [|x l1 l2 _ IH|x y l|l1 l2 l3 _ IH1 _ IH2]; simpl.
  - done.
  - by rewrite IH.
  - rewrite !app_assoc. by rewrite (Permutation_app_comm (f y) (f x)).
  - by rewrite IH1.
Qed.

Lemma tally_perm_merge t t' u u' :
  tally_perm t t' → tally_perm u u' → tally_perm (tally_merge t u) (tally_merge t' u').
Proof.
  intros (Hn & Ha & Hr & Ho) (Hn' & Ha' & Hr' & Ho').
  repeat split; simpl; [congruence..|]. by rewrite Ho, Ho'.
Qed.

Lemma tally_perm_refl t : tally_perm t t.
Proof. by repeat split. Qed.

Section Orders.
Context {A : Type} (body1 body2 : tally → A → tally).
Hypothesis body1_merge : ∀ t x, body1 t x = tally_merge t (body1 tally0 x).
Hypothesis body2_merge : ∀ t x, body2 t x = tally_merge t (body2 tally0 x).
Hypothesis bodies : ∀ x, tally_perm (body1 tally0 x) (body2 tally0 x).

Lemma foldl_bodies l :
  tally_perm (foldl body1 tally0 l) (foldl body2 tally0 l).
Proof using All.
  induction l as [|x l IH]; [apply tally_perm_refl|].
  rewrite !foldl_merge_cons by done. by apply tally_perm_merge.
Qed.

Lemma foldl_order l1 l2 :
  l1 ≡ₚ l2 → tally_perm (foldl body1 tally0 l1) (foldl body1 tally0 l2).
Proof using body1_merge.
  intros Hperm. repeat split.
  - pose proof (foldl_noChanges_false body1 body1_merge l1) as H1.
    pose proof (foldl_noChanges_false body1 body1_merge l2) as H2.
    destruct (noChanges (foldl body1 tally0 l1)),
             (noChanges (foldl body1 tally0 l2)); try done.
    + destruct H2 as [[x [Hx Hfalse]] _]; [done|].
      rewrite <- Hperm in Hx. destruct H1 as [_ H1]. apply H1. by exists x.
    + destruct H1 as [[x [Hx Hfalse]] _]; [done|].
      rewrite Hperm in Hx. destruct H2 as [_ H2]. symmetry. apply H2. by exists x.
  - rewrite !foldl_totalAdded by done. by rewrite Hperm.
  - rewrite !foldl_totalRemoved by done. by rewrite Hperm.
  - rewrite !foldl_out by done. by apply concat_fmap_perm.
Qed.

Lemma foldl_orders l1 l2 :
  l1 ≡ₚ l2 → tally_perm (foldl body1 tally0 l1) (foldl body2 tally0 l2).
Proof using All.
  intros Hperm.
  destruct (foldl_order l1 l2 Hperm) as (Hn & Ha & Hr & Ho).
  destruct (foldl_bodies l2) as (Hn' & Ha' & Hr' & Ho').
  repeat split; [congruence..|]. by rewrite Ho.
Qed.

End Orders.

Lemma missing_from_orders (o1 o2 : MapRange) l l' :
  @missing_from o1 (make_set l) (make_set l') ≡ₚ @missing_from o2 (make_set l) (make_set l').
Proof.
  apply NoDup_Permutation; [apply missing_from_NoDup..|].
  intros p. by rewrite !elem_of_missing_from.
Qed.

Lemma compare_host_orders (o1 o2 : MapRange) old e :
  tally_perm (@compare_host o1 old tally0 e) (@compare_host o2 old tally0 e).
Proof.
  destruct e as [ip newPorts]. unfold compare_host, DiffPorts.
  set (oldPorts := default [] (Ports old !! ip)).
  pose proof (missing_from_orders o1 o2 newPorts oldPorts) as Hadded.
  pose proof (missing_from_orders o1 o2 oldPorts newPorts) as Hremoved.
  pose proof (Permutation_length Hadded) as Hla.
  pose proof (Permutation_length Hremoved) as Hlr.
  rewrite <- Hla, <- Hlr.
  destruct (0 <? length (@missing_from o1 _ _)),
           (0 <? length (@missing_from o1 (make_set oldPorts) _)); cbn [orb];
    repeat split; simpl; try done; try lia;
    rewrite ?app_nil_r, <- ?app_assoc; simpl;
    repeat first [ apply Permutation_skip | apply Permutation_app
                 | by apply fmap_Permutation | done ].
Qed.

Section CompareMore.
Context `{MapRange}.

Lemma DiffPorts_nil_iff old new :
  DiffPorts old new = ([], []) ↔ (∀ p, p ∈ old ↔ p ∈ new).
Proof.
  unfold DiffPorts. split.
  - intros Heq p. injection Heq as Hadded Hremoved.
    rewrite missing_from_nil in Hadded, Hremoved. split; auto.
  - intros Hsame. f_equal; apply missing_from_nil; intros p; apply Hsame.
Qed.

Lemma same_ports_unchanged old new : same_ports old new ↔ ¬ changes_detected old new.
Proof.
  unfold same_ports, changes_detected, host_changed, host_vanished. split.
  - intros [Hhosts Hsame] [[ip [newPorts [Hin Hdiff]]]|[ip [Hold Hnone]]].
    + apply Hdiff, DiffPorts_nil_iff. by apply Hsame.
    + apply Hhosts in Hold as [ports Hsome]. congruence.
  - intros Hno. split.
    + intros ip Hold. destruct (Ports new !! ip) eqn:Hnew; [by eexists|].
      destruct Hno. right. by exists ip.
    + intros ip newPorts Hin. apply DiffPorts_nil_iff.
      destruct (decide (DiffPorts (default [] (Ports old !! ip)) newPorts = ([], [])))
        as [|Hdiff]; [done|].
      destruct Hno. left. by exists ip, newPorts.
Qed.

Lemma same_ports_same_map (old new : ScanResult) :
  Ports old = Ports new → same_ports old new.
Proof.
  intros Heq. split.
  - intros ip. by rewrite Heq.
  - intros ip newPorts Hin p. by rewrite Heq, Hin.
Qed.

Lemma compare_host_unchanged old ip newPorts :
  DiffPorts (default [] (Ports old !! ip)) newPorts = ([], []) →
  compare_host old tally0 (ip, newPorts) = tally0.
Proof. intros Hdiff. unfold compare_host. by rewrite Hdiff. Qed.

(** Without a change the loops leave the tally as it is. *)
Lemma compare_hosts_unchanged old new t :
  ¬ changes_detected old new → compare_hosts old new t = t.
Proof.
  intros Hsame%same_ports_unchanged. destruct Hsame as [Hhosts Hsame].
  rewrite compare_hosts_merge.
  rewrite (foldl_tally0 (compare_host old)), (foldl_tally0 (vanished_host new)).
  - by rewrite !merge_tally0_r.
  - apply vanished_host_merge.
  - intros [ip oldPorts] Hin%elem_of_range.
    apply vanished_host_present, Hhosts. by eexists.
  - apply compare_host_merge.
  - intros [ip newPorts] Hin%elem_of_range.
    apply compare_host_unchanged, DiffPorts_nil_iff. by apply Hsame.
Qed.

(** The totals, counted without an order. *)
Lemma compare_host_fresh old ip newPorts :
  totalAdded (compare_host old tally0 (ip, newPorts))
  = fresh (default [] (Ports old !! ip)) newPorts
  ∧ totalRemoved (compare_host old tally0 (ip, newPorts))
    = fresh newPorts (default [] (Ports old !! ip)).
Proof.
  rewrite compare_host_totalAdded, compare_host_totalRemoved. unfold fresh.
  by rewrite DiffPorts_added_filter, DiffPorts_removed_filter.
Qed.

Lemma vanished_host_totalRemoved new ip oldPorts :
  totalRemoved (vanished_host new tally0 (ip, oldPorts))
  = if Ports new !! ip is None then length oldPorts else 0.
Proof.
  destruct (Ports new !! ip) eqn:Hnew.
  - by rewrite vanished_host_present by (by rewrite Hnew).
  - by rewrite vanished_host_absent.
Qed.

Lemma sum_list_with_ext_in {A} (f g : A → nat) l :
  (∀ x, x ∈ l → f x = g x) → sum_list_with f l = sum_list_with g l.
Proof.
  induction l as [|x l IH]; intros Hfg; simpl; [done|].
  rewrite Hfg by left. rewrite IH; [done|]. intros y Hy. apply Hfg. by right.
Qed.

Lemma compare_hosts_totals old new elapsed :
  totalAdded (compare_hosts old new (start elapsed)) = ports_added old new
  ∧ totalRemoved (compare_hosts old new (start elapsed)) = ports_removed old new.
Proof.
  rewrite compare_hosts_merge. cbn [tally_merge totalAdded totalRemoved start].
  rewrite second_loop_totalAdded.
  rewrite (foldl_totalAdded (compare_host old)) by apply compare_host_merge.
  rewrite (foldl_totalRemoved (compare_host old)) by apply compare_host_merge.
  rewrite (foldl_totalRemoved (vanished_host new)) by apply vanished_host_merge.
  rewrite !range_perm. unfold ports_added, ports_removed. split.
  - rewrite Nat.add_0_r. simpl. apply sum_list_with_ext_in.
    intros [ip newPorts] _. apply compare_host_fresh.
  - simpl. f_equal; apply sum_list_with_ext_in.
    + intros [ip newPorts] _. apply compare_host_fresh.
    + intros [ip oldPorts] _. apply vanished_host_totalRemoved.
Qed.

(** A host that only the new snapshot has. *)
Lemma vanished_host_without new ip t e :
  fst e ≠ ip → vanished_host (without ip new) t e = vanished_host new t e.
Proof.
  destruct e as [ip' oldPorts]. simpl. intros Hne.
  unfold vanished_host, without. cbn [Ports]. by rewrite lookup_delete_ne.
Qed.

Lemma second_loop_without old new ip t :
  Ports old !! ip = None →
  foldl (vanished_host (without ip new)) t (range (Ports old))
  = foldl (vanished_host new) t (range (Ports old)).
Proof.
  intros Hnone. apply foldl_ext_in. intros t' [ip' oldPorts] Hin.
  apply vanished_host_without. simpl. intros ->.
  apply elem_of_range in Hin. congruence.
Qed.

Lemma compare_host_new_host old ip newPorts :
  Ports old !! ip = None → newPorts ≠ [] →
  ∃ added, added ≡ₚ remove_dups newPorts
    ∧ compare_host old tally0 (ip, newPorts)
      = {| noChanges := false; totalAdded := length added; totalRemoved := 0;
           out := new_host_report ip added |}.
Proof.
  intros Hnone Hports. unfold compare_host. rewrite Hnone. cbn [default].
  destruct (DiffPorts_nil_l newPorts) as [Hadded Hremoved].
  destruct (DiffPorts [] newPorts) as [added removed]. cbn [fst snd] in *.
  subst removed. exists added. split; [done|].
  destruct added as [|p added].
  - apply Permutation_nil_l in Hadded.
    destruct newPorts as [|q newPorts]; [done|].
    assert (q ∈ remove_dups (q :: newPorts)) as Hq
      by (apply elem_of_remove_dups; left).
    rewrite <- Hadded in Hq. by apply elem_of_nil in Hq.
  - reflexivity.
Qed.

Lemma compare_hosts_new_host old new ip newPorts t :
  Ports old !! ip = None →
  Ports new !! ip = Some newPorts →
  newPorts ≠ [] →
  ∃ added before after,
    added ≡ₚ remove_dups newPorts
    ∧ totalAdded (compare_hosts old new t)
      = totalAdded (compare_hosts old (without ip new) t) + length added
    ∧ totalRemoved (compare_hosts old new t)
      = totalRemoved (compare_hosts old (without ip new) t)
    ∧ out (compare_hosts old new t) = before ++ new_host_report ip added ++ after.
Proof.
  intros Hold Hnew Hports.
  destruct (compare_host_new_host old ip newPorts Hold Hports) as (added & Hperm & Hhost).
  assert ((ip, newPorts) ∈ range (Ports new)) as Hin by (by apply elem_of_range).
  apply list_elem_of_split in Hin as [l1 [l2 Hsplit]].
  exists added,
    (out t ++ concat ((fun e => out (compare_host old tally0 e)) <$> l1)),
    (concat ((fun e => out (compare_host old tally0 e)) <$> l2)
     ++ out (foldl (vanished_host new) tally0 (range (Ports old)))).
  split; [done|].
  rewrite !compare_hosts_merge. cbn [tally_merge totalAdded totalRemoved out].
  rewrite second_loop_without by done. cbn [without Ports].
  rewrite !(foldl_totalAdded (compare_host old)) by apply compare_host_merge.
  rewrite !(foldl_totalRemoved (compare_host old)) by apply compare_host_merge.
  rewrite (sum_range_delete (fun e => totalAdded (compare_host old tally0 e))
             (Ports new) ip newPorts Hnew).
  rewrite (sum_range_delete (fun e => totalRemoved (compare_host old tally0 e))
             (Ports new) ip newPorts Hnew).
  rewrite Hhost. cbn [totalAdded totalRemoved].
  split; [lia|]. split; [lia|].
  rewrite (foldl_out (compare_host old)) by apply compare_host_merge.
  rewrite Hsplit, fmap_app, fmap_cons, concat_app, concat_cons, Hhost.
  cbn [out]. by rewrite <- !app_assoc.
Qed.

End CompareMore.

(** Without a change the trace is the header and the no-change line. *)
Lemma CompareScans_unchanged_trace `{TimeLib} `{MapRange}
    (old new : ScanResult) (oldTime newTime : Time) :
  time_Parse (DateTime old) = inl oldTime →
  time_Parse (DateTime new) = inl newTime →
  ¬ changes_detected old new →
  CompareScans old new
  = [header (time_Sub newTime oldTime); Println "No changes detected."].
Proof.
  intros Hold Hnew Hsame.
  rewrite (CompareScans_parsed old new oldTime newTime) by done. cbn zeta.
  by rewrite compare_hosts_unchanged.
Qed.

(** X6.  With both timestamps parsed, [CompareScans] prints exactly the
    header and the line [No changes detected.] (and so saves nothing) if
    and only if every host of the old snapshot is in the new one and every
    host of the new one lists the same set of entries as before. *)
Theorem CompareScans_same_ports `{TimeLib} `{MapRange}
    (old new : ScanResult) (oldTime newTime : Time) :
  time_Parse (DateTime old) = inl oldTime →
  time_Parse (DateTime new) = inl newTime →
  same_ports old new
  ↔ CompareScans old new
    = [header (time_Sub newTime oldTime); Println "No changes detected."].
Proof.
  intros Hold Hnew. split.
  - intros Hsame%same_ports_unchanged.
    by apply CompareScans_unchanged_trace.
  - intros Htrace. apply same_ports_unchanged. intros Hchanged.
    destruct (CompareScans_changed old new oldTime newTime Hold Hnew Hchanged)
      as (prints & _ & Heq).
    rewrite Heq in Htrace. apply (f_equal last) in Htrace.
    rewrite last_snoc in Htrace. discriminate.
Qed.

Lemma CompareScans_same_ports_witness :
  CompareScans scan_tuesday scan_wednesday
  = [header (21 * GoTime.Hour + 45 * GoTime.Minute); Println "No changes detected."].
Proof.
  apply (@CompareScans_same_ports rfc3339 sorted_range scan_tuesday scan_wednesday
           1714476600000000000%Z 1714554900000000000%Z);
    [vm_compute; reflexivity..|].
  split.
  - intros ip [ports Hin]. unfold scan_tuesday, scan_wednesday in *. cbn [Ports] in *.
    apply lookup_insert_Some in Hin as [[<- _]|[_ Hin]]; [|by rewrite lookup_empty in Hin].
    rewrite lookup_insert_eq. by eexists.
  - intros ip newPorts Hin p. unfold scan_tuesday, scan_wednesday in *. cbn [Ports] in *.
    apply lookup_insert_Some in Hin as [[<- <-]|[_ Hin]]; [|by rewrite lookup_empty in Hin].
    rewrite lookup_insert_eq. cbv [default from_option id].
    rewrite !elem_of_cons, elem_of_nil. tauto.
Defined.

(** X7.  When something changed, the summary is the last line printed, it
    is followed by the save, and its two numbers are sums over the hosts
    that no order of iteration enters: per host of the new snapshot the
    distinct entries that are new and those that are gone, and for every
    host missing from the new snapshot the length of its old list, repeated
    entries included. *)
Theorem CompareScans_summary_totals `{TimeLib} `{MapRange}
    (old new : ScanResult) (oldTime newTime : Time) :
  time_Parse (DateTime old) = inl oldTime →
  time_Parse (DateTime new) = inl newTime →
  ¬ same_ports old new →
  ∃ prints,
    Forall is_Print prints
    ∧ CompareScans old new
      = prints ++ [summary (ports_added old new) (ports_removed old new); Save new].
Proof.
  intros Hold Hnew Hdiff.
  rewrite (CompareScans_parsed old new oldTime newTime) by done. cbn zeta.
  destruct (compare_hosts_totals old new (time_Sub newTime oldTime)) as [-> ->].
  destruct (noChanges _) eqn:Hno.
  - destruct Hdiff. apply same_ports_unchanged. intros Hchanged.
    apply (compare_hosts_noChanges old new (time_Sub newTime oldTime)) in Hchanged.
    congruence.
  - eexists. split; [|reflexivity].
    apply compare_hosts_prints, start_prints.
Qed.

Lemma CompareScans_summary_totals_witness :
  ∃ prints,
    Forall is_Print prints
    ∧ CompareScans scan_monday scan_tuesday
      = prints ++ [summary 1 3; Save scan_tuesday].
Proof.
  apply (@CompareScans_summary_totals rfc3339 sorted_range scan_monday scan_tuesday
           1714384800000000000%Z 1714476600000000000%Z);
    [vm_compute; reflexivity..|].
  intros [Hhosts _]. destruct (Hhosts "192.168.1.7") as [ports Hin].
  - eexists. vm_compute. reflexivity.
  - vm_compute in Hin. discriminate.
Defined.

(** X8.  A host that only the new snapshot has, with at least one entry:
    each of its distinct entries counts as added and none as removed (the
    totals are those of the comparison without that host, plus the number
    of its distinct entries on the added side), the host is reported with
    one added line per distinct entry, and the summary and the save
    follow. *)
Theorem CompareScans_new_host `{TimeLib} `{MapRange}
    (old new : ScanResult) (oldTime newTime : Time) ip newPorts :
  time_Parse (DateTime old) = inl oldTime →
  time_Parse (DateTime new) = inl newTime →
  Ports old !! ip = None →
  Ports new !! ip = Some newPorts →
  newPorts ≠ [] →
  let t := compare_hosts old new (start (time_Sub newTime oldTime)) in
  let t' := compare_hosts old (without ip new) (start (time_Sub newTime oldTime)) in
  ∃ added before after,
    added ≡ₚ remove_dups newPorts
    ∧ totalAdded t = totalAdded t' + length added
    ∧ totalRemoved t = totalRemoved t'
    ∧ out t = before ++ new_host_report ip added ++ after
    ∧ CompareScans old new
      = out t ++ [summary (totalAdded t) (totalRemoved t); Save new].
Proof.
  intros Hold Hnew Hnone Hin Hports t t'.
  destruct (compare_hosts_new_host old new ip newPorts
              (start (time_Sub newTime oldTime)) Hnone Hin Hports)
    as (added & before & after & Hperm & Hadd & Hrem & Hout).
  exists added, before, after. repeat (split; [done|]).
  rewrite (CompareScans_parsed old new oldTime newTime) by done. cbn zeta. fold t.
  assert (noChanges t = false) as ->; [|done].
  apply compare_hosts_noChanges. left. exists ip, newPorts. split; [done|].
  rewrite Hnone. cbv [default from_option id]. intros Hdiff.
  pose proof (proj1 (DiffPorts_nil_iff [] newPorts) Hdiff) as Hsame.
  destruct newPorts as [|p newPorts]; [done|].
  assert (p ∈ @nil string) as Hp by (apply Hsame; left). by apply elem_of_nil in Hp.
Qed.

Lemma CompareScans_new_host_witness :
  ∃ added before after,
    added ≡ₚ remove_dups ["8080/tcp [open] (http-proxy)"; "22/tcp [open] (ssh)";
                          "8080/tcp [open] (http-proxy)"]
    ∧ CompareScans scan_tuesday scan_thursday
      = before ++ new_host_report "192.168.1.20" added ++ after.
Proof.
  destruct (@CompareScans_new_host rfc3339 sorted_range scan_tuesday scan_thursday
              1714476600000000000%Z 1714636800000000000%Z "192.168.1.20"
              ["8080/tcp [open] (http-proxy)"; "22/tcp [open] (ssh)";
               "8080/tcp [open] (http-proxy)"])
    as (added & before & after & Hperm & _ & _ & Hout & Htrace);
    [vm_compute; reflexivity..|discriminate|].
  exists added, before. eexists. split; [exact Hperm|].
  rewrite Htrace, Hout, <- !app_assoc. reflexivity.
Defined.

(** X9.  The order in which the maps are ranged over only permutes the
    report: under any two orders the traces of [CompareScans] are
    permutations of each other, with the same first line (the header or an
    error) and the same last action (the no-change line, the error, or the
    save after the same summary). *)
Theorem CompareScans_order_independent `{TimeLib} (order1 order2 : MapRange)
    (old new : ScanResult) :
  @CompareScans _ order1 old new ≡ₚ @CompareScans _ order2 old new
  ∧ head (@CompareScans _ order1 old new) = head (@CompareScans _ order2 old new)
  ∧ last (@CompareScans _ order1 old new) = last (@CompareScans _ order2 old new).
Proof.
  unfold CompareScans.
  destruct (time_Parse (DateTime old)) as [oldTime|err]; [|done].
  destruct (time_Parse (DateTime new)) as [newTime|err]; [|done].
  cbn zeta. fold (start (time_Sub newTime oldTime)).
  set (t1 := @compare_hosts order1 old new _).
  set (t2 := @compare_hosts order2 old new _).
  assert (tally_perm t1 t2 ∧ head (out t1) = head (out t2)
          ∧ out t1 ≠ [] ∧ out t2 ≠ []) as [(Hn & Ha & Hr & Ho) (Hhead & Hne1 & Hne2)].
  { subst t1 t2. rewrite !compare_hosts_merge. split; [|by repeat split].
    apply tally_perm_merge; [apply tally_perm_refl|].
    apply tally_perm_merge.
    - apply foldl_orders;
        [apply compare_host_merge..|apply compare_host_orders|].
      by rewrite !range_perm.
    - apply foldl_order; [apply vanished_host_merge|]. by rewrite !range_perm. }
  rewrite <- Hn, <- Ha, <- Hr.
  assert (∀ tail : list action,
            head (out t1 ++ tail) = head (out t2 ++ tail)) as Hheads
    by (intros tail; destruct (out t1), (out t2); done).
  destruct (noChanges t1).
  - split; [by rewrite Ho|]. split; [apply Hheads|]. by rewrite !last_snoc.
  - split; [by rewrite Ho|]. split; [apply Hheads|].
    change [summary (totalAdded t1) (totalRemoved t1); Save new]
      with ([summary (totalAdded t1) (totalRemoved t1)] ++ [Save new]).
    by rewrite !app_assoc, !last_snoc.
Qed.

(** ** [formatElapsedTime] on the durations of the exact domain *)

(** X10.  On a duration of the exact domain that is not negative,
    [formatElapsedTime] renders whole minutes below one hour, whole hours
    and the minutes of the hour below one day, and whole days and the hours
    of the day from one day on; seconds are dropped, nothing is rounded
    up. *)
Theorem formatElapsedTime_nonnegative (d : Z) :
  exact_domain d →
  (0 ≤ d)%Z →
  formatElapsedTime d
  = if (d <? GoTime.Hour)%Z then
      pretty (d / GoTime.Minute)%Z +:+ " minutes"
    else if (d <? Day)%Z then
      pretty (d / GoTime.Hour)%Z +:+ " hours, "
      +:+ pretty ((d / GoTime.Minute) mod 60)%Z +:+ " minutes"
    else
      pretty (d / Day)%Z +:+ " days, "
      +:+ pretty ((d / GoTime.Hour) mod 24)%Z +:+ " hours".
Proof.
  intros Hd Hpos. rewrite (Float64.formatElapsedTime_exact d Hd).
  unfold elapsed_as_claimed, Day, GoTime.Hour, GoTime.Minute, GoTime.Second.
  change (24 * (60 * (60 * 1000000000)))%Z with 86400000000000%Z.
  change (60 * (60 * 1000000000))%Z with 3600000000000%Z.
  change (60 * 1000000000)%Z with 60000000000%Z.
  rewrite (Z.quot_div_nonneg d 3600000000000), (Z.quot_div_nonneg d 60000000000)
    by lia.
  assert (0 ≤ d / 3600000000000)%Z by (apply Z.div_pos; lia).
  assert (0 ≤ d / 60000000000)%Z by (apply Z.div_pos; lia).
  rewrite !Z.quot_div_nonneg, !Z.rem_mod_nonneg by lia.
  rewrite Z.div_div by lia. change (3600000000000 * 24)%Z with 86400000000000%Z.
  destruct (Z.leb_spec 86400000000000 d), (Z.ltb_spec d 86400000000000); try lia;
    destruct (Z.leb_spec 3600000000000 d), (Z.ltb_spec d 3600000000000); try lia;
    try reflexivity.
  rewrite Z.mod_small; [reflexivity|].
  split; [lia|]. apply Z.div_lt_upper_bound; lia.
Qed.

Lemma formatElapsedTime_nonnegative_witness :
  formatElapsedTime (49 * GoTime.Hour + 59 * GoTime.Minute + 59 * GoTime.Second)
  = "2 days, 1 hours".
Proof.
  rewrite (formatElapsedTime_nonnegative
             (49 * GoTime.Hour + 59 * GoTime.Minute + 59 * GoTime.Second)).
  - vm_compute. reflexivity.
  - split; [vm_compute; split; discriminate|]. left. vm_compute. reflexivity.
  - vm_compute. discriminate.
Defined.

(** X11.  On a duration of the exact domain that is negative or zero (the
    new timestamp is not after the old one) [formatElapsedTime] prints only
    the minutes of the hour, with their sign: whole hours and days are
    dropped. *)
Theorem formatElapsedTime_negative (d : Z) :
  exact_domain d →
  (d ≤ 0)%Z →
  formatElapsedTime d = pretty (- ((- d / GoTime.Minute) mod 60))%Z +:+ " minutes".
Proof.
  intros Hd Hneg. rewrite (Float64.formatElapsedTime_exact d Hd).
  unfold elapsed_as_claimed, Day, GoTime.Hour, GoTime.Minute, GoTime.Second.
  change (24 * (60 * (60 * 1000000000)))%Z with 86400000000000%Z.
  change (60 * (60 * 1000000000))%Z with 3600000000000%Z.
  change (60 * 1000000000)%Z with 60000000000%Z.
  destruct (Z.leb_spec 86400000000000 d); [lia|].
  destruct (Z.leb_spec 3600000000000 d); [lia|].
  do 2 f_equal.
  rewrite <- (Z.opp_involutive d) at 1. rewrite Z.quot_opp_l by lia.
  assert (0 ≤ - d / 60000000000)%Z by (apply Z.div_pos; lia).
  rewrite Z.quot_div_nonneg by lia.
  rewrite Z.rem_opp_l by lia. by rewrite Z.rem_mod_nonneg by lia.
Qed.

Lemma formatElapsedTime_negative_witness :
  formatElapsedTime (- (25 * GoTime.Hour + 30 * GoTime.Minute)) = "-30 minutes".
Proof.
  rewrite (formatElapsedTime_negative (- (25 * GoTime.Hour + 30 * GoTime.Minute))).
  - vm_compute. reflexivity.
  - split; [vm_compute; split; discriminate|]. left. vm_compute. reflexivity.
  - vm_compute. discriminate.
Defined.

(** ** [RunScan]: its checks, the command it builds, its result *)

Lemma RunScan_command_args command target :
  TrimSpace command ≠ "" → TrimSpace target ≠ "" →
  ∃ prog rest,
    Fields (TrimSpace command) = prog :: rest
    ∧ prog ≠ ""
    ∧ Forall (fun f => f ≠ "") rest
    ∧ RunScan_command command target
      = Ok (exec_Command
              (if bool_decide (prog = "sudo") && (1 <? length (prog :: rest))
               then nth 1 (prog :: rest) "" else prog)
              (rest ++ [TrimSpace target])).
Proof.
  intros Hcommand Htarget.
  pose proof (Fields_TrimSpace_not_nil command Hcommand) as Hfields.
  pose proof (Fields_nonempty (TrimSpace command)) as Hall.
  unfold RunScan_command.
  rewrite !bool_decide_eq_false_2 by done.
  destruct (Fields (TrimSpace command)) as [|prog rest]; [done|].
  apply Forall_cons in Hall as [Hprog Hrest].
  by exists prog, rest.
Qed.

(** X12.  The checks of [RunScan], in their order: a command that is
    blank after trimming is refused first, then a blank target, both before
    anything is run (the error is the same on every machine).  Otherwise a
    command is built: the trimmed command has a first field, so [args[0]]
    is in range, the program is one of the fields of the command and is not
    empty, and the trimmed target is the last argument, passed as one
    argument. *)
Theorem RunScan_validation `{Host} (command target : string) :
  (TrimSpace command = "" →
   RunScan command target = Err (errorString "scan command cannot be empty"))
  ∧ (TrimSpace command ≠ "" → TrimSpace target = "" →
     RunScan command target = Err (errorString "target cannot be empty"))
  ∧ (TrimSpace command ≠ "" → TrimSpace target ≠ "" →
     ∃ cmd, RunScan_command command target = Ok cmd
       ∧ Fields (TrimSpace command) ≠ []
       ∧ Path cmd ∈ Fields (TrimSpace command)
       ∧ Path cmd ≠ ""
       ∧ head (Args cmd) = Some (Path cmd)
       ∧ last (Args cmd) = Some (TrimSpace target)).
Proof.
  split; [|split].
  - intros Hcommand. unfold RunScan, RunScan_command.
    by rewrite bool_decide_eq_true_2.
  - intros Hcommand Htarget. unfold RunScan, RunScan_command.
    by rewrite bool_decide_eq_false_2, bool_decide_eq_true_2.
  - intros Hcommand Htarget.
    destruct (RunScan_command_args command target Hcommand Htarget)
      as (prog & rest & Hfields & Hprog & Hrest & ->).
    eexists. split; [reflexivity|]. rewrite Hfields.
    split; [done|]. cbn [exec_Command Path Args head].
    assert (∀ l x (y : string), last (x :: l ++ [y]) = Some y) as Hlast.
    { intros l x y. by rewrite app_comm_cons, last_snoc. }
    rewrite Hlast.
    destruct (bool_decide (prog = "sudo") && (1 <? length (prog :: rest))) eqn:Hsudo.
    + destruct rest as [|real rest]; [by rewrite andb_false_r in Hsudo|].
      apply Forall_cons in Hrest as [Hreal _]. cbn [nth].
      repeat split; try done. right. left.
    + repeat split; try done. left.
Qed.

(** X13.  A command whose first field is not [sudo], or that is [sudo]
    alone, is run as it stands: the program is the first field and the
    arguments are the fields, then the trimmed target. *)
Theorem RunScan_command_no_sudo (command target prog : string) (rest : list string) :
  Fields (TrimSpace command) = prog :: rest →
  prog ≠ "sudo" ∨ rest = [] →
  TrimSpace target ≠ "" →
  RunScan_command command target
  = Ok (original_command (prog :: rest) (TrimSpace target)).
Proof.
  intros Hfields Hplain Htarget.
  assert (TrimSpace command ≠ "") as Hcommand
    by (intros Hempty; rewrite Hempty, Fields_empty in Hfields; discriminate).
  destruct (RunScan_command_args command target Hcommand Htarget)
    as (prog' & rest' & Hfields' & _ & _ & ->).
  rewrite Hfields in Hfields'. injection Hfields' as <- <-.
  unfold original_command. cbn [hd tail]. do 2 f_equal.
  destruct Hplain as [Hprog| ->].
  - by rewrite bool_decide_eq_false_2.
  - by rewrite andb_false_r.
Qed.

Lemma RunScan_command_no_sudo_witness :
  RunScan_command "  nmap -sV   -p 22,80 " " 192.168.1.1"
  = Ok {| Path := "nmap"; Args := ["nmap"; "-sV"; "-p"; "22,80"; "192.168.1.1"] |}
  ∧ RunScan_command "sudo" "192.168.1.1"
    = Ok {| Path := "sudo"; Args := ["sudo"; "192.168.1.1"] |}.
Proof.
  split.
  - apply (RunScan_command_no_sudo "  nmap -sV   -p 22,80 " " 192.168.1.1"
             "nmap" ["-sV"; "-p"; "22,80"]).
    + vm_compute. reflexivity.
    + left. discriminate.
    + vm_compute. discriminate.
  - apply (RunScan_command_no_sudo "sudo" "192.168.1.1" "sudo" []).
    + vm_compute. reflexivity.
    + by right.
    + vm_compute. discriminate.
Defined.

(** X14.  A snapshot that [RunScan] returns comes from a command that
    was built and ran without an error; it carries the time of the machine
    and the parse of what the command wrote, so none of its hosts has an
    empty list and none is the empty string. *)
Theorem RunScan_result `{Host} (command target : string) (scan : ScanResult) :
  RunScan command target = Ok scan →
  (∃ cmd output,
     RunScan_command command target = Ok cmd
     ∧ cmd_Run cmd = (None, output)
     ∧ Ports scan = ParseNmapOutput output)
  ∧ DateTime scan = time_Now
  ∧ no_empty_host (Ports scan)
  ∧ Ports scan !! "" = None.
Proof.
  unfold RunScan. intros Hscan.
  destruct (RunScan_command command target) as [cmd|e]; [|done].
  destruct (cmd_Run cmd) as [[err|] output] eqn:Hrun; [done|].
  injection Hscan as <-. cbn [Ports DateTime].
  split; [by exists cmd, output|]. split; [done|]. split.
  - rewrite ParseNmapOutput_unfold.
    apply (foldl_parse_line_no_empty_host (Split output newline) (∅, "")).
    apply map_Forall_empty.
  - rewrite ParseNmapOutput_unfold. by apply foldl_parse_line_no_empty_key.
Qed.

Lemma RunScan_result_witness :
  @RunScan sample_host "nmap -sV" "192.168.1.1" = Ok scan_router
  ∧ DateTime scan_router = "2024-04-30T11:30:00Z"
  ∧ Ports scan_router !! "" = None.
Proof.
  assert (@RunScan sample_host "nmap -sV" "192.168.1.1" = Ok scan_router) as Hscan
    by (vm_compute; reflexivity).
  split; [exact Hscan|].
  destruct (@RunScan_result sample_host "nmap -sV" "192.168.1.1" scan_router Hscan)
    as (_ & Htime & _ & Hkey).
  split; [exact Htime|exact Hkey].
Defined.

(** ** The store: [EnsureScanFolderExists], [SaveScan], [LoadPreviousScan] *)

Example json_text_sample :
  json_MarshalIndent scan_tuesday
  = "{" +:+ nl +:+
    "  " +:+ JsonText.literal "datetime" +:+ ": "
         +:+ JsonText.literal "2024-04-30T11:30:00Z" +:+ "," +:+ nl +:+
    "  " +:+ JsonText.literal "ports" +:+ ": {" +:+ nl +:+
    "    " +:+ JsonText.literal "192.168.1.1" +:+ ": [" +:+ nl +:+
    "      " +:+ JsonText.literal "443/tcp [open] (https)" +:+ nl +:+
    "    ]" +:+ nl +:+
    "  }" +:+ nl +:+
    "}"
  ∧ json_Unmarshal (json_MarshalIndent scan_tuesday) = Some scan_tuesday
  ∧ json_Unmarshal (json_MarshalIndent scan_monday) = Some scan_monday
  ∧ json_Unmarshal (json_MarshalIndent scan_router) = Some scan_router.
Proof. repeat split; vm_compute; reflexivity. Qed.

Section Store.
Context `{Json}.

(** X15.  [EnsureScanFolderExists] creates an empty folder exactly when
    nothing has its name and otherwise leaves the store alone; it reports
    success also when the name is taken by something that is no directory;
    it never touches the two files, and a second call changes nothing. *)
Theorem EnsureScanFolderExists_idempotent (s : Store) :
  let s' := snd (EnsureScanFolderExists s) in
  fst (EnsureScanFolderExists s) = None
  ∧ (s = NoFolder → s' = Folder None None)
  ∧ (s ≠ NoFolder → s' = s)
  ∧ slot scanFile s' = slot scanFile s
  ∧ slot backupScanFile s' = slot backupScanFile s
  ∧ EnsureScanFolderExists s' = (None, s').
Proof. destruct s as [| |current backup]; repeat split; done. Qed.

(** X16.  [SaveScan] on every store: it fails only when [scan_data] is
    not a directory, and then leaves the store as it was; otherwise the
    current file holds the new snapshot, and the backup holds the previous
    current file if there was one and is left as it was if not (a first
    save creates the folder and has nothing to rotate). *)
Theorem SaveScan_every_store (scan : ScanResult) (s : Store) :
  let s' := snd (SaveScan scan s) in
  (fst (SaveScan scan s) = None ↔ s ≠ NotADir)
  ∧ (s = NotADir → SaveScan scan s = (Some (PathError ENOTDIR), NotADir))
  ∧ (s ≠ NotADir →
     slot scanFile s' = Some (json_MarshalIndent scan)
     ∧ slot backupScanFile s'
       = match slot scanFile s with
         | Some previous => Some previous
         | None => slot backupScanFile s
         end).
Proof.
  destruct s as [| |[current|] backup]; cbn zeta.
  - rewrite SaveScan_NoFolder. repeat split; done.
  - rewrite SaveScan_NotADir. repeat split; done.
  - rewrite SaveScan_rotate. repeat split; done.
  - rewrite SaveScan_first. repeat split; done.
Qed.

(** X17.  [LoadPreviousScan] only reads: the store is unchanged.  It
    returns a snapshot exactly when the current file exists and decodes to
    it, a path error when there is no current file, and a syntax error when
    the file does not decode; the backup file is never consulted. *)
Theorem LoadPreviousScan_reads_current (s : Store) :
  snd (LoadPreviousScan s) = s
  ∧ (∀ scan, fst (LoadPreviousScan s) = Ok scan
       ↔ ∃ data, slot scanFile s = Some data ∧ json_Unmarshal data = Some scan)
  ∧ (slot scanFile s = None → ∃ e, fst (LoadPreviousScan s) = Err (PathError e))
  ∧ (∀ data, slot scanFile s = Some data → json_Unmarshal data = None →
       fst (LoadPreviousScan s) = Err SyntaxError)
  ∧ (∀ current backup backup',
       fst (LoadPreviousScan (Folder current backup))
       = fst (LoadPreviousScan (Folder current backup'))).
Proof.
  assert (∀ current backup backup',
            fst (LoadPreviousScan (Folder current backup))
            = fst (LoadPreviousScan (Folder current backup'))) as Hbackup
    by (intros [data|] backup backup';
        [by rewrite !LoadPreviousScan_current|reflexivity]).
  unfold LoadPreviousScan, io_bind, os_ReadFile in *.
  destruct s as [| |[current|] backup]; cbn [slot fst snd io_ret].
  - repeat split; try done; try exact Hbackup; [|by eexists].
    by intros (data & ? & _).
  - repeat split; try done; try exact Hbackup; [|by eexists].
    by intros (data & ? & _).
  - destruct (json_Unmarshal current) as [prev|] eqn:Hprev; cbn [fst snd io_ret].
    + repeat split; try done; try exact Hbackup.
      * intros [= <-]. by exists current.
      * intros (data & [= <-] & Hdata). congruence.
      * intros data [= <-]. congruence.
    + repeat split; try done; try exact Hbackup.
      intros (data & [= <-] & Hdata). congruence.
  - repeat split; try done; try exact Hbackup; [|by eexists].
    by intros (data & ? & _).
Qed.

(** X18.  Save, then load: a snapshot that the decoder reads back from
    its own encoding is what [LoadPreviousScan] returns after [SaveScan]
    stored it, on every store in which [scan_data] is a directory or can be
    created. *)
Theorem SaveScan_LoadPreviousScan (scan : ScanResult) (s : Store) :
  json_Unmarshal (json_MarshalIndent scan) = Some scan →
  s ≠ NotADir →
  fst (LoadPreviousScan (snd (SaveScan scan s))) = Ok scan.
Proof.
  intros Hcodec Hs.
  destruct s as [| |[current|] backup]; [|done| |];
    rewrite ?SaveScan_NoFolder, ?SaveScan_rotate, ?SaveScan_first; cbn [snd];
    unfold LoadPreviousScan, io_bind, os_ReadFile; cbn [slot];
    by rewrite Hcodec.
Qed.

End Store.

Lemma SaveScan_LoadPreviousScan_witness :
  fst (@LoadPreviousScan json_text
         (snd (@SaveScan json_text scan_tuesday
                 (Folder (Some (json_MarshalIndent scan_monday)) None))))
  = Ok scan_tuesday.
Proof.
  apply (@SaveScan_LoadPreviousScan json_text scan_tuesday).
  - vm_compute. reflexivity.
  - discriminate.
Defined.

(** ** [main]: the runs that end early, start afresh or find a snapshot *)

Section MainMore.
Context `{Host} `{Json} `{TimeLib} `{MapRange}.

Lemma SaveScan_not_NotADir scan s : s ≠ NotADir → snd (SaveScan scan s) ≠ NotADir.
Proof.
  destruct s as [| |[current|] backup]; [|done| |];
    by rewrite ?SaveScan_NoFolder, ?SaveScan_rotate, ?SaveScan_first.
Qed.

Lemma run_not_NotADir l w : disk w ≠ NotADir → disk (run l w) ≠ NotADir.
Proof.
  revert w. induction l as [|a l IH]; intros w Hw; [done|].
  change (run (a :: l) w) with (run l (run_action w a)). apply IH.
  destruct a as [line|scan]; [done|]. by apply SaveScan_not_NotADir.
Qed.

Lemma run_stdout_last l line w :
  last (stdout (run (l ++ [Println line]) w)) = Some (line +:+ nl).
Proof. rewrite run_app. unfold run at 1. cbn [foldl run_action stdout]. apply last_snoc. Qed.



(** After a successful scan the current file holds the new snapshot. *)
Lemma main_disk banner scanCmd target scan w :
  RunScan scanCmd target = Ok scan →
  disk w ≠ NotADir →
  ∃ backup, disk (main banner scanCmd target w)
            = Folder (Some (json_MarshalIndent scan)) backup.
Proof.
  intros Hscan Hw. unfold main. rewrite Hscan.
  set (w1 := run [Println banner] w).
  set (w2 := match fst (LoadPreviousScan (disk w1)) with
             | Ok prevScan => run (CompareScans prevScan scan) w1
             | Err _ => run [Println "No previous scan data found."] w1
             end).
  assert (disk w2 ≠ NotADir) as Hw2.
  { subst w2. destruct (fst (LoadPreviousScan (disk w1))); by apply run_not_NotADir. }
  rewrite run_save_then_print.
  destruct (disk w2) as [| |[current|] backup]; [|done| |];
    rewrite ?SaveScan_NoFolder, ?SaveScan_rotate, ?SaveScan_first; cbn [snd];
    by eexists.
Qed.

Lemma main_stdout_last banner scanCmd target scan w :
  RunScan scanCmd target = Ok scan →
  last (stdout (main banner scanCmd target w))
  = Some ("Scan completed and saved." +:+ nl).
Proof.
  intros Hscan. unfold main. rewrite Hscan. apply (run_stdout_last [Save scan]).
Qed.

(** X21.  After a successful scan, on a store in which [scan_data] is a
    directory or can be created, the current file holds the new snapshot
    whatever the comparison found, the next run will load what the decoder
    makes of it, and the last line printed is [Scan completed and
    saved.]. *)
Theorem main_stores_new_scan banner scanCmd target scan w :
  RunScan scanCmd target = Ok scan →
  disk w ≠ NotADir →
  slot scanFile (disk (main banner scanCmd target w)) = Some (json_MarshalIndent scan)
  ∧ fst (LoadPreviousScan (disk (main banner scanCmd target w)))
    = match json_Unmarshal (json_MarshalIndent scan) with
      | Some scan' => Ok scan'
      | None => Err SyntaxError
      end
  ∧ last (stdout (main banner scanCmd target w))
    = Some ("Scan completed and saved." +:+ nl).
Proof.
  intros Hscan Hw.
  destruct (main_disk banner scanCmd target scan w Hscan Hw) as [backup Hdisk].
  rewrite Hdisk. split; [done|]. split; [by rewrite LoadPreviousScan_current|].
  by apply (main_stdout_last banner scanCmd target scan).
Qed.




End MainMore.




Lemma main_stores_new_scan_witness :
  slot scanFile
    (disk (@main sample_host json_text rfc3339 sorted_range
             "PortHunter" "nmap -sV" "192.168.1.1"
             {| stdout := []; disk := Folder (Some (json_MarshalIndent scan_monday)) None |}))
  = Some (json_MarshalIndent scan_router).
Proof.
  assert (@RunScan sample_host "nmap -sV" "192.168.1.1" = Ok scan_router) as Hscan
    by (vm_compute; reflexivity).
  destruct (@main_stores_new_scan sample_host json_text rfc3339 sorted_range
              "PortHunter" "nmap -sV" "192.168.1.1" scan_router
              {| stdout := []; disk := Folder (Some (json_MarshalIndent scan_monday)) None |}
              Hscan ltac:(discriminate)) as [Hslot _].
  exact Hslot.
Defined.



Lemma main_unchanged_still_saves_witness :
  disk (@main sample_host json_text rfc3339 sorted_range
          "PortHunter" "nmap -sV" "192.168.1.1"
          {| stdout := [];
             disk := Folder (Some (json_MarshalIndent scan_router_before)) None |})
  = Folder (Some (json_MarshalIndent scan_router))
           (Some (json_MarshalIndent scan_router_before)).
Proof.
  apply (@main_unchanged_still_saves sample_host json_text rfc3339 sorted_range
           "PortHunter" "nmap -sV" "192.168.1.1" scan_router scan_router_before
           (json_MarshalIndent scan_router_before) None
           1714384800000000000%Z 1714476600000000000%Z []).
  - vm_compute. reflexivity.
  - vm_compute. reflexivity.
  - vm_compute. reflexivity.
  - vm_compute. reflexivity.
  - apply same_ports_unchanged, same_ports_same_map. reflexivity.
Defined.

Lemma main_changed_saves_twice_witness :
  disk (@main sample_host json_text rfc3339 sorted_range
          "PortHunter" "nmap -sV" "192.168.1.1"
          {| stdout := []; disk := Folder (Some (json_MarshalIndent scan_monday)) None |})
  = Folder (Some (json_MarshalIndent scan_router))
           (Some (json_MarshalIndent scan_router)).
Proof.
  apply (@main_changed_saves_twice sample_host json_text rfc3339 sorted_range
           "PortHunter" "nmap -sV" "192.168.1.1" scan_router scan_monday
           (json_MarshalIndent scan_monday) None
           1714384800000000000%Z 1714476600000000000%Z []).
  - vm_compute. reflexivity.
  - vm_compute. reflexivity.
  - vm_compute. reflexivity.
  - vm_compute. reflexivity.
  - right. exists "192.168.1.7". split; [eexists|]; vm_compute; reflexivity.
Defined.

